(** * Secvest integration: zone model, REST client and polling coordinator

    A shallow embedding of [custom_components/secvest]:
    - [coordinator.py]: [normalize_name], [make_spoken_zone_list],
      [build_zones_dict], [SecvestData] and [SecvestCoordinator];
    - [api.py]: [SecvestApi._request_json] and the three operations on it;
    - [__init__.py] and [alarm_control_panel.py]: the two command paths.

    Python objects are explicit records, [self] is threaded as state, and
    everything the code awaits from outside (HTTP exchanges, [random.random],
    [time.time]) is read from a [World] of oracles while the requests and
    sleeps it performs are appended to a trace. The backoff is computed in
    IEEE 754 doubles, as Python floats are, and a text is held as its UTF-8
    bytes. Of the host, the model has what the code calls: the refresh that
    stores the snapshot a tick returns, [async_set_updated_data], and the
    debouncer behind [async_request_refresh]. *)

From Stdlib Require Import ZArith QArith SpecFloat String Ascii List Bool Lia.
Import ListNotations.
Open Scope string_scope.
Open Scope Z_scope.
Set Warnings "-register-all".

(** ** Python values *)

(** What [json.loads] can return, and what the zone records are made of.
    Numbers are never inspected by the code. *)
Inductive value : Type :=
| VNone
| VBool (b : bool)
| VNum (z : Z)
| VStr (s : string)
| VList (l : list value)
| VDict (d : list (string * value)).

(** A Python [dict] with [str] keys: an association list in insertion order
    with pairwise distinct keys. *)
Module PyDict.

Definition dict (V : Type) : Type := list (string * V).

Fixpoint get {V} (k : string) (d : dict V) : option V :=
  match d with
  | [] => None
  | (k', v) :: d' => if String.eqb k' k then Some v else get k d'
  end.

(** [d[k] = v]: an existing key keeps its place, a new one goes last. *)
Fixpoint set {V} (k : string) (v : V) (d : dict V) : dict V :=
  match d with
  | [] => [(k, v)]
  | (k', v') :: d' =>
      if String.eqb k' k then (k', v) :: d' else (k', v') :: set k v d'
  end.

Definition keys {V} (d : dict V) : list string := map fst d.
Definition values {V} (d : dict V) : list V := map snd d.

End PyDict.
Import PyDict.

(** ** Strings *)

Module Str.

Fixpoint starts_with (p s : string) : bool :=
  match p, s with
  | EmptyString, _ => true
  | String a p', String b s' => Ascii.eqb a b && starts_with p' s'
  | String _ _, EmptyString => false
  end.

(** [s.replace(old, new)] for a non-empty [old]: leftmost matches, not
    overlapping. [skip] counts the characters of a match still to drop. *)
Fixpoint replace_from (skip : nat) (old new s : string) : string :=
  match s with
  | EmptyString => EmptyString
  | String c s' =>
      match skip with
      | S n => replace_from n old new s'
      | O =>
          if starts_with old s
          then new ++ replace_from (String.length old - 1) old new s'
          else String c (replace_from O old new s')
      end
  end.

Definition replace (old new s : string) : string := replace_from 0 old new s.

(** [sep.join(items)] *)
Definition join (sep : string) (items : list string) : string :=
  String.concat sep items.

(** [s.rstrip("/")] *)
Fixpoint rstrip_slash (s : string) : string :=
  match s with
  | EmptyString => EmptyString
  | String c s' =>
      match rstrip_slash s' with
      | EmptyString => if Ascii.eqb c "/" then EmptyString else String c EmptyString
      | t => String c t
      end
  end.

(** A byte [10xxxxxx] continues the character begun before it. *)
Definition is_continuation (c : ascii) : bool :=
  (128 <=? nat_of_ascii c)%nat && (nat_of_ascii c <? 192)%nat.

(** [s[:n]]: the first [n] characters of a text held as UTF-8 bytes. *)
Fixpoint slice_to (n : nat) (s : string) : string :=
  match s with
  | EmptyString => EmptyString
  | String c s' =>
      if is_continuation c then String c (slice_to n s')
      else
        match n with
        | O => EmptyString
        | S n' => String c (slice_to n' s')
        end
  end.

(** Truth value of a [str]. *)
Definition truthy (s : string) : bool :=
  match s with EmptyString => false | _ => true end.

(** The UTF-8 encodings of the letters [normalize_name] transliterates. *)
Definition utf8 (a b : nat) : string :=
  String (ascii_of_nat a) (String (ascii_of_nat b) EmptyString).
Definition a_uml : string := utf8 195 164.
Definition A_uml : string := utf8 195 132.
Definition o_uml : string := utf8 195 182.
Definition O_uml : string := utf8 195 150.
Definition u_uml : string := utf8 195 188.
Definition U_uml : string := utf8 195 156.
Definition eszett : string := utf8 195 159.

End Str.

(** ** Floats *)

(** A Python [float] is an IEEE 754 double; its arithmetic rounds to the
    nearest double, ties to even, and yields an infinity rather than raise
    when the result is too large. *)
Module Float.

Definition prec : Z := 53.
Definition emax : Z := 1024.

Definition float : Type := spec_float.

Definition mul (x y : float) : float := SFmul prec emax x y.
Definition add (x y : float) : float := SFadd prec emax x y.
Definition div (x y : float) : float := SFdiv prec emax x y.

(** The double nearest to [m * 2 ^ e]. *)
Definition round (m e : Z) : float := binary_normalize prec emax m e false.

(** [float(n)] for an [int], as the arithmetic converts an [int] operand:
    the nearest double, and [None] for the OverflowError ("int too large to
    convert to float") raised when that is beyond the largest double. *)
Definition of_int (n : Z) : option float :=
  if Z.abs n <? 2 ^ 1024 - 2 ^ 970 then Some (round n 0) else None.

Definition eqb (x y : float) : bool :=
  match x, y with
  | S754_zero a, S754_zero b => Bool.eqb a b
  | S754_infinity a, S754_infinity b => Bool.eqb a b
  | S754_nan, S754_nan => true
  | S754_finite a m e, S754_finite b m' e' =>
      Bool.eqb a b && Pos.eqb m m' && Z.eqb e e'
  | _, _ => false
  end.

End Float.

(** An [int] or a [float], as [2 ** e] can be either. *)
Inductive number : Type :=
| Int (n : Z)
| Float (x : Float.float).

(** [2 ** e] for an [int] [e]: an [int] when [e] is not negative; otherwise
    both operands are converted and the result is the float [2.0 ** e].
    [None] stands for the OverflowError of a conversion. *)
Definition pow2 (e : Z) : option number :=
  if 0 <=? e then Some (Int (2 ^ e))
  else
    match Float.of_int e with
    | Some _ => Some (Float (Float.round 1 e))
    | None => None
    end.

(** [x * y] for a float [x]; an [int] operand is converted first. *)
Definition float_times (x : Float.float) (y : number) : option Float.float :=
  match y with
  | Int n =>
      match Float.of_int n with
      | Some f => Some (Float.mul x f)
      | None => None
      end
  | Float f => Some (Float.mul x f)
  end.

(** ** coordinator.py: the zone and status model *)

Definition normalize_name (name : string) : string :=
  Str.replace Str.eszett "ss"
    (Str.replace Str.U_uml "ue"
      (Str.replace Str.u_uml "ue"
        (Str.replace Str.O_uml "oe"
          (Str.replace Str.o_uml "oe"
            (Str.replace Str.A_uml "ae"
              (Str.replace Str.a_uml "ae"
                (Str.replace "/" "_"
                  (Str.replace "-" "_"
                    (Str.replace " " "_"
                      (Str.replace "." "_" name)))))))))).

Definition make_spoken_zone_list (zones : list string) : string :=
  match zones with
  | [] => ""
  | [z] =>
      "Ich konnte die Alarmanlage nicht aktivieren, bitte schlie" ++ Str.eszett
        ++ "e: " ++ z ++ "."
  | _ =>
      let last := List.last zones "" in
      let head := Str.join ", " (removelast zones) in
      "Ich konnte die Alarmanlage nicht aktivieren, bitte folgende Fenster und T"
        ++ Str.u_uml ++ "ren schlie" ++ Str.eszett ++ "en: "
        ++ head ++ " und " ++ last ++ "."
  end.

(** [a or b] on two [str | None] operands. *)
Definition str_or (a b : option string) : option string :=
  match a with
  | Some s => if Str.truthy s then a else b
  | None => b
  end.

(** The record stored under a zone key. *)
Definition zone_record (raw_name friendly state : string) : value :=
  VDict [("name", VStr raw_name);
         ("friendly_name", VStr friendly);
         ("state", VStr state)].

(** The [raw_name] and [state] of a payload row that passes the two
    [isinstance] guards, [None] for a row the loop skips. *)
Definition zone_fields (z : value) : option (string * string) :=
  match z with
  | VDict zd =>
      match get "name" zd, get "state" zd with
      | Some (VStr raw_name), Some (VStr state) => Some (raw_name, state)
      | _, _ => None
      end
  | _ => None
  end.

Definition friendly_name_of (zone_name_map : dict string) (raw_name : string)
  : string :=
  let key := normalize_name raw_name in
  match str_or (get key zone_name_map) (get raw_name zone_name_map) with
  | Some friendly => if Str.truthy friendly then friendly else Str.replace "_" " " key
  | None => Str.replace "_" " " key
  end.

(** One iteration of the loop of [build_zones_dict]. *)
Definition build_zones_step (zone_name_map : dict string)
  (out : dict value) (z : value) : dict value :=
  match zone_fields z with
  | None => out
  | Some (raw_name, state) =>
      let key := normalize_name raw_name in
      let friendly := friendly_name_of zone_name_map raw_name in
      set key (zone_record raw_name friendly state) out
  end.

Definition build_zones_dict (zones_payload : list value)
  (zone_name_map : option (dict string)) : dict value :=
  let zone_name_map := match zone_name_map with Some m => m | None => [] end in
  fold_left (build_zones_step zone_name_map) zones_payload [].

(** ** Exceptions and the state-and-exception monad *)

(** The exceptions other than [SecvestApiError]: the six classes
    [_request_json] treats as transient, which [session.request] and
    [resp.text] can raise; [OverflowError], which float arithmetic raises;
    and any other exception. *)
Inductive client_exn : Type :=
| TimeoutError
| ClientConnectorError
| ServerDisconnectedError
| ClientOSError
| ClientPayloadError
| ClientResponseError (status : Z)
| OverflowError
| OtherException (what : string).

(** The messages of [SecvestApiError], kept as data rather than formatted. *)
Inductive api_message : Type :=
| AuthFailed (status : Z) (url : string)
| Conflict409 (body : string)
| HttpError (status : Z) (body : string)
| ResponseNotJson (status : Z) (body : string)
| UnexpectedError (url : string) (e : client_exn)
| RequestFailedAfterRetries (last_exc : option client_exn)
| InvalidModePayload (data : value)
| InvalidZonesPayload (data : value).

(** An exception as the coordinator and the command paths can catch it. *)
Inductive exn : Type :=
| Client (e : client_exn)
| SecvestApiError (m : api_message).

(** A piece of text: a literal, or [repr(err)] (which is never empty). *)
Inductive text : Type :=
| Lit (s : string)
| Repr (e : exn).

Inductive result (E A : Type) : Type :=
| Ok (a : A)
| Raise (e : E).
Arguments Ok {E A} a.
Arguments Raise {E A} e.

(** A computation on a state [S] that returns or raises; the state it has
    reached is kept in both cases, as assignments to [self] are. *)
Definition M (S E A : Type) : Type := S -> S * result E A.

Definition ret {S E A} (a : A) : M S E A := fun s => (s, Ok a).
Definition raise {S E A} (e : E) : M S E A := fun s => (s, Raise e).
Definition bind {S E A B} (m : M S E A) (k : A -> M S E B) : M S E B :=
  fun s =>
    match m s with
    | (s', Ok a) => k a s'
    | (s', Raise e) => (s', Raise e)
    end.
(** [try: m  except ... as e: h e] *)
Definition try_except {S E E' A} (m : M S E A) (h : E -> M S E' A) : M S E' A :=
  fun s =>
    match m s with
    | (s', Ok a) => (s', Ok a)
    | (s', Raise e) => h e s'
    end.
Definition gets {S E A} (f : S -> A) : M S E A := fun s => (s, Ok (f s)).
Definition modify {S E} (f : S -> S) : M S E unit := fun s => (f s, Ok tt).
(** Raise the exceptions of [m] under another type. *)
Definition map_exn {S E E' A} (f : E -> E') (m : M S E A) : M S E' A :=
  try_except m (fun e => raise (f e)).

Declare Scope monad_scope.
Delimit Scope monad_scope with monad.
Notation "x <- m ;; k" := (bind m (fun x => k))
  (at level 61, m at next level, right associativity) : monad_scope.
Notation "m ;; k" := (bind m (fun _ => k))
  (at level 61, right associativity) : monad_scope.
Open Scope monad_scope.

(** ** The outside world *)

Record request : Type := {
  rq_method : string;
  rq_url : string;
  rq_json : option value;
}.

(** The body of a response as the client reads it: [text] is
    [(await resp.text()).strip()] and [parsed] is [json.loads(text)], [None]
    for a [JSONDecodeError]; or reading the body raises. *)
Inductive body : Type :=
| Body (text : string) (parsed : option value)
| BodyRaises (e : client_exn).

Inductive http_outcome : Type :=
| Raises (e : client_exn)
| Responds (status : Z) (b : body).

(** The panel and the runtime: the [n]-th HTTP exchange, the [n]-th draw
    of [random.random()], the [n]-th reading of [time.time()]. *)
Record World : Type := {
  http : nat -> request -> http_outcome;
  random : nat -> Float.float;
  clock : nat -> Q;
}.

Inductive event : Type :=
| EvRequest (attempt : Z) (rq : request) (o : http_outcome)
| EvSleep (seconds : Float.float).

(** What has happened so far, oldest event first. *)
Record IO : Type := {
  trace : list event;
  requests_made : nat;
  randoms_drawn : nat;
  clock_reads : nat;
}.

Definition io0 : IO :=
  {| trace := []; requests_made := 0; randoms_drawn := 0; clock_reads := 0 |}.

Definition is_request (ev : event) : bool :=
  match ev with EvRequest _ _ _ => true | EvSleep _ => false end.
Definition is_sleep (ev : event) : bool :=
  match ev with EvSleep _ => true | EvRequest _ _ _ => false end.
Definition requests_of (tr : list event) : list event := filter is_request tr.
Definition sleeps_of (tr : list event) : list event := filter is_sleep tr.

Section WithWorld.
Context (w : World).

Definition session_request {E} (attempt : Z) (rq : request) : M IO E http_outcome :=
  fun io =>
    let o := http w (requests_made io) rq in
    ({| trace := trace io ++ [EvRequest attempt rq o];
        requests_made := S (requests_made io);
        randoms_drawn := randoms_drawn io;
        clock_reads := clock_reads io |}, Ok o).

Definition random_random {E} : M IO E Float.float :=
  fun io =>
    ({| trace := trace io;
        requests_made := requests_made io;
        randoms_drawn := S (randoms_drawn io);
        clock_reads := clock_reads io |}, Ok (random w (randoms_drawn io))).

Definition asyncio_sleep {E} (seconds : Float.float) : M IO E unit :=
  fun io =>
    ({| trace := trace io ++ [EvSleep seconds];
        requests_made := requests_made io;
        randoms_drawn := randoms_drawn io;
        clock_reads := clock_reads io |}, Ok tt).

Definition time_time {E} : M IO E Q :=
  fun io =>
    ({| trace := trace io;
        requests_made := requests_made io;
        randoms_drawn := randoms_drawn io;
        clock_reads := S (clock_reads io) |}, Ok (clock w (clock_reads io))).

End WithWorld.

(** ** api.py: the Device Client *)

Definition DEFAULT_RETRIES : Z := 4.
(** The literals [1.2] and [0.4]: the doubles nearest to 12/10 and 4/10. *)
Definition DEFAULT_BACKOFF_BASE_S : Float.float :=
  S754_finite false 5404319552844595 (-52).
Definition DEFAULT_JITTER_S : Float.float :=
  S754_finite false 7205759403792794 (-54).

(** [range(lo, hi)] *)
Definition range (lo hi : Z) : list Z :=
  map (fun i => lo + Z.of_nat i) (seq 0 (Z.to_nat (hi - lo))).

(** The fields of [SecvestApi] the request logic reads. Credentials, TLS
    flag, timeout and headers are handed to the session unchanged and are
    not part of the exchange as modelled. *)
Record SecvestApi : Type := {
  _host : string;
  _user_code : string;
  _retries : Z;
}.

Definition SecvestApi_init (host user_code : string) (retries : Z) : SecvestApi :=
  {| _host := Str.rstrip_slash host; _user_code := user_code; _retries := retries |}.

(** How the body of one [for path in paths_list] iteration ends. *)
Inductive path_outcome : Type :=
| NextPath                       (* [continue] *)
| Returned (v : value)           (* [return] *)
| NextAttempt (e : client_exn).  (* [last_exc = e], sleep, [break] *)

(** How one attempt (the whole inner loop) ends. *)
Inductive attempt_outcome : Type :=
| Finished (v : value)
| Broke (e : client_exn)
| PathsExhausted.

Definition is_transient (e : client_exn) : bool :=
  match e with
  | TimeoutError | ClientConnectorError | ServerDisconnectedError
  | ClientOSError | ClientPayloadError | ClientResponseError _ => true
  | OverflowError | OtherException _ => false
  end.

(** [DEFAULT_BACKOFF_BASE_S * (2 ** (attempt - 1))], [None] when it raises
    [OverflowError]. *)
Definition backoff_base (attempt : Z) : option Float.float :=
  match pow2 (attempt - 1) with
  | Some p => float_times DEFAULT_BACKOFF_BASE_S p
  | None => None
  end.

Section Api.
Context (w : World) (self : SecvestApi).

Definition _url (path : string) : string := _host self ++ path.

Definition resp_text (b : body) : M IO exn string :=
  match b with
  | Body t _ => ret t
  | BodyRaises e => raise (Client e)
  end.

Definition _read_json (status : Z) (b : body) : M IO exn value :=
  text <- resp_text b;;
  match b with
  | Body _ (Some v) => ret v
  | _ => raise (SecvestApiError (ResponseNotJson status (Str.slice_to 200 text)))
  end.

Definition _backoff (attempt : Z) : M IO exn Float.float :=
  match backoff_base attempt with
  | None => raise (Client OverflowError)
  | Some base =>
      r <- random_random w;;
      let jitter := Float.mul r DEFAULT_JITTER_S in
      ret (Float.add base jitter)
  end.

Section Request.
Context (method : string) (paths_list : list string)
        (json_payload : option value) (expect_json : bool).

(** The body of the [async with] block, lines 100 to 128, for the
    outcome [o] of the request. *)
Definition on_response (url : string) (o : http_outcome)
  : M IO exn path_outcome :=
  match o with
  | Raises e => raise (Client e)
  | Responds status b =>
      if (status =? 404) && (1 <? length paths_list)%nat then
        ret NextPath
      else if (status =? 401) || (status =? 403) then
        raise (SecvestApiError (AuthFailed status url))
      else if status =? 409 then
        body <- resp_text b;;
        raise (SecvestApiError (Conflict409 (Str.slice_to 300 body)))
      else if (400 <=? status) && (status <=? 499) then
        body <- resp_text b;;
        raise (SecvestApiError (HttpError status (Str.slice_to 300 body)))
      else if (500 <=? status) && (status <=? 599) then
        raise (Client (ClientResponseError status))
      else if 400 <=? status then
        (* [resp.raise_for_status()] *)
        raise (Client (ClientResponseError status))
      else if negb expect_json then
        ret (Returned VNone)
      else
        v <- _read_json status b;;
        ret (Returned v)
  end.

(** The [try] body of one iteration: lines 91 to 128. *)
Definition try_path (attempt : Z) (url : string) : M IO exn path_outcome :=
  o <- session_request w attempt
         {| rq_method := method; rq_url := url; rq_json := json_payload |};;
  on_response url o.

(** The three [except] clauses: lines 130 to 144. *)
Definition except_path (attempt : Z) (url : string) (e : exn)
  : M IO exn path_outcome :=
  match e with
  | Client ce =>
      if is_transient ce then
        seconds <- _backoff attempt;;
        asyncio_sleep seconds;;
        ret (NextAttempt ce)
      else
        raise (SecvestApiError (UnexpectedError url ce))
  | SecvestApiError m => raise (SecvestApiError m)
  end.

Fixpoint for_path (attempt : Z) (paths : list string)
  : M IO exn attempt_outcome :=
  match paths with
  | [] => ret PathsExhausted
  | path :: rest =>
      let url := _url path in
      r <- try_except (try_path attempt url) (except_path attempt url);;
      match r with
      | NextPath => for_path attempt rest
      | Returned v => ret (Finished v)
      | NextAttempt e => ret (Broke e)
      end
  end.

Fixpoint for_attempt (attempts : list Z) (last_exc : option client_exn)
  : M IO exn value :=
  match attempts with
  | [] => raise (SecvestApiError (RequestFailedAfterRetries last_exc))
  | attempt :: rest =>
      r <- for_path attempt paths_list;;
      match r with
      | Finished v => ret v
      | Broke e => for_attempt rest (Some e)
      | PathsExhausted => for_attempt rest last_exc
      end
  end.

Definition _request_json : M IO exn value :=
  for_attempt (range 1 (_retries self + 1)) None.

End Request.

Definition get_mode : M IO exn string :=
  data <- _request_json "GET"
            ["/system/partitions-1/state"; "/system/partitions-1/state/"]
            None true;;
  match data with
  | VDict d =>
      match get "state" d with
      | Some (VStr state) => ret state
      | _ => raise (SecvestApiError (InvalidModePayload data))
      end
  | _ => raise (SecvestApiError (InvalidModePayload data))
  end.

Definition get_zones : M IO exn (list value) :=
  data <- _request_json "GET"
            ["/system/partitions-1/zones/"; "/system/partitions-1/zones"]
            None true;;
  match data with
  | VList l => ret l
  | _ => raise (SecvestApiError (InvalidZonesPayload data))
  end.

Definition set_mode (new_state : string) : M IO exn unit :=
  _request_json "PUT"
    ["/system/partitions-1/"; "/system/partitions-1"]
    (Some (VDict [("state", VStr new_state); ("code", VStr (_user_code self))]))
    false;;
  ret tt.

End Api.

(** ** coordinator.py: snapshot and coordinator *)

Definition STATE_TRANSLATIONS : dict string :=
  [("set", "Scharf"); ("partset", "Teilscharf"); ("unset", "Unscharf")].

Definition DEFAULT_ZONES_INTERVAL : Z := 120.

Record SecvestData : Type := {
  raw_mode : option string;
  human_mode : option string;
  zones : dict value;
  open_zone_names : list string;
  open_zones_csv : string;
  open_zones_spoken : string;
  available : bool;
  last_error : option text;
}.

(** The comprehension of [_compose_data]: the [friendly_name] of a zone that
    passes its three guards. *)
Definition open_friendly_name (z : value) : option string :=
  match z with
  | VDict zd =>
      match get "state" zd, get "friendly_name" zd with
      | Some (VStr state), Some (VStr friendly) =>
          if String.eqb state "open" then Some friendly else None
      | _, _ => None
      end
  | _ => None
  end.

Fixpoint filter_map {A B} (f : A -> option B) (l : list A) : list B :=
  match l with
  | [] => []
  | a :: l' =>
      match f a with
      | Some b => b :: filter_map f l'
      | None => filter_map f l'
      end
  end.

Definition _compose_data (raw_mode human_mode : option string)
  (zones : dict value) (available : bool) (last_error : option text)
  : SecvestData :=
  let open_zone_names := filter_map open_friendly_name (values zones) in
  let open_zones_csv := Str.join ", " open_zone_names in
  let open_zones_spoken := make_spoken_zone_list open_zone_names in
  {| raw_mode := raw_mode;
     human_mode := human_mode;
     zones := zones;
     open_zone_names := open_zone_names;
     open_zones_csv := open_zones_csv;
     open_zones_spoken := open_zones_spoken;
     available := available;
     last_error := last_error |}.

Record SecvestCoordinator : Type := {
  api : SecvestApi;
  update_interval : Z;
  zone_name_map : dict string;
  _zones_interval : Z;
  _zones_tick : Z;
  _consecutive_failures : Z;
  _breaker_until : Q;
  _breaker_threshold : Z;
  _breaker_cooldown : Z;
  _last_error : option text;
  data : option SecvestData;
}.

(** [SecvestCoordinator.__init__]; the numeric arguments are the values
    after [int(...)]. *)
Definition SecvestCoordinator_init (api : SecvestApi) (scan_interval_s : Z)
  (zone_name_map : option (dict string)) (zones_interval_s : Z)
  (breaker_threshold breaker_cooldown : Z) : SecvestCoordinator :=
  {| api := api;
     update_interval := scan_interval_s;
     zone_name_map := match zone_name_map with Some m => m | None => [] end;
     _zones_interval := zones_interval_s;
     _zones_tick := 0;
     _consecutive_failures := 0;
     _breaker_until := 0;
     _breaker_threshold := Z.max 1 breaker_threshold;
     _breaker_cooldown := Z.max 10 breaker_cooldown;
     _last_error := None;
     data := None |}.

(** Assignments to the attributes the methods write. *)
Definition set_zones_tick (v : Z) (c : SecvestCoordinator) : SecvestCoordinator :=
  {| api := api c; update_interval := update_interval c;
     zone_name_map := zone_name_map c; _zones_interval := _zones_interval c;
     _zones_tick := v;
     _consecutive_failures := _consecutive_failures c;
     _breaker_until := _breaker_until c;
     _breaker_threshold := _breaker_threshold c;
     _breaker_cooldown := _breaker_cooldown c;
     _last_error := _last_error c; data := data c |}.

Definition set_consecutive_failures (v : Z) (c : SecvestCoordinator)
  : SecvestCoordinator :=
  {| api := api c; update_interval := update_interval c;
     zone_name_map := zone_name_map c; _zones_interval := _zones_interval c;
     _zones_tick := _zones_tick c;
     _consecutive_failures := v;
     _breaker_until := _breaker_until c;
     _breaker_threshold := _breaker_threshold c;
     _breaker_cooldown := _breaker_cooldown c;
     _last_error := _last_error c; data := data c |}.

Definition set_breaker_until (v : Q) (c : SecvestCoordinator) : SecvestCoordinator :=
  {| api := api c; update_interval := update_interval c;
     zone_name_map := zone_name_map c; _zones_interval := _zones_interval c;
     _zones_tick := _zones_tick c;
     _consecutive_failures := _consecutive_failures c;
     _breaker_until := v;
     _breaker_threshold := _breaker_threshold c;
     _breaker_cooldown := _breaker_cooldown c;
     _last_error := _last_error c; data := data c |}.

Definition set_last_error (v : option text) (c : SecvestCoordinator)
  : SecvestCoordinator :=
  {| api := api c; update_interval := update_interval c;
     zone_name_map := zone_name_map c; _zones_interval := _zones_interval c;
     _zones_tick := _zones_tick c;
     _consecutive_failures := _consecutive_failures c;
     _breaker_until := _breaker_until c;
     _breaker_threshold := _breaker_threshold c;
     _breaker_cooldown := _breaker_cooldown c;
     _last_error := v; data := data c |}.

Definition set_data (v : option SecvestData) (c : SecvestCoordinator)
  : SecvestCoordinator :=
  {| api := api c; update_interval := update_interval c;
     zone_name_map := zone_name_map c; _zones_interval := _zones_interval c;
     _zones_tick := _zones_tick c;
     _consecutive_failures := _consecutive_failures c;
     _breaker_until := _breaker_until c;
     _breaker_threshold := _breaker_threshold c;
     _breaker_cooldown := _breaker_cooldown c;
     _last_error := _last_error c; data := v |}.

(** The debouncer through which the host's coordinator base class runs
    [async_request_refresh] (immediate, with a cooldown): whether its
    cooldown timer is running, and whether a request came in meanwhile and
    is to be run when the timer ends. *)
Record Debouncer : Type := {
  _timer_task : bool;
  _execute_at_end_of_timer : bool;
}.

Definition idle : Debouncer :=
  {| _timer_task := false; _execute_at_end_of_timer := false |}.

(** The running integration: the coordinator object, what it has done to
    the outside world, and the host's debouncer of its refresh requests. *)
Record Hass : Type := {
  coordinator : SecvestCoordinator;
  io : IO;
  _debounced_refresh : Debouncer;
}.

Definition on_io {E A} (m : M IO E A) : M Hass E A :=
  fun h =>
    let (io', r) := m (io h) in
    ({| coordinator := coordinator h; io := io';
        _debounced_refresh := _debounced_refresh h |}, r).

Definition self_get {E A} (f : SecvestCoordinator -> A) : M Hass E A :=
  gets (fun h => f (coordinator h)).

Definition self_set {E} (f : SecvestCoordinator -> SecvestCoordinator)
  : M Hass E unit :=
  modify (fun h => {| coordinator := f (coordinator h); io := io h;
                      _debounced_refresh := _debounced_refresh h |}).

(** An assignment to the state of the debouncer. *)
Definition debouncer_set {E} (d : Debouncer) : M Hass E unit :=
  modify (fun h => {| coordinator := coordinator h; io := io h;
                      _debounced_refresh := d |}).

(** The debouncer's [async_cancel]: the timer is stopped and a request
    waiting for its end is dropped. *)
Definition debounced_refresh_cancel {E} : M Hass E unit := debouncer_set idle.

(** Truth value of a text, and [a or b] with [a : str | None]. *)
Definition text_truthy (t : text) : bool :=
  match t with
  | Lit s => Str.truthy s
  | Repr _ => true
  end.

Definition text_or (a : option text) (b : text) : text :=
  match a with
  | Some t => if text_truthy t then t else b
  | None => b
  end.

Definition Qlt_bool (x y : Q) : bool := negb (Qle_bool y x).

Inductive update_failed : Type :=
| UpdateFailed (message : text).

Section Coordinator.
Context (w : World).

(** A call [await self.api.<operation>(...)]. *)
Definition call_api {A} (op : World -> SecvestApi -> M IO exn A)
  : M Hass exn A :=
  a <- self_get api;;
  on_io (op w a).

(** The host's [async_set_updated_data]: cancel a debounced refresh, store
    the snapshot and notify the listeners. *)
Definition async_set_updated_data {E} (new_data : SecvestData) : M Hass E unit :=
  debounced_refresh_cancel;;
  self_set (set_data (Some new_data)).

Definition async_refresh_zones_now : M Hass exn unit :=
  zones_payload <- call_api get_zones;;
  name_map <- self_get zone_name_map;;
  let zones_dict := build_zones_dict zones_payload (Some name_map) in
  d <- self_get data;;
  let new_data :=
    match d with
    | Some d =>
        _compose_data (raw_mode d) (human_mode d) zones_dict true (last_error d)
    | None =>
        _compose_data None None zones_dict true None
    end in
  self_set (set_last_error None);;
  self_set (set_consecutive_failures 0);;
  self_set (set_breaker_until 0);;
  async_set_updated_data new_data.

(** The [try] body of [_async_update_data]: lines 190 to 215. *)
Definition poll : M Hass exn SecvestData :=
  raw_mode <- call_api get_mode;;
  let human_mode :=
    match get raw_mode STATE_TRANSLATIONS with
    | Some t => t
    | None => "Unbekannt"
    end in
  interval_s <- self_get update_interval;;
  tick <- self_get _zones_tick;;
  self_set (set_zones_tick (tick + interval_s));;
  d <- self_get data;;
  let zones_dict :=
    match d with
    | Some d => match zones d with [] => [] | _ => zones d end
    | None => []
    end in
  tick <- self_get _zones_tick;;
  zones_interval <- self_get _zones_interval;;
  zones_dict <-
    (if zones_interval <=? tick then
       self_set (set_zones_tick 0);;
       zones_payload <- call_api get_zones;;
       name_map <- self_get zone_name_map;;
       ret (build_zones_dict zones_payload (Some name_map))
     else ret zones_dict);;
  self_set (set_consecutive_failures 0);;
  self_set (set_breaker_until 0);;
  self_set (set_last_error None);;
  ret (_compose_data (Some raw_mode) (Some human_mode) zones_dict true None).

(** [self._breaker_until = time.time() + self._breaker_cooldown] when the
    failure count has reached the threshold. *)
Definition trip_breaker {E} : M Hass E unit :=
  failures <- self_get _consecutive_failures;;
  threshold <- self_get _breaker_threshold;;
  if threshold <=? failures then
    now <- on_io (time_time w);;
    cooldown <- self_get _breaker_cooldown;;
    self_set (set_breaker_until (now + inject_Z cooldown)%Q)
  else ret tt.

(** What both handlers end with: the degraded snapshot, or [UpdateFailed]. *)
Definition degraded_or_fail : M Hass update_failed SecvestData :=
  d <- self_get data;;
  err <- self_get _last_error;;
  match d with
  | Some d => ret (_compose_data (raw_mode d) (human_mode d) (zones d) false err)
  | None => raise (UpdateFailed (text_or err (Lit "Update failed")))
  end.

(** [except (asyncio.TimeoutError, SecvestApiError) as err]: lines 217 to 245. *)
Definition except_timeout_or_api (err : exn) : M Hass update_failed SecvestData :=
  failures <- self_get _consecutive_failures;;
  self_set (set_consecutive_failures (failures + 1));;
  self_set (set_last_error (Some (Repr err)));;
  trip_breaker;;
  degraded_or_fail.

(** [except Exception as err]: lines 247 to 263. *)
Definition except_exception (err : exn) : M Hass update_failed SecvestData :=
  failures <- self_get _consecutive_failures;;
  self_set (set_consecutive_failures (failures + 1));;
  self_set (set_last_error (Some (Repr err)));;
  trip_breaker;;
  degraded_or_fail.

Definition is_timeout_or_api (err : exn) : bool :=
  match err with
  | Client TimeoutError => true
  | SecvestApiError _ => true
  | Client _ => false
  end.

Definition _async_update_data : M Hass update_failed SecvestData :=
  now <- on_io (time_time w);;
  breaker_until <- self_get _breaker_until;;
  if Qlt_bool now breaker_until then
    d <- self_get data;;
    match d with
    | Some d =>
        err <- self_get _last_error;;
        ret (_compose_data (raw_mode d) (human_mode d) (zones d) false
               (Some (text_or err (Lit "Circuit breaker active"))))
    | None => raise (UpdateFailed (Lit "Circuit breaker active"))
    end
  else
    try_except poll
      (fun err =>
         if is_timeout_or_api err then except_timeout_or_api err
         else except_exception err).

(** One refresh as the host runs it, on a scheduled tick or through the
    debouncer: a debounced refresh is cancelled, then the snapshot returned
    by [_async_update_data] replaces [data]; on [UpdateFailed] the host logs
    the failure and [data] stays as it was. *)
Definition async_refresh {E} : M Hass E unit :=
  debounced_refresh_cancel;;
  try_except
    (new_data <- _async_update_data;; self_set (set_data (Some new_data)))
    (fun _ => ret tt).

(** [async_request_refresh]: the host runs the refresh through its
    debouncer. While the cooldown timer of an earlier request is running,
    the request only asks for a refresh at the end of the timer and returns;
    otherwise the refresh runs at once and the timer is started. *)
Definition async_request_refresh {E} : M Hass E unit :=
  debouncer <- gets _debounced_refresh;;
  if _timer_task debouncer then
    debouncer_set {| _timer_task := true; _execute_at_end_of_timer := true |}
  else
    async_refresh;;
    debouncer_set {| _timer_task := true; _execute_at_end_of_timer := false |}.

(** The end of the debouncer's cooldown timer: a request that came in
    meanwhile is run now, and the timer is started again. *)
Definition debouncer_timer_finish {E} : M Hass E unit :=
  debouncer <- gets _debounced_refresh;;
  if _timer_task debouncer then
    if _execute_at_end_of_timer debouncer then
      debouncer_set idle;;
      async_refresh;;
      debouncer_set {| _timer_task := true; _execute_at_end_of_timer := false |}
    else debouncer_set idle
  else ret tt.

End Coordinator.

(** ** __init__.py and alarm_control_panel.py: the command paths *)

Definition VALID_MODES : list string := ["set"; "partset"; "unset"].

Definition mem (s : string) (l : list string) : bool :=
  existsb (String.eqb s) l.

Inductive ha_message : Type :=
| InvalidMode (mode : option string)
| Message (s : string)
| ApiFehler (m : api_message)
| HttpFehler (status : Z)
| UnbekannterFehler (e : exn).

(** What a command raises: [HomeAssistantError], or an exception that no
    handler of the command caught. *)
Inductive cmd_exn : Type :=
| HomeAssistantError (m : ha_message)
| Uncaught (e : exn).

Definition nonempty {A} (l : list A) : bool :=
  match l with [] => false | _ => true end.

Definition string_or (a b : string) : string :=
  if Str.truthy a then a else b.

Section Commands.
Context (w : World).

(** The service handler registered by [async_setup_entry];
    [mode] is [call.data.get("mode")]. *)
Definition handle_set_mode (mode : option string) : M Hass cmd_exn unit :=
  match mode with
  | None => raise (HomeAssistantError (InvalidMode mode))
  | Some m =>
      if negb (mem m VALID_MODES) then
        raise (HomeAssistantError (InvalidMode mode))
      else
        map_exn Uncaught (async_refresh_zones_now w);;
        d <- self_get data;;
        match d with
        | None =>
            raise (HomeAssistantError (Message "Secvest status currently unknown."))
        | Some d =>
            if mem m ["set"; "partset"] && nonempty (open_zone_names d) then
              raise (HomeAssistantError
                       (Message (string_or (open_zones_spoken d)
                                   "Offene Zonen verhindern Aktivierung.")))
            else
              try_except (call_api w (fun w a => set_mode w a m))
                (fun err =>
                   match err with
                   | Client TimeoutError =>
                       raise (HomeAssistantError
                                (Message ("Secvest antwortet nicht (Timeout). Bitte sp"
                                          ++ Str.a_uml ++ "ter erneut versuchen.")))
                   | SecvestApiError msg =>
                       raise (HomeAssistantError (ApiFehler msg))
                   | Client (ClientResponseError status) =>
                       raise (HomeAssistantError (HttpFehler status))
                   | _ => raise (Uncaught err)
                   end);;
              async_request_refresh w
        end
  end.

(** [SecvestAlarm._set_mode] *)
Definition _set_mode (mode : string) : M Hass cmd_exn unit :=
  try_except
    (call_api w (fun w a => set_mode w a mode);;
     async_request_refresh w)
    (fun err =>
       match err with
       | Client TimeoutError =>
           raise (HomeAssistantError
                    (Message "Secvest antwortet nicht (Timeout). Bitte erneut versuchen."))
       | SecvestApiError msg => raise (HomeAssistantError (ApiFehler msg))
       | Client (ClientResponseError status) =>
           raise (HomeAssistantError (HttpFehler status))
       | _ => raise (HomeAssistantError (UnbekannterFehler err))
       end).

(** [SecvestAlarm._arm_with_live_zone_refresh] *)
Definition _arm_with_live_zone_refresh (mode : string) : M Hass cmd_exn unit :=
  try_except (async_refresh_zones_now w) (fun _ => ret tt);;
  d <- self_get data;;
  match d with
  | Some d =>
      if nonempty (open_zone_names d) then
        raise (HomeAssistantError
                 (Message (string_or (open_zones_spoken d)
                             ("Offene Zonen: " ++ Str.join ", " (open_zone_names d)))))
      else _set_mode mode
  | None => _set_mode mode
  end.

Definition async_arm_home : M Hass cmd_exn unit :=
  _arm_with_live_zone_refresh "partset".
Definition async_arm_away : M Hass cmd_exn unit :=
  _arm_with_live_zone_refresh "set".
Definition async_disarm : M Hass cmd_exn unit := _set_mode "unset".

End Commands.

(** ** alarm_control_panel.py, binary_sensor.py, sensor.py: the entities *)

Inductive AlarmControlPanelState : Type :=
| DISARMED
| ARMED_HOME
| ARMED_AWAY.

(** [SecvestAlarm.state] *)
Definition SecvestAlarm_state (c : SecvestCoordinator)
  : option AlarmControlPanelState :=
  match data c with
  | None => None
  | Some d =>
      match raw_mode d with
      | Some mode =>
          if String.eqb mode "unset" then Some DISARMED
          else if String.eqb mode "partset" then Some ARMED_HOME
          else if String.eqb mode "set" then Some ARMED_AWAY
          else None
      | None => None
      end
  end.

(** [SecvestAvailableBinarySensor.is_on] *)
Definition SecvestAvailableBinarySensor_is_on (c : SecvestCoordinator) : bool :=
  match data c with
  | Some d => available d
  | None => false
  end.

(** [SecvestAnyZoneOpenBinarySensor.is_on] *)
Definition SecvestAnyZoneOpenBinarySensor_is_on (c : SecvestCoordinator) : bool :=
  match data c with
  | Some d => nonempty (open_zone_names d)
  | None => false
  end.

(** Truth value of a Python value. *)
Definition value_truthy (v : value) : bool :=
  match v with
  | VNone => false
  | VBool b => b
  | VNum z => negb (z =? 0)
  | VStr s => Str.truthy s
  | VList l => nonempty l
  | VDict d => nonempty d
  end.

(** A property that reads [zone.get(...)] fails with [AttributeError] when
    the stored zone is not a dict. *)
Inductive entity_exn : Type :=
| AttributeError.

(** [SecvestZoneBinarySensor.is_on] *)
Definition SecvestZoneBinarySensor_is_on (_zone_key : string)
  (c : SecvestCoordinator) : result entity_exn (option bool) :=
  match data c with
  | None => Ok None
  | Some d =>
      match get _zone_key (zones d) with
      | None => Ok None
      | Some zone =>
          if negb (value_truthy zone) then Ok None
          else
            match zone with
            | VDict zd =>
                Ok (Some match get "state" zd with
                         | Some (VStr state) => String.eqb state "open"
                         | _ => false
                         end)
            | _ => Raise AttributeError
            end
      end
  end.

(** [SecvestZoneBinarySensor.name] *)
Definition SecvestZoneBinarySensor_name (_zone_key : string)
  (c : SecvestCoordinator) : result entity_exn string :=
  let fallback := "Secvest Zone " ++ Str.replace "_" " " _zone_key in
  match data c with
  | None => Ok fallback
  | Some d =>
      match get _zone_key (zones d) with
      | None => Ok fallback
      | Some (VDict zd) =>
          match get "friendly_name" zd with
          | Some (VStr friendly) =>
              if Str.truthy friendly then Ok ("Secvest " ++ friendly) else Ok fallback
          | _ => Ok fallback
          end
      | Some _ => Raise AttributeError
      end
  end.

(** [SecvestDerivedSensor.native_value] for the key ["open_zones_count"]. *)
Definition open_zones_count (c : SecvestCoordinator) : Z :=
  match data c with
  | None => 0
  | Some d =>
      if nonempty (open_zone_names d) then Z.of_nat (length (open_zone_names d)) else 0
  end.

(** [SecvestSimpleSensor.native_value] for the key ["last_error"]. *)
Definition last_error_sensor (c : SecvestCoordinator) : text :=
  match data c with
  | None => Lit "OK"
  | Some d => text_or (last_error d) (Lit "OK")
  end.

(** The zone platform of binary_sensor.py: the closure variable
    [existing_zone_keys] (a set) and the zone entities handed to
    [async_add_entities] so far, by zone key. *)
Record ZonePlatform : Type := {
  existing_zone_keys : list string;
  zone_entities : list string;
}.

(** [existing_zone_keys.add(zone_key)] *)
Definition set_add (k : string) (s : list string) : list string :=
  if mem k s then s else (s ++ [k])%list.

(** The loop of [async_setup_entry], lines 31 to 34. *)
Definition zone_platform_setup (c : SecvestCoordinator) : ZonePlatform :=
  let zone_keys :=
    match data c with
    | Some d => keys (zones d)
    | None => []
    end in
  fold_left
    (fun p zone_key =>
       {| existing_zone_keys := set_add zone_key (existing_zone_keys p);
          zone_entities := (zone_entities p ++ [zone_key])%list |})
    zone_keys
    {| existing_zone_keys := []; zone_entities := [] |}.

(** One iteration of the loop of [_maybe_add_new_zone_entities]: the keys
    known so far and the new entities collected so far. *)
Definition discover_zone (acc : list string * list string) (zone_key : string)
  : list string * list string :=
  let (existing, new_entities) := acc in
  if mem zone_key existing then acc
  else (set_add zone_key existing, (new_entities ++ [zone_key])%list).

(** [_maybe_add_new_zone_entities], the listener run after every update. *)
Definition _maybe_add_new_zone_entities (c : SecvestCoordinator) (p : ZonePlatform)
  : ZonePlatform :=
  match data c with
  | None => p
  | Some d =>
      match zones d with
      | [] => p
      | _ =>
          let (existing, new_entities) :=
            fold_left discover_zone (keys (zones d)) (existing_zone_keys p, []) in
          {| existing_zone_keys := existing;
             zone_entities := (zone_entities p ++ new_entities)%list |}
      end
  end.

(** ** config_flow.py: the TCP reachability test *)

(** What a connection attempt raises, and the error of the test itself. *)
Inductive connect_exn : Type :=
| ConnectError (what : string)
| TcpTimeoutError (message : string).

(** The [n]-th call of [socket.create_connection]: [None] when it connects. *)
Definition Network : Type := nat -> option connect_exn.

Record TcpIO : Type := {
  connects_made : nat;
  tcp_sleeps : list Q;
}.

Definition connect_blocking (net : Network) : M TcpIO connect_exn unit :=
  fun s =>
    ({| connects_made := S (connects_made s); tcp_sleeps := tcp_sleeps s |},
     match net (connects_made s) with
     | None => Ok tt
     | Some e => Raise e
     end).

Definition tcp_sleep (seconds : Q) : M TcpIO connect_exn unit :=
  fun s =>
    ({| connects_made := connects_made s;
        tcp_sleeps := (tcp_sleeps s ++ [seconds])%list |}, Ok tt).

(** The loop of [_async_test_tcp_socket] over the remaining attempts. *)
Fixpoint tcp_attempts (net : Network) (attempts : list Z)
  (last_exc : option connect_exn) : M TcpIO connect_exn unit :=
  match attempts with
  | [] =>
      match last_exc with
      | Some e => raise e
      | None => raise (TcpTimeoutError "TCP connect failed")
      end
  | attempt :: rest =>
      fun s =>
        match connect_blocking net s with
        | (s1, Ok tt) => (s1, Ok tt)
        | (s1, Raise e) => (tcp_sleep 1 ;; tcp_attempts net rest (Some e)) s1
        end
  end.

(** [SecvestConfigFlow._async_test_tcp_socket] *)
Definition _async_test_tcp_socket (net : Network) (retries : Z)
  : M TcpIO connect_exn unit :=
  tcp_attempts net (range 1 (retries + 1)) None.

(** ** Specification vocabulary *)

(** [keeps I Q m]: running [m] from a state satisfying [I] ends, whether it
    returns or raises, in a state satisfying [I], and a returned value
    satisfies [Q]. *)
Definition keeps {S E A} (I : S -> Prop) (Q : A -> Prop) (m : M S E A) : Prop :=
  forall s, I s -> I (fst (m s)) /\ forall a, snd (m s) = Ok a -> Q a.

(** A payload row that [build_zones_dict] ingests. *)
Definition valid_row (z : value) : bool :=
  match zone_fields z with Some _ => true | None => false end.

(** The key a valid row is stored under. *)
Definition row_key (z : value) : option string :=
  match zone_fields z with
  | Some (raw_name, _) => Some (normalize_name raw_name)
  | None => None
  end.

(** The enriched record a valid row is stored as. *)
Definition row_record (zone_name_map : dict string) (z : value) : option value :=
  match zone_fields z with
  | Some (raw_name, state) =>
      Some (zone_record raw_name (friendly_name_of zone_name_map raw_name) state)
  | None => None
  end.

Definition has_key (k : string) (z : value) : bool :=
  match row_key z with
  | Some k' => String.eqb k' k
  | None => false
  end.

(** An entry of a zones mapping as [build_zones_dict] writes it. *)
Definition built_entry (zone_name_map : dict string) (kv : string * value) : Prop :=
  exists raw_name state,
    fst kv = normalize_name raw_name /\
    snd kv = zone_record raw_name (friendly_name_of zone_name_map raw_name) state.

(** A zone record: a dict whose [name], [friendly_name] and [state] are
    strings. *)
Definition is_zone_record (z : value) : Prop :=
  exists raw_name friendly state, z = zone_record raw_name friendly state.

(** [z["state"] == "open"] *)
Definition state_is_open (z : value) : bool :=
  match z with
  | VDict zd =>
      match get "state" zd with
      | Some (VStr state) => String.eqb state "open"
      | _ => false
      end
  | _ => false
  end.

(** [z["friendly_name"]] when it is a string. *)
Definition friendly_name (z : value) : option string :=
  match z with
  | VDict zd =>
      match get "friendly_name" zd with
      | Some (VStr friendly) => Some friendly
      | _ => None
      end
  | _ => None
  end.

(** Internal consistency of a snapshot. *)
Definition consistent (d : SecvestData) : Prop :=
  map Some (open_zone_names d)
    = map friendly_name (filter state_is_open (values (zones d))) /\
  open_zones_csv d = Str.join ", " (open_zone_names d) /\
  open_zones_spoken d = make_spoken_zone_list (open_zone_names d).

(** A snapshot as [_compose_data] builds it from well-formed zones. *)
Definition composed (d : SecvestData) : Prop :=
  Forall is_zone_record (values (zones d)) /\
  d = _compose_data (raw_mode d) (human_mode d) (zones d) (available d) (last_error d).

(** The current snapshot, if there is one, was composed. *)
Definition data_composed (c : SecvestCoordinator) : Prop :=
  forall d, data c = Some d -> composed d.

(** An invariant of the coordinator object, as a property of the running
    integration. *)
Definition holds (inv : SecvestCoordinator -> Prop) (h : Hass) : Prop :=
  inv (coordinator h).

(** No constraint on a returned value. *)
Definition any {A} : A -> Prop := fun _ => True.

(** Every snapshot composed over the zones of the current [data] is [ok]. *)
Definition carried_ok (ok : SecvestData -> Prop) (d : option SecvestData) : Prop :=
  forall x rm hm av le,
    d = Some x -> ok (_compose_data rm hm (zones x) av le).

(** The operations that run on a coordinator once it is set up. *)
Inductive operation : Type :=
| ScheduledTick
| RequestRefresh
| RefreshZonesNow
| ServiceSetMode (mode : option string)
| ArmHome
| ArmAway
| Disarm
| DebouncerTimer.

Definition run (w : World) (op : operation) (h : Hass) : Hass :=
  match op with
  | ScheduledTick => fst (async_refresh (E := exn) w h)
  | RequestRefresh => fst (async_request_refresh (E := exn) w h)
  | RefreshZonesNow => fst (async_refresh_zones_now w h)
  | ServiceSetMode mode => fst (handle_set_mode w mode h)
  | ArmHome => fst (async_arm_home w h)
  | ArmAway => fst (async_arm_away w h)
  | Disarm => fst (async_disarm w h)
  | DebouncerTimer => fst (debouncer_timer_finish (E := exn) w h)
  end.

(** The states an integration can be in: a freshly constructed coordinator,
    then any sequence of operations. *)
Inductive reachable (w : World) : Hass -> Prop :=
| reachable_init (a : SecvestApi) (scan_interval_s : Z)
    (name_map : option (dict string)) (zones_interval_s : Z)
    (breaker_threshold breaker_cooldown : Z) :
    reachable w
      {| coordinator :=
           SecvestCoordinator_init a scan_interval_s name_map zones_interval_s
             breaker_threshold breaker_cooldown;
         io := io0;
         _debounced_refresh := idle |}
| reachable_step (op : operation) (h : Hass) :
    reachable w h -> reachable w (run w op h).

(** The method of every request among the events is [method]. *)
Definition requests_use (method : string) (evs : list event) : Prop :=
  Forall (fun ev =>
            match ev with
            | EvRequest _ rq _ => rq_method rq = method
            | EvSleep _ => True
            end) evs.

(** The state in which the [try] block of a tick starts: [time.time()] has
    been read once. *)
Definition tick_start (w : World) (h : Hass) : Hass :=
  fst (on_io (E := update_failed) (time_time w) h).

(** A transient error met while the body of a response is read. *)
Definition body_failure (b : body) : option client_exn :=
  match b with
  | BodyRaises e => if is_transient e then Some e else None
  | Body _ _ => None
  end.

(** The transport failure an HTTP exchange amounts to, if it is one: the
    request raises one of the transient classes (timeout, connection,
    disconnect, OS, payload or response error); the panel answers 5xx or any
    other status from 400 on that is not a 4xx; or reading the body fails
    with a transient class where the client reads it, which is for a 4xx
    other than 401, 403 and the skipped 404, and for an answer below 400
    when JSON is expected. [several_paths] says that there is more than one
    candidate path, in which case a 404 only moves on to the next path. *)
Definition transport_failure (several_paths expect_json : bool)
  (o : http_outcome) : option client_exn :=
  match o with
  | Raises e => if is_transient e then Some e else None
  | Responds status b =>
      if (status =? 404) && several_paths then None
      else if (status =? 401) || (status =? 403) then None
      else if (400 <=? status) && (status <=? 499) then body_failure b
      else if 400 <=? status then Some (ClientResponseError status)
      else if expect_json then body_failure b
      else None
  end.

(** The double [1.2 * 2 ^ (attempt - 1)]: the digits of [1.2] with the
    exponent moved up by [attempt - 1]. *)
Definition scaled_base (attempt : Z) : Float.float :=
  S754_finite false 5404319552844595 (attempt - 53).

(** The value of [_backoff(attempt)] when [random.random()] returns [r],
    for an attempt from 1 to 1024. *)
Definition backoff_seconds (attempt : Z) (r : Float.float) : Float.float :=
  Float.add (scaled_base attempt) (Float.mul r DEFAULT_JITTER_S).

(** The events of the [i]-th failed attempt (counted from 0) of a request
    [rq] issued from the state [start]: the request, then the backoff
    sleep. *)
Definition failed_attempt (w : World) (start : IO) (rq : request) (i : nat)
  : list event :=
  [EvRequest (1 + Z.of_nat i) rq (http w (requests_made start + i) rq);
   EvSleep (backoff_seconds (1 + Z.of_nat i) (random w (randoms_drawn start + i)))].

(** The trace has grown from [before] by events whose requests all use
    [method]. *)
Definition trace_grows (before : list event) (method : string) (io : IO) : Prop :=
  exists evs, trace io = (before ++ evs)%list /\ requests_use method evs.

(** The request [_request_json] issues for a candidate path. *)
Definition request_for (self : SecvestApi) (method : string)
  (json_payload : option value) (path : string) : request :=
  {| rq_method := method; rq_url := _url self path; rq_json := json_payload |}.

(** The state after one request that was answered by [o] and nothing else. *)
Definition after_request (io : IO) (attempt : Z) (rq : request) (o : http_outcome)
  : IO :=
  {| trace := trace io ++ [EvRequest attempt rq o];
     requests_made := S (requests_made io);
     randoms_drawn := randoms_drawn io;
     clock_reads := clock_reads io |}.

(** The snapshot a tick falls back to: mode and zones of [d], unavailable,
    with the given error text. *)
Definition degraded (d : SecvestData) (err : option text) : SecvestData :=
  _compose_data (raw_mode d) (human_mode d) (zones d) false err.

(** The integration with the coordinator untouched and the outside world
    in state [io1]. *)
Definition with_io (h : Hass) (io1 : IO) : Hass :=
  {| coordinator := coordinator h; io := io1;
     _debounced_refresh := _debounced_refresh h |}.

(** The integration with its debouncer in state [d]. *)
Definition with_debouncer (h : Hass) (d : Debouncer) : Hass :=
  {| coordinator := coordinator h; io := io h; _debounced_refresh := d |}.

(** [m] neither looks at the debouncer nor changes it. *)
Definition frames {E A} (m : M Hass E A) : Prop :=
  forall d h, m (with_debouncer h d) = (with_debouncer (fst (m h)) d, snd (m h)).

(** What either handler of [_async_update_data] does to the state: count
    the failure, keep the error, and open the breaker at the threshold. *)
Definition after_failure (w : World) (err : exn) (h : Hass) : Hass :=
  let c := coordinator h in
  let failures := _consecutive_failures c + 1 in
  let c1 := set_last_error (Some (Repr err)) (set_consecutive_failures failures c) in
  if _breaker_threshold c <=? failures then
    {| coordinator :=
         set_breaker_until
           (clock w (clock_reads (io h)) + inject_Z (_breaker_cooldown c))%Q c1;
       io := fst (time_time (E := exn) w (io h));
       _debounced_refresh := _debounced_refresh h |}
  else {| coordinator := c1; io := io h;
          _debounced_refresh := _debounced_refresh h |}.

(** The state after one draw of [random.random()] and a sleep of
    [seconds]. *)
Definition after_sleep (io : IO) (seconds : Float.float) : IO :=
  {| trace := trace io ++ [EvSleep seconds];
     requests_made := requests_made io;
     randoms_drawn := S (randoms_drawn io);
     clock_reads := clock_reads io |}.

(** The state after the backoff of [attempt], for an attempt from 1 to
    1024: one draw, one sleep. *)
Definition after_backoff (w : World) (io : IO) (attempt : Z) : IO :=
  after_sleep io (backoff_seconds attempt (random w (randoms_drawn io))).

(** A request event belongs to one of the [attempts] and goes to one of the
    candidate [paths] with the method and payload of the call. *)
Definition request_within (self : SecvestApi) (method : string)
  (json_payload : option value) (attempts : list Z) (paths : list string)
  (ev : event) : Prop :=
  match ev with
  | EvRequest attempt rq _ =>
      In attempt attempts /\
      exists path, In path paths /\ rq = request_for self method json_payload path
  | EvSleep _ => True
  end.

(** What one call has added to the outside world: the new events, with the
    request counter in step. *)
Definition adds (io io' : IO) (evs : list event) : Prop :=
  trace io' = (trace io ++ evs)%list /\
  requests_made io' = (requests_made io + length (requests_of evs))%nat /\
  randoms_drawn io' = (randoms_drawn io + length (sleeps_of evs))%nat /\
  clock_reads io' = clock_reads io.

(** ** Worked runs *)

Module Demo.

Definition zone (name state : string) : value :=
  VDict [("name", VStr name); ("state", VStr state)].

Definition ok_json (v : value) : http_outcome := Responds 200 (Body "" (Some v)).

(** A panel that answers the [n]-th exchange with the [n]-th entry of a
    script and times out afterwards. *)
Definition scripted (script : list http_outcome) : World :=
  {| http := fun n _ => nth n script (Raises TimeoutError);
     random := fun _ => Float.round 1 (-2);
     clock := fun n => inject_Z (Z.of_nat n) |}.

Definition the_api : SecvestApi := SecvestApi_init "https://panel/" "1234" 2.

Definition fresh : Hass :=
  {| coordinator := SecvestCoordinator_init the_api 30 None 120 3 300;
     io := io0;
     _debounced_refresh := idle |}.

Definition misconfigured : Hass :=
  {| coordinator := SecvestCoordinator_init the_api 30 None 120 0 (-5);
     io := io0;
     _debounced_refresh := idle |}.

(** The zones resource lists one open and one closed zone. *)
Definition two_zones : World :=
  scripted [ok_json (VList [zone "Haus.Tuer" "open"; zone "Fenster 1" "closed"])].

(** The first exchange is answered 404, the second with the number 7. *)
Definition first_path_missing : World :=
  scripted [Responds 404 (Body "" None); ok_json (VNum 7)].

Definition two_zones_snapshot : SecvestData :=
  _compose_data None None
    (build_zones_dict [zone "Haus.Tuer" "open"; zone "Fenster 1" "closed"] None)
    true None.

Definition mode_json (mode : string) : value := VDict [("state", VStr mode)].

(** One good answer to the mode request, then six timeouts: with two
    retries per request, three failed polls. *)
Definition outage : list http_outcome :=
  ok_json (mode_json "unset") :: repeat (Raises TimeoutError) 6.

(** After the outage the zones resource answers again. *)
Definition recovering : World :=
  scripted (outage ++ [ok_json (VList [zone "Haus.Tuer" "closed"])]).

(** After the outage the panel rejects the credentials. *)
Definition unauthorized : World :=
  scripted (outage ++ [Responds 401 (Body "" None)]).

(** A good tick and three failed ones, with threshold 3: the breaker is
    open. *)
Definition tripped (w : World) : Hass :=
  run w ScheduledTick
    (run w ScheduledTick (run w ScheduledTick (run w ScheduledTick fresh))).

(** The zones resource reports an open door, twice. *)
Definition open_door : World :=
  scripted [ok_json (VList [zone "Haus.Tuer" "open"]);
            ok_json (VList [zone "Haus.Tuer" "open"])].

(** A coordinator whose snapshot lists the open door. *)
Definition door_seen_open : Hass := run open_door RefreshZonesNow fresh.

End Demo.

(** [STATE_TRANSLATIONS.get(raw_mode, "Unbekannt")] *)
Definition translation (raw_mode : string) : string :=
  match get raw_mode STATE_TRANSLATIONS with
  | Some t => t
  | None => "Unbekannt"
  end.

(** The coordinator with its three health attributes reset. *)
Definition healthy (c : SecvestCoordinator) : SecvestCoordinator :=
  set_last_error None (set_breaker_until 0 (set_consecutive_failures 0 c)).

(** The zones a tick carries over from the current snapshot. *)
Definition carried_zones_of (c : SecvestCoordinator) : dict value :=
  match data c with
  | Some d => zones d
  | None => []
  end.

(** The zones counter after the tick has added its interval. *)
Definition advanced_tick (c : SecvestCoordinator) : Z :=
  _zones_tick c + update_interval c.

(** The breaker timestamp is only set once the failures have reached the
    threshold, and the failure counter is not negative. *)
Definition breaker_justified (c : SecvestCoordinator) : Prop :=
  0 <= _consecutive_failures c /\
  (_breaker_until c <> 0%Q -> _breaker_threshold c <= _consecutive_failures c).

(** A snapshot carries no mode at all, or a mode with its translation. *)
Definition mode_labelled (d : SecvestData) : Prop :=
  (raw_mode d = None /\ human_mode d = None) \/
  (exists raw, raw_mode d = Some raw /\ human_mode d = Some (translation raw)).

(** An entry of a zones mapping: a zone record under the normalized form of
    its own name. *)
Definition keyed_entry (kv : string * value) : Prop :=
  exists raw_name friendly state,
    fst kv = normalize_name raw_name /\
    snd kv = zone_record raw_name friendly state.

(** A zones mapping with distinct keys and keyed entries. *)
Definition well_keyed (zs : dict value) : Prop :=
  NoDup (keys zs) /\ Forall keyed_entry zs.

(** The mode of the current snapshot. *)
Definition raw_mode_of (c : SecvestCoordinator) : option string :=
  match data c with
  | Some d => raw_mode d
  | None => None
  end.

(** The coordinator invariant behind the extra properties. *)
Definition coordinator_sound (c : SecvestCoordinator) : Prop :=
  breaker_justified c /\
  forall d, data c = Some d -> mode_labelled d /\ well_keyed (zones d).

(** The entity state that goes with a German mode label. *)
Definition state_of_label (label : option string) : option AlarmControlPanelState :=
  match label with
  | Some l =>
      if String.eqb l "Unscharf" then Some DISARMED
      else if String.eqb l "Teilscharf" then Some ARMED_HOME
      else if String.eqb l "Scharf" then Some ARMED_AWAY
      else None
  | None => None
  end.

(** The zone sensor of [zone_key] reports an open zone. *)
Definition zone_sensor_on (c : SecvestCoordinator) (zone_key : string) : bool :=
  match SecvestZoneBinarySensor_is_on zone_key c with
  | Ok (Some true) => true
  | _ => false
  end.

(** The bookkeeping of the zone platform: the zone entities are pairwise
    distinct and their keys are exactly the known keys. *)
Definition platform_ok (p : ZonePlatform) : Prop :=
  NoDup (zone_entities p) /\
  forall k, In k (zone_entities p) <-> In k (existing_zone_keys p).

(** [old in s]: the pattern [old] occurs somewhere in [s]. *)
Fixpoint occurs (old s : string) : bool :=
  Str.starts_with old s ||
  match s with
  | EmptyString => false
  | String _ s' => occurs old s'
  end.

(** A run of [n] slashes. *)
Fixpoint slashes (n : nat) : string :=
  match n with
  | O => EmptyString
  | S n' => String "/" (slashes n')
  end.

(** [raises P m]: whatever [m] raises satisfies [P]. *)
Definition raises {S E A} (P : E -> Prop) (m : M S E A) : Prop :=
  forall s s' e, m s = (s', Raise e) -> P e.

(** What the Device Client raises: [SecvestApiError], or the
    [OverflowError] of a backoff it cannot compute, which takes more than
    1024 retries. *)
Definition client_error (self : SecvestApi) (e : exn) : Prop :=
  (exists m, e = SecvestApiError m) \/
  (e = Client OverflowError /\ 1025 <= _retries self).

(** ** More worked runs *)

Module Cases.

(** Every exchange is answered 404. *)
Definition nothing_there : World :=
  {| http := fun _ _ => Responds 404 (Body "" None);
     random := fun _ => Float.round 1 (-2);
     clock := fun n => inject_Z (Z.of_nat n) |}.

(** The first exchange times out, the second lists one closed zone. *)
Definition slow_start : World :=
  Demo.scripted
    [Raises TimeoutError; Demo.ok_json (VList [Demo.zone "Haus.Tuer" "closed"])].

(** The mode request is answered ["set"], the zones request with an open
    door. *)
Definition mode_then_zones : World :=
  Demo.scripted
    [Demo.ok_json (Demo.mode_json "set");
     Demo.ok_json (VList [Demo.zone "Haus.Tuer" "open"])].

(** The mode request is answered ["set"], everything after it times out. *)
Definition mode_only : World :=
  Demo.scripted [Demo.ok_json (Demo.mode_json "set")].

(** A coordinator that knows the panel as disarmed and is due for zones at
    its next tick. *)
Definition zones_due : Hass :=
  {| coordinator :=
       set_data
         (Some (_compose_data (Some "unset") (Some "Unscharf") [] true None))
         (set_zones_tick 90 (SecvestCoordinator_init Demo.the_api 30 None 120 3 300));
     io := io0;
     _debounced_refresh := idle |}.

(** The first connection attempt is refused, the following ones succeed. *)
Definition second_try_connects : Network :=
  fun n => match n with
           | O => Some (ConnectError "refused")
           | S _ => None
           end.

(** A client configured with 1025 retries. *)
Definition many_retries : SecvestApi :=
  SecvestApi_init "https://panel/" "1234" 1025.

(** A PUT is accepted, the mode request of the refresh after it is
    answered, and a second PUT is accepted. *)
Definition disarm_twice : World :=
  Demo.scripted
    [Responds 200 (Body "" None);
     Demo.ok_json (Demo.mode_json "unset");
     Responds 200 (Body "" None)].

(** The zones resource reports an open door; the PUT that follows is
    accepted and so is the mode request of the refresh after it. *)
Definition disarm_with_open_door : World :=
  Demo.scripted
    [Demo.ok_json (VList [Demo.zone "Haus.Tuer" "open"]);
     Responds 200 (Body "" None);
     Demo.ok_json (Demo.mode_json "unset")].

End Cases.

(** * Properties *)

(** ** Dictionaries *)

Section DictFacts.
Context {V : Type}.
Implicit Types (d : dict V) (k : string) (v : V).

Lemma get_set_same k v d : get k (set k v d) = Some v.
Proof.
  induction d as [|[k' v'] d IH]; simpl.
  - now rewrite String.eqb_refl.
  - destruct (String.eqb k' k) eqn:Hk; simpl; rewrite Hk; auto.
Qed.

Lemma get_set_other k k' v d : k <> k' -> get k (set k' v d) = get k d.
Proof.
  intros Hne. induction d as [|[k0 v0] d IH]; simpl.
  - destruct (String.eqb_spec k' k); congruence.
  - destruct (String.eqb_spec k0 k'); simpl.
    + subst k0. destruct (String.eqb_spec k' k); congruence.
    + destruct (String.eqb_spec k0 k); auto.
Qed.

Lemma get_none_iff k d : get k d = None <-> ~ In k (keys d).
Proof.
  induction d as [|[k0 v0] d IH]; simpl.
  - tauto.
  - destruct (String.eqb_spec k0 k).
    + split; [discriminate | tauto].
    + rewrite IH. tauto.
Qed.

Lemma set_fresh k v d : ~ In k (keys d) -> set k v d = (d ++ [(k, v)])%list.
Proof.
  induction d as [|[k0 v0] d IH]; simpl; intros Hnin.
  - reflexivity.
  - destruct (String.eqb_spec k0 k).
    + tauto.
    + rewrite IH; tauto.
Qed.

Lemma keys_set_present k v d : In k (keys d) -> keys (set k v d) = keys d.
Proof.
  induction d as [|[k0 v0] d IH]; simpl; intros Hin.
  - tauto.
  - destruct (String.eqb_spec k0 k); simpl.
    + reflexivity.
    + f_equal. apply IH. tauto.
Qed.

Lemma keys_set k v d :
  keys (set k v d) = if in_dec string_dec k (keys d) then keys d else (keys d ++ [k])%list.
Proof.
  destruct (in_dec string_dec k (keys d)) as [Hin|Hnin].
  - now apply keys_set_present.
  - rewrite set_fresh by assumption. unfold keys. now rewrite map_app.
Qed.

Lemma in_keys_set k k' v d : In k (keys (set k' v d)) <-> k = k' \/ In k (keys d).
Proof.
  rewrite keys_set. destruct (in_dec string_dec k' (keys d)) as [Hin|Hnin].
  - split; [tauto | intros [->|H]; assumption].
  - rewrite in_app_iff. simpl. split; intros H; intuition congruence.
Qed.

Lemma NoDup_keys_set k v d : NoDup (keys d) -> NoDup (keys (set k v d)).
Proof.
  intros Hnd. rewrite keys_set. destruct (in_dec string_dec k (keys d)) as [Hin|Hnin].
  - assumption.
  - apply NoDup_app; auto.
    + repeat constructor. simpl. tauto.
    + intros x Hx [<-|[]]. tauto.
Qed.

Lemma in_set k v d kv :
  In kv (set k v d) -> kv = (k, v) \/ In kv d.
Proof.
  induction d as [|[k0 v0] d IH]; simpl.
  - intros [<-|[]]. now left.
  - destruct (String.eqb_spec k0 k); simpl.
    + subst k0. intros [<-|H]; auto.
    + intros [<-|H]; auto. destruct (IH H); auto.
Qed.

Lemma in_get k v d : NoDup (keys d) -> (In (k, v) d <-> get k d = Some v).
Proof.
  induction d as [|[k0 v0] d IH]; simpl; intros Hnd.
  - split; [tauto | discriminate].
  - inversion Hnd as [|? ? Hnin Hnd']; subst.
    destruct (String.eqb_spec k0 k).
    + subst k0. split.
      * intros [H|H]; [congruence|].
        exfalso. apply Hnin. change k with (fst (k, v)). now apply in_map.
      * intros H. left. congruence.
    + rewrite <- IH by assumption. split; [intros [H|H]; [congruence|auto] | auto].
Qed.

End DictFacts.

(** ** The zone model *)

Lemma zone_fields_record raw_name friendly state :
  zone_fields (zone_record raw_name friendly state) = Some (raw_name, state).
Proof. reflexivity. Qed.

Lemma valid_row_spec z :
  valid_row z = true <->
  exists zd raw_name state,
    z = VDict zd /\ get "name" zd = Some (VStr raw_name)
    /\ get "state" zd = Some (VStr state).
Proof.
  unfold valid_row, zone_fields. split.
  - destruct z as [| | | | |zd]; try discriminate.
    destruct (get "name" zd) as [[| | |raw_name| |]|] eqn:Hn; try discriminate.
    destruct (get "state" zd) as [[| | |state| |]|] eqn:Hs; try discriminate.
    intros _. now exists zd, raw_name, state.
  - intros (zd & raw_name & state & -> & -> & ->). reflexivity.
Qed.

Section BuildZones.
Context (m : dict string).

Lemma step_invalid out z : valid_row z = false -> build_zones_step m out z = out.
Proof.
  unfold valid_row, build_zones_step. now destruct (zone_fields z) as [[? ?]|].
Qed.

Lemma step_valid out z k :
  row_key z = Some k ->
  exists v, row_record m z = Some v /\ build_zones_step m out z = set k v out.
Proof.
  unfold row_key, row_record, build_zones_step.
  destruct (zone_fields z) as [[raw_name state]|]; [|discriminate].
  intros [= <-]. eauto.
Qed.

Lemma row_key_valid z : valid_row z = true <-> exists k, row_key z = Some k.
Proof.
  unfold valid_row, row_key. destruct (zone_fields z) as [[? ?]|].
  - split; eauto.
  - split; [discriminate | intros [k [=]]].
Qed.

Lemma has_key_true k z : has_key k z = true <-> row_key z = Some k.
Proof.
  unfold has_key. destruct (row_key z) as [k'|].
  - destruct (String.eqb_spec k' k); split; congruence.
  - split; discriminate.
Qed.

Lemma fold_filter_valid payload acc :
  fold_left (build_zones_step m) payload acc = fold_left (build_zones_step m) (filter valid_row payload) acc.
Proof.
  revert acc. induction payload as [|z payload IH]; intros acc; simpl.
  - reflexivity.
  - destruct (valid_row z) eqn:Hv; simpl.
    + apply IH.
    + rewrite step_invalid by assumption. apply IH.
Qed.

Lemma fold_same_fields m' p1 p2 acc1 acc2 :
  map zone_fields p1 = map zone_fields p2 ->
  keys acc1 = keys acc2 ->
  keys (fold_left (build_zones_step m) p1 acc1) = keys (fold_left (build_zones_step m') p2 acc2).
Proof.
  revert p2 acc1 acc2. induction p1 as [|z1 p1 IH]; intros [|z2 p2] acc1 acc2;
    simpl; try discriminate; auto.
  intros [= Hz Hp] Hk. apply IH; auto.
  unfold build_zones_step. rewrite <- Hz.
  destruct (zone_fields z1) as [[raw_name state]|]; auto.
  now rewrite !keys_set, Hk.
Qed.

Lemma fold_keys payload acc k :
  In k (keys (fold_left (build_zones_step m) payload acc)) <->
  In k (keys acc) \/ exists z, In z payload /\ row_key z = Some k.
Proof.
  revert acc. induction payload as [|z payload IH]; intros acc; simpl.
  - split; [auto | intros [H|(z & [] & _)]; auto].
  - rewrite IH. destruct (row_key z) as [kz|] eqn:Hz.
    + destruct (step_valid acc z kz Hz) as (v & _ & ->).
      rewrite in_keys_set. split.
      * intros [[->|H]|(z' & Hin & Hk)]; eauto.
      * intros [H|(z' & [<-|Hin] & Hk)]; eauto.
        left. left. congruence.
    + rewrite step_invalid.
      2:{ destruct (valid_row z) eqn:Hv; auto.
          apply row_key_valid in Hv. destruct Hv. congruence. }
      split.
      * intros [H|(z' & Hin & Hk)]; eauto.
      * intros [H|(z' & [<-|Hin] & Hk)]; eauto. congruence.
Qed.

Lemma fold_built payload acc :
  Forall (built_entry m) acc -> NoDup (keys acc) ->
  Forall (built_entry m) (fold_left (build_zones_step m) payload acc)
  /\ NoDup (keys (fold_left (build_zones_step m) payload acc)).
Proof.
  revert acc. induction payload as [|z payload IH]; intros acc Hb Hnd; simpl.
  - auto.
  - apply IH.
    + unfold build_zones_step.
      destruct (zone_fields z) as [[raw_name state]|]; auto.
      apply Forall_forall. intros kv Hin. apply in_set in Hin.
      destruct Hin as [->|Hin].
      * exists raw_name, state. auto.
      * rewrite Forall_forall in Hb. auto.
    + unfold build_zones_step.
      destruct (zone_fields z) as [[raw_name state]|]; auto.
      now apply NoDup_keys_set.
Qed.

Lemma fold_get_untouched k post acc :
  (forall z, In z post -> has_key k z = false) ->
  get k (fold_left (build_zones_step m) post acc) = get k acc.
Proof.
  revert acc. induction post as [|z post IH]; intros acc Hpost; simpl.
  - reflexivity.
  - rewrite IH by (intros; apply Hpost; now right).
    assert (Hz : has_key k z = false) by (apply Hpost; now left).
    destruct (row_key z) as [kz|] eqn:Hk.
    + destruct (step_valid acc z kz Hk) as (v & _ & ->).
      apply get_set_other. intros ->.
      apply has_key_true in Hk. congruence.
    + rewrite step_invalid; auto.
      destruct (valid_row z) eqn:Hv; auto.
      apply row_key_valid in Hv. destruct Hv. congruence.
Qed.

Lemma fold_rebuild d1 d2 :
  Forall (built_entry m) d2 -> NoDup (keys (d1 ++ d2)%list) ->
  fold_left (build_zones_step m) (values d2) d1 = (d1 ++ d2)%list.
Proof.
  revert d1. induction d2 as [|[k v] d2 IH]; intros d1 Hb Hnd; simpl.
  - now rewrite app_nil_r.
  - inversion Hb as [|? ? (raw_name & state & Hk & Hv) Hb']; subst.
    simpl in Hk, Hv. subst k v.
    unfold build_zones_step at 2. rewrite zone_fields_record.
    unfold keys in Hnd. rewrite map_app in Hnd. simpl in Hnd.
    rewrite set_fresh.
    2:{ apply NoDup_remove_2 in Hnd. rewrite in_app_iff in Hnd. tauto. }
    rewrite IH; auto.
    + now rewrite <- app_assoc.
    + unfold keys. rewrite <- app_assoc, map_app. simpl. exact Hnd.
Qed.

End BuildZones.

Lemma build_zones_dict_built payload name_map :
  Forall (built_entry (match name_map with Some m => m | None => [] end))
    (build_zones_dict payload name_map)
  /\ NoDup (keys (build_zones_dict payload name_map)).
Proof. unfold build_zones_dict. apply fold_built; constructor. Qed.

Lemma built_entry_record m kv : built_entry m kv -> is_zone_record (snd kv).
Proof. intros (raw_name & state & _ & ->). red. eauto. Qed.

Lemma build_zones_dict_records payload name_map :
  Forall is_zone_record (values (build_zones_dict payload name_map)).
Proof.
  unfold values. apply Forall_map.
  eapply Forall_impl; [|apply build_zones_dict_built].
  intros kv. apply built_entry_record.
Qed.

(** C8, as the code has it: [build_zones_dict] ingests exactly the rows that
    are dicts with a string [name] and a string [state] and drops every
    other row (a row that is not a dict, or whose name or state is missing
    or not a string); a row whose name is the empty string is a valid row
    and is kept. It is idempotent: rebuilding from the enriched output
    gives the same mapping, and rebuilding from any rows that carry the
    output's raw name and state fields, under any name map, gives the same
    keys in the same order. *)
Theorem build_zones_dict_drops_invalid_and_is_idempotent :
  forall (payload : list value) (name_map name_map' : option (dict string)),
    (forall z, valid_row z = true <->
       exists zd raw_name state,
         z = VDict zd /\ get "name" zd = Some (VStr raw_name)
         /\ get "state" zd = Some (VStr state)) /\
    build_zones_dict payload name_map
      = build_zones_dict (filter valid_row payload) name_map /\
    (forall k, In k (keys (build_zones_dict payload name_map)) <->
       exists z, In z payload /\ valid_row z = true /\ row_key z = Some k) /\
    build_zones_dict (values (build_zones_dict payload name_map)) name_map
      = build_zones_dict payload name_map /\
    (forall rows,
       map zone_fields rows
         = map zone_fields (values (build_zones_dict payload name_map)) ->
       keys (build_zones_dict rows name_map')
         = keys (build_zones_dict payload name_map)).
Proof.
  intros payload name_map name_map'.
  destruct (build_zones_dict_built payload name_map) as [Hbuilt Hnd].
  assert (Hre : build_zones_dict (values (build_zones_dict payload name_map)) name_map
                = build_zones_dict payload name_map).
  { unfold build_zones_dict at 1. now rewrite fold_rebuild. }
  repeat split.
  - apply valid_row_spec.
  - apply valid_row_spec.
  - unfold build_zones_dict. apply fold_filter_valid.
  - unfold build_zones_dict. rewrite fold_keys. simpl.
    intros [[]|(z & Hin & Hk)]. exists z. repeat split; auto.
    apply row_key_valid. eauto.
  - intros (z & Hin & _ & Hk). unfold build_zones_dict. rewrite fold_keys. eauto.
  - exact Hre.
  - intros rows Hrows. rewrite <- Hre.
    set (out := build_zones_dict payload name_map) in *.
    unfold build_zones_dict. symmetry. now apply fold_same_fields.
Qed.

(** C8 as stated fails: a row whose name is the empty string is not
    dropped, it is stored under the empty key. *)
Lemma build_zones_dict_keeps_empty_name :
  build_zones_dict [Demo.zone "" "open"] None = [("", zone_record "" "" "open")]
  /\ build_zones_dict [Demo.zone "" "open"] None <> build_zones_dict [] None.
Proof. split; [reflexivity | discriminate]. Qed.

(** C9: when several valid rows normalize to the same key, the mapping
    holds that key once, with the record of the last such row. *)
Theorem build_zones_dict_last_row_wins :
  forall (name_map : option (dict string)) (pre post : list value)
         (z : value) (k : string),
    row_key z = Some k ->
    (forall z', In z' post -> has_key k z' = false) ->
    let out := build_zones_dict (pre ++ z :: post) name_map in
    let m := match name_map with Some m => m | None => [] end in
    get k out = row_record m z /\
    (forall v, In (k, v) out <-> Some v = row_record m z) /\
    count_occ string_dec (keys out) k = 1%nat.
Proof.
  intros name_map pre post z k Hz Hpost out m.
  assert (Hget : get k out = row_record m z).
  { subst out. unfold build_zones_dict. fold m.
    rewrite fold_left_app. simpl. rewrite fold_get_untouched by assumption.
    destruct (step_valid m (fold_left (build_zones_step m) pre []) z k Hz)
      as (v & -> & ->).
    apply get_set_same. }
  assert (Hnd : NoDup (keys out)) by apply build_zones_dict_built.
  split; [exact Hget|]. split.
  - intros v. rewrite in_get by assumption. rewrite Hget. split; congruence.
  - assert (Hin : In k (keys out)).
    { destruct (in_dec string_dec k (keys out)) as [H|H]; auto.
      apply get_none_iff in H. rewrite Hget in H.
      unfold row_record, row_key in *.
      destruct (zone_fields z) as [[? ?]|]; discriminate. }
    apply (NoDup_count_occ' string_dec) in Hin; auto.
Qed.

(** Two rows, ["A b"] and ["A.b"], share the key ["A_b"]: the second wins. *)
Lemma build_zones_dict_last_row_wins_witness :
  get "A_b" (build_zones_dict ([Demo.zone "A b" "open"] ++ Demo.zone "A.b" "closed" :: [])
               None)
  = Some (zone_record "A.b" "A b" "closed").
Proof.
  refine (proj1 (build_zones_dict_last_row_wins None [Demo.zone "A b" "open"] []
                   (Demo.zone "A.b" "closed") "A_b" _ _)).
  - reflexivity.
  - intros z' [].
Defined.

(** ** Invariants of monadic code *)

Section Keeps.
Context {S : Type} (I : S -> Prop).

Lemma keeps_ret {E A} (Q : A -> Prop) (a : A) :
  Q a -> keeps I Q (ret (E := E) a).
Proof. intros Ha s Hs. split; [exact Hs | now intros ? [= <-]]. Qed.

Lemma keeps_raise {E A} (Q : A -> Prop) (e : E) : keeps I Q (raise (A := A) e).
Proof. intros s Hs. split; [exact Hs | discriminate]. Qed.

Lemma keeps_bind {E A B} (Q : A -> Prop) (R : B -> Prop)
      (m : M S E A) (k : A -> M S E B) :
  keeps I Q m -> (forall a, Q a -> keeps I R (k a)) -> keeps I R (bind m k).
Proof.
  intros Hm Hk s Hs. unfold bind. specialize (Hm s Hs).
  destruct (m s) as [s' [a|e]]; simpl in *.
  - destruct Hm as [Hs' Ha]. apply Hk; auto.
  - split; [tauto | discriminate].
Qed.

Lemma keeps_try_except {E E' A} (Q : A -> Prop)
      (m : M S E A) (h : E -> M S E' A) :
  keeps I Q m -> (forall e, keeps I Q (h e)) -> keeps I Q (try_except m h).
Proof.
  intros Hm Hh s Hs. unfold try_except. specialize (Hm s Hs).
  destruct (m s) as [s' [a|e]]; simpl in *.
  - destruct Hm as [Hs' Ha]. split; [exact Hs' | now intros ? [= <-]; auto].
  - apply Hh. tauto.
Qed.

Lemma keeps_map_exn {E E' A} (Q : A -> Prop) (f : E -> E') (m : M S E A) :
  keeps I Q m -> keeps I Q (map_exn f m).
Proof. intros Hm. apply keeps_try_except; auto. intros e. apply keeps_raise. Qed.

Lemma keeps_gets {E A} (Q : A -> Prop) (f : S -> A) :
  (forall s, I s -> Q (f s)) -> keeps I Q (gets (E := E) f).
Proof. intros Hf s Hs. split; [exact Hs | intros ? [= <-]; auto]. Qed.

Lemma keeps_modify {E} (f : S -> S) :
  (forall s, I s -> I (f s)) -> keeps I (fun _ => True) (modify (E := E) f).
Proof. intros Hf s Hs. split; [now apply Hf | auto]. Qed.

Lemma keeps_weaken {E A} (Q Q' : A -> Prop) (m : M S E A) :
  (forall a, Q a -> Q' a) -> keeps I Q m -> keeps I Q' m.
Proof. intros HQ Hm s Hs. destruct (Hm s Hs). split; auto. Qed.

End Keeps.

(** ** Invariants of the coordinator *)

Lemma carried_zones (d : SecvestData) :
  match zones d with [] => [] | _ :: _ => zones d end = zones d.
Proof. now destruct (zones d). Qed.

Section CoordinatorInvariant.
Context (w : World).
Context (inv : SecvestCoordinator -> Prop) (ok : SecvestData -> Prop).
Hypothesis inv_zones_tick : forall v c, inv c -> inv (set_zones_tick v c).
Hypothesis inv_failures : forall v c, inv c -> inv (set_consecutive_failures v c).
Hypothesis inv_breaker_until : forall v c, inv c -> inv (set_breaker_until v c).
Hypothesis inv_last_error : forall v c, inv c -> inv (set_last_error v c).
Hypothesis inv_publish : forall d c, inv c -> ok d -> inv (set_data (Some d) c).
Hypothesis ok_carried :
  forall c d rm hm av le,
    inv c -> data c = Some d -> ok (_compose_data rm hm (zones d) av le).
Hypothesis ok_built :
  forall rm hm payload name_map av le,
    ok (_compose_data rm hm (build_zones_dict payload name_map) av le).
Hypothesis ok_empty : forall rm hm av le, ok (_compose_data rm hm [] av le).

Lemma keeps_on_io {E A} (m : M IO E A) : keeps (holds inv) any (on_io m).
Proof.
  intros h Hh. unfold on_io. destruct (m (io h)) as [io' r]. simpl.
  split; [exact Hh | exact (fun _ _ => Logic.I)].
Qed.

Lemma keeps_self_get {E A} (Q : A -> Prop) (f : SecvestCoordinator -> A) :
  (forall c, inv c -> Q (f c)) -> keeps (holds inv) Q (self_get (E := E) f).
Proof. intros Hf. apply keeps_gets. intros h Hh. now apply Hf. Qed.

Lemma keeps_self_get_any {E A} (f : SecvestCoordinator -> A) :
  keeps (holds inv) any (self_get (E := E) f).
Proof. apply keeps_self_get. intros; exact Logic.I. Qed.

Lemma keeps_self_set {E} (f : SecvestCoordinator -> SecvestCoordinator) :
  (forall c, inv c -> inv (f c)) -> keeps (holds inv) any (self_set (E := E) f).
Proof. intros Hf. apply keeps_modify. intros h Hh. now apply Hf. Qed.

Lemma keeps_call_api {A} (op : World -> SecvestApi -> M IO exn A) :
  keeps (holds inv) any (call_api w op).
Proof.
  unfold call_api. eapply keeps_bind; [apply keeps_self_get_any|].
  intros a _. apply keeps_on_io.
Qed.

Lemma keeps_debouncer_set {E} (d : Debouncer) :
  keeps (holds inv) any (debouncer_set (E := E) d).
Proof. apply keeps_modify. intros h Hh. exact Hh. Qed.

Lemma keeps_store {E} (d : SecvestData) :
  ok d -> keeps (holds inv) any (self_set (E := E) (set_data (Some d))).
Proof. intros Hd. apply keeps_self_set. intros c Hc. now apply inv_publish. Qed.

Lemma keeps_publish {E} (d : SecvestData) :
  ok d -> keeps (holds inv) any (async_set_updated_data (E := E) d).
Proof.
  intros Hd. unfold async_set_updated_data.
  eapply keeps_bind; [apply keeps_debouncer_set|].
  intros _ _. now apply keeps_store.
Qed.

Lemma keeps_get_data {E} : keeps (holds inv) (carried_ok ok) (self_get (E := E) data).
Proof.
  apply keeps_self_get. intros c Hc x rm hm av le Hx. eapply ok_carried; eauto.
Qed.

Ltac step :=
  first
    [ eapply keeps_bind; [apply keeps_call_api | intros ? _]
    | eapply keeps_bind; [apply keeps_get_data | intros ? ?]
    | eapply keeps_bind; [apply keeps_self_get_any | intros ? _]
    | eapply keeps_bind; [apply keeps_on_io | intros ? _]
    | eapply keeps_bind; [apply keeps_self_set; now auto | intros ? _] ].

Lemma keeps_async_refresh_zones_now :
  keeps (holds inv) any (async_refresh_zones_now w).
Proof.
  unfold async_refresh_zones_now. repeat step.
  apply keeps_publish.
  match goal with H : carried_ok _ ?d |- _ => destruct d as [x|] end; auto.
Qed.

Lemma keeps_poll : keeps (holds inv) ok (poll w).
Proof.
  unfold poll. repeat step.
  match goal with H : carried_ok _ ?d |- _ => rename H into Hd; destruct d as [x|] end.
  - rewrite carried_zones.
    eapply keeps_bind with (Q := fun zs => forall rm hm av le, ok (_compose_data rm hm zs av le)).
    + destruct (_ <=? _).
      * repeat step. apply keeps_ret. intros; apply ok_built.
      * apply keeps_ret. intros. now apply Hd.
    + intros zs Hzs. repeat step. apply keeps_ret. apply Hzs.
  - eapply keeps_bind with (Q := fun zs => forall rm hm av le, ok (_compose_data rm hm zs av le)).
    + destruct (_ <=? _).
      * repeat step. apply keeps_ret. intros; apply ok_built.
      * apply keeps_ret. intros. apply ok_empty.
    + intros zs Hzs. repeat step. apply keeps_ret. apply Hzs.
Qed.

Lemma keeps_trip_breaker {E} : keeps (holds inv) any (trip_breaker (E := E) w).
Proof.
  unfold trip_breaker. repeat step. destruct (_ <=? _).
  - repeat step. apply keeps_self_set. auto.
  - now apply keeps_ret.
Qed.

Lemma keeps_degraded_or_fail : keeps (holds inv) ok degraded_or_fail.
Proof.
  unfold degraded_or_fail. repeat step.
  match goal with H : carried_ok _ ?d |- _ => rename H into Hd; destruct d as [x|] end.
  - apply keeps_ret. now apply Hd.
  - apply keeps_raise.
Qed.

Lemma keeps_except_timeout_or_api err :
  keeps (holds inv) ok (except_timeout_or_api w err).
Proof.
  unfold except_timeout_or_api. repeat step.
  eapply keeps_bind; [apply keeps_trip_breaker | intros ? _].
  apply keeps_degraded_or_fail.
Qed.

Lemma keeps_except_exception err : keeps (holds inv) ok (except_exception w err).
Proof.
  unfold except_exception. repeat step.
  eapply keeps_bind; [apply keeps_trip_breaker | intros ? _].
  apply keeps_degraded_or_fail.
Qed.

Lemma keeps__async_update_data : keeps (holds inv) ok (_async_update_data w).
Proof.
  unfold _async_update_data. repeat step. destruct (Qlt_bool _ _).
  - repeat step.
    match goal with H : carried_ok _ ?d |- _ => rename H into Hd; destruct d as [x|] end.
    + repeat step. apply keeps_ret. now apply Hd.
    + apply keeps_raise.
  - apply keeps_try_except; [apply keeps_poll|].
    intros err. destruct (is_timeout_or_api err).
    + apply keeps_except_timeout_or_api.
    + apply keeps_except_exception.
Qed.

Lemma keeps_async_refresh {E} : keeps (holds inv) any (async_refresh (E := E) w).
Proof.
  unfold async_refresh.
  eapply keeps_bind; [apply keeps_debouncer_set|]. intros _ _.
  apply keeps_try_except.
  - eapply keeps_bind; [apply keeps__async_update_data|].
    intros d Hd. now apply keeps_store.
  - intros e. now apply keeps_ret.
Qed.

Lemma keeps_async_request_refresh {E} :
  keeps (holds inv) any (async_request_refresh (E := E) w).
Proof.
  unfold async_request_refresh.
  eapply keeps_bind with (Q := any); [now apply keeps_gets|].
  intros d _. destruct (_timer_task d); [apply keeps_debouncer_set|].
  eapply keeps_bind; [apply keeps_async_refresh|].
  intros _ _. apply keeps_debouncer_set.
Qed.

Lemma keeps_debouncer_timer_finish {E} :
  keeps (holds inv) any (debouncer_timer_finish (E := E) w).
Proof.
  unfold debouncer_timer_finish.
  eapply keeps_bind with (Q := any); [now apply keeps_gets|].
  intros d _. destruct (_timer_task d); [|now apply keeps_ret].
  destruct (_execute_at_end_of_timer d); [|apply keeps_debouncer_set].
  eapply keeps_bind; [apply keeps_debouncer_set|]. intros _ _.
  eapply keeps_bind; [apply keeps_async_refresh|].
  intros _ _. apply keeps_debouncer_set.
Qed.

Lemma keeps__set_mode mode : keeps (holds inv) any (_set_mode w mode).
Proof.
  unfold _set_mode. apply keeps_try_except.
  - repeat step. apply keeps_async_request_refresh.
  - intros [[]|]; apply keeps_raise.
Qed.

Lemma keeps__arm_with_live_zone_refresh mode :
  keeps (holds inv) any (_arm_with_live_zone_refresh w mode).
Proof.
  unfold _arm_with_live_zone_refresh.
  eapply keeps_bind.
  { apply keeps_try_except; [apply keeps_async_refresh_zones_now|].
    intros e. now apply keeps_ret. }
  intros _ _. repeat step.
  match goal with |- keeps _ _ (match ?d with _ => _ end) => destruct d as [x|] end.
  - destruct (nonempty _); [apply keeps_raise | apply keeps__set_mode].
  - apply keeps__set_mode.
Qed.

Lemma keeps_handle_set_mode mode : keeps (holds inv) any (handle_set_mode w mode).
Proof.
  unfold handle_set_mode. destruct mode as [m|]; [|apply keeps_raise].
  destruct (negb _); [apply keeps_raise|].
  eapply keeps_bind.
  { apply keeps_map_exn. apply keeps_async_refresh_zones_now. }
  intros _ _. repeat step.
  match goal with |- keeps _ _ (match ?d with _ => _ end) => destruct d as [x|] end;
    [|apply keeps_raise].
  destruct (_ && _); [apply keeps_raise|].
  eapply keeps_bind.
  { apply keeps_try_except; [apply keeps_call_api|].
    intros [[]|]; apply keeps_raise. }
  intros _ _. apply keeps_async_request_refresh.
Qed.

Lemma holds_run op h : (holds inv) h -> (holds inv) (run w op h).
Proof.
  intros Hh. destruct op; simpl.
  - now apply keeps_async_refresh.
  - now apply (keeps_async_request_refresh (E := exn)).
  - now apply keeps_async_refresh_zones_now.
  - now apply keeps_handle_set_mode.
  - now apply keeps__arm_with_live_zone_refresh.
  - now apply keeps__arm_with_live_zone_refresh.
  - now apply keeps__set_mode.
  - now apply (keeps_debouncer_timer_finish (E := exn)).
Qed.

End CoordinatorInvariant.

(** ** Snapshot consistency *)

Lemma zone_record_open raw_name friendly state :
  open_friendly_name (zone_record raw_name friendly state)
  = if String.eqb state "open" then Some friendly else None.
Proof. reflexivity. Qed.

Lemma open_names_of_records (vs : list value) :
  Forall is_zone_record vs ->
  map Some (filter_map open_friendly_name vs)
  = map friendly_name (filter state_is_open vs).
Proof.
  induction 1 as [|z vs (raw_name & friendly & state & ->) _ IH]; simpl.
  - reflexivity.
  - destruct (String.eqb state "open"); simpl; now rewrite IH.
Qed.

Lemma compose_consistent rm hm zs av le :
  Forall is_zone_record (values zs) ->
  consistent (_compose_data rm hm zs av le).
Proof.
  intros Hzs. unfold consistent. simpl. repeat split.
  now apply open_names_of_records.
Qed.

Lemma compose_composed rm hm zs av le :
  Forall is_zone_record (values zs) ->
  composed (_compose_data rm hm zs av le).
Proof. intros Hzs. split; [exact Hzs | reflexivity]. Qed.

Lemma composed_consistent d : composed d -> consistent d.
Proof. intros [Hzs ->]. now apply compose_consistent. Qed.

Lemma data_composed_publish d c :
  data_composed c -> composed d -> data_composed (set_data (Some d) c).
Proof. intros _ Hd x [= <-]. exact Hd. Qed.

Lemma data_composed_carried c d rm hm av le :
  data_composed c -> data c = Some d ->
  composed (_compose_data rm hm (zones d) av le).
Proof. intros Hc Hd. apply compose_composed. now destruct (Hc d Hd). Qed.

Lemma composed_built rm hm payload name_map av le :
  composed (_compose_data rm hm (build_zones_dict payload name_map) av le).
Proof. apply compose_composed, build_zones_dict_records. Qed.

Lemma composed_empty rm hm av le : composed (_compose_data rm hm [] av le).
Proof. apply compose_composed. constructor. Qed.

Lemma data_composed_run w op h :
  holds data_composed h -> holds data_composed (run w op h).
Proof.
  apply holds_run with (ok := composed);
    try (intros v c Hc; exact Hc);
    first [ exact data_composed_publish | exact data_composed_carried
          | exact composed_built | exact composed_empty ].
Qed.

Lemma data_composed_tick w :
  keeps (holds data_composed) composed (_async_update_data w).
Proof.
  apply keeps__async_update_data;
    try (intros v c Hc; exact Hc);
    first [ exact data_composed_carried | exact composed_built
          | exact composed_empty ].
Qed.

Lemma reachable_composed w h : reachable w h -> holds data_composed h.
Proof.
  induction 1 as [|op h _ IH].
  - intros d [=].
  - now apply data_composed_run.
Qed.

(** C6: every snapshot the coordinator publishes is internally consistent.
    Whatever [_compose_data] builds over zone records has [open_zone_names]
    equal to the friendly names of the zones whose state is ["open"], in the
    order of the mapping, and the two renderings derived from that list;
    the snapshot held by any reachable coordinator, and the one a tick
    returns from a reachable state, are built that way. *)
Theorem published_snapshot_is_consistent :
  forall (w : World) (h : Hass),
    reachable w h ->
    (forall d, data (coordinator h) = Some d -> consistent d) /\
    (forall d, snd (_async_update_data w h) = Ok d -> consistent d) /\
    (forall d, data (coordinator h) = Some d ->
       d = _compose_data (raw_mode d) (human_mode d) (zones d)
             (available d) (last_error d)).
Proof.
  intros w h Hr. pose proof (reachable_composed w h Hr) as Hc.
  split; [|split].
  - intros d Hd. apply composed_consistent. now apply Hc.
  - intros d Hd. apply composed_consistent.
    now apply (data_composed_tick w h Hc).
  - intros d Hd. now destruct (Hc d Hd).
Qed.

(** After a forced refresh against a panel reporting one open and one
    closed zone, the snapshot lists exactly the open one. *)
Lemma published_snapshot_is_consistent_witness :
  data (coordinator (run Demo.two_zones RefreshZonesNow Demo.fresh))
    = Some Demo.two_zones_snapshot
  /\ open_zone_names Demo.two_zones_snapshot = ["Haus Tuer"]
  /\ consistent Demo.two_zones_snapshot.
Proof.
  assert (Hd : data (coordinator (run Demo.two_zones RefreshZonesNow Demo.fresh))
               = Some Demo.two_zones_snapshot) by (vm_compute; reflexivity).
  split; [exact Hd|]. split; [vm_compute; reflexivity|].
  refine (proj1 (published_snapshot_is_consistent Demo.two_zones
                   (run Demo.two_zones RefreshZonesNow Demo.fresh) _) _ Hd).
  apply reachable_step. apply reachable_init.
Defined.

(** ** Breaker configuration *)

Lemma breaker_config_run w op h :
  _breaker_threshold (coordinator (run w op h)) = _breaker_threshold (coordinator h)
  /\ _breaker_cooldown (coordinator (run w op h)) = _breaker_cooldown (coordinator h).
Proof.
  apply (holds_run w
           (fun c => _breaker_threshold c = _breaker_threshold (coordinator h)
                     /\ _breaker_cooldown c = _breaker_cooldown (coordinator h))
           (fun _ => True));
    try (intros v c Hc; exact Hc); auto.
  split; reflexivity.
Qed.

(** C10: whatever is configured, the constructor sets a breaker threshold of
    at least 1 and a cooldown of at least 10 seconds, no coordinator
    operation changes either, and so both bounds hold in every reachable
    state. *)
Theorem breaker_bounds_are_invariant :
  (forall a scan_interval_s name_map zones_interval_s breaker_threshold breaker_cooldown,
      let c := SecvestCoordinator_init a scan_interval_s name_map zones_interval_s
                 breaker_threshold breaker_cooldown in
      1 <= _breaker_threshold c /\ 10 <= _breaker_cooldown c) /\
  (forall w op h,
      _breaker_threshold (coordinator (run w op h))
        = _breaker_threshold (coordinator h) /\
      _breaker_cooldown (coordinator (run w op h))
        = _breaker_cooldown (coordinator h)) /\
  (forall w h,
      reachable w h ->
      1 <= _breaker_threshold (coordinator h) /\
      10 <= _breaker_cooldown (coordinator h)).
Proof.
  split; [|split].
  - intros; simpl; lia.
  - apply breaker_config_run.
  - intros w h Hr. induction Hr as [|op h _ IH].
    + simpl; lia.
    + destruct (breaker_config_run w op h) as [-> ->]. exact IH.
Qed.

(** A coordinator configured with threshold 0 and cooldown -5 runs with 1
    and 10, also after a tick. *)
Lemma breaker_bounds_are_invariant_witness :
  1 <= _breaker_threshold (coordinator (run Demo.two_zones ScheduledTick Demo.misconfigured))
  /\ 10 <= _breaker_cooldown (coordinator (run Demo.two_zones ScheduledTick Demo.misconfigured)).
Proof.
  apply (proj2 (proj2 breaker_bounds_are_invariant) Demo.two_zones).
  apply reachable_step. apply reachable_init.
Defined.

(** ** The Device Client *)

Lemma trace_grows_refl t method io : trace io = t -> trace_grows t method io.
Proof. intros <-. exists []. split; [now rewrite app_nil_r | constructor]. Qed.

Lemma trace_grows_snoc t method io io' ev :
  trace_grows t method io ->
  trace io' = (trace io ++ [ev])%list ->
  match ev with EvRequest _ rq _ => rq_method rq = method | EvSleep _ => True end ->
  trace_grows t method io'.
Proof.
  intros (evs & Ht & Hevs) Hio' Hev. exists (evs ++ [ev])%list. split.
  - now rewrite Hio', Ht, app_assoc.
  - apply Forall_app. split; auto.
Qed.

Lemma trace_grows_same t method io io' :
  trace_grows t method io -> trace io' = trace io -> trace_grows t method io'.
Proof. intros (evs & Ht & Hevs) Hio'. exists evs. split; congruence. Qed.

Section ClientTrace.
Context (w : World) (self : SecvestApi) (t : list event) (method : string).

Lemma keeps_session_request {E} attempt url json_payload :
  keeps (trace_grows t method) any
    (session_request (E := E) w attempt
       {| rq_method := method; rq_url := url; rq_json := json_payload |}).
Proof.
  intros io Hio. split; [|exact (fun _ _ => I)].
  eapply trace_grows_snoc; eauto; reflexivity.
Qed.

Lemma keeps_random_random {E} :
  keeps (trace_grows t method) any (random_random (E := E) w).
Proof.
  intros io Hio. split; [|exact (fun _ _ => I)].
  eapply trace_grows_same; eauto.
Qed.

Lemma keeps_asyncio_sleep {E} seconds :
  keeps (trace_grows t method) any (asyncio_sleep (E := E) seconds).
Proof.
  intros io Hio. split; [|exact (fun _ _ => I)].
  eapply trace_grows_snoc; eauto; [reflexivity | exact I].
Qed.

Lemma keeps_time_time {E} :
  keeps (trace_grows t method) any (time_time (E := E) w).
Proof.
  intros io Hio. split; [|exact (fun _ _ => I)].
  eapply trace_grows_same; eauto.
Qed.

Lemma keeps_resp_text b : keeps (trace_grows t method) any (resp_text b).
Proof. destruct b; [now apply keeps_ret | apply keeps_raise]. Qed.

Lemma keeps__read_json status b :
  keeps (trace_grows t method) any (_read_json status b).
Proof.
  unfold _read_json. eapply keeps_bind; [apply keeps_resp_text|].
  intros text _. destruct b as [? [v|]|]; try apply keeps_raise.
  now apply keeps_ret.
Qed.

Context (paths_list : list string) (json_payload : option value)
        (expect_json : bool).

Lemma keeps_on_response url o :
  keeps (trace_grows t method) any
    (on_response paths_list expect_json url o).
Proof.
  unfold on_response. destruct o as [e|status b]; [apply keeps_raise|].
  repeat match goal with
         | |- keeps _ _ (if ?c then _ else _) => destruct c
         end;
    try apply keeps_raise; try (now apply keeps_ret);
    (eapply keeps_bind;
     [first [apply keeps_resp_text | apply keeps__read_json]|]);
    intros ? _; try apply keeps_raise; now apply keeps_ret.
Qed.

Lemma keeps_try_path attempt url :
  keeps (trace_grows t method) any
    (try_path w method paths_list json_payload expect_json attempt url).
Proof.
  unfold try_path. eapply keeps_bind; [apply keeps_session_request|].
  intros o _. apply keeps_on_response.
Qed.

Lemma keeps_except_path attempt url e :
  keeps (trace_grows t method) any (except_path w attempt url e).
Proof.
  unfold except_path, _backoff. destruct e as [ce|m]; [|apply keeps_raise].
  destruct (is_transient ce); [|apply keeps_raise].
  eapply keeps_bind.
  { destruct (backoff_base attempt) as [base|]; [|apply keeps_raise].
    eapply keeps_bind; [apply keeps_random_random|].
    intros r _. now apply keeps_ret with (Q := any). }
  intros seconds _.
  eapply keeps_bind; [apply keeps_asyncio_sleep|].
  intros _ _. now apply keeps_ret.
Qed.

Lemma keeps_for_path attempt paths :
  keeps (trace_grows t method) any
    (for_path w self method paths_list json_payload expect_json attempt paths).
Proof.
  induction paths as [|path rest IH]; simpl.
  - now apply keeps_ret.
  - eapply keeps_bind.
    + apply keeps_try_except with (Q := any);
        [apply keeps_try_path | apply keeps_except_path].
    + intros [| |] _; auto; now apply keeps_ret.
Qed.

Lemma keeps_for_attempt attempts last_exc :
  keeps (trace_grows t method) any
    (for_attempt w self method paths_list json_payload expect_json
       attempts last_exc).
Proof.
  revert last_exc. induction attempts as [|attempt rest IH]; intros last_exc; simpl.
  - apply keeps_raise.
  - eapply keeps_bind; [apply keeps_for_path|].
    intros [| |] _; auto. now apply keeps_ret.
Qed.

Lemma keeps__request_json :
  keeps (trace_grows t method) any
    (_request_json w self method paths_list json_payload expect_json).
Proof. apply keeps_for_attempt. Qed.

End ClientTrace.

Lemma keeps_get_zones w self t :
  keeps (trace_grows t "GET") any (get_zones w self).
Proof.
  unfold get_zones. eapply keeps_bind; [apply keeps__request_json|].
  intros data _. destruct data; try apply keeps_raise. now apply keeps_ret.
Qed.

Lemma get_zones_trace w self io :
  trace_grows (trace io) "GET" (fst (get_zones w self io)).
Proof. apply keeps_get_zones. now apply trace_grows_refl. Qed.

Section ClientRequest.
Context (w : World) (self : SecvestApi) (method : string)
        (paths_list : list string) (json_payload : option value)
        (expect_json : bool).

(** One iteration of the path loop: the request, then the [async with]
    body and the handlers on its outcome. *)
Lemma for_path_cons attempt path rest io :
  let rq := request_for self method json_payload path in
  let o := http w (requests_made io) rq in
  for_path w self method paths_list json_payload expect_json attempt
    (path :: rest) io
  = (r <- try_except (on_response paths_list expect_json (_url self path) o)
            (except_path w attempt (_url self path));;
     match r with
     | NextPath =>
         for_path w self method paths_list json_payload expect_json attempt rest
     | Returned v => ret (Finished v)
     | NextAttempt e => ret (Broke e)
     end) (after_request io attempt rq o).
Proof. reflexivity. Qed.

Lemma for_path_not_found attempt path rest io b :
  (1 < length paths_list)%nat ->
  http w (requests_made io) (request_for self method json_payload path)
    = Responds 404 b ->
  for_path w self method paths_list json_payload expect_json attempt
    (path :: rest) io
  = for_path w self method paths_list json_payload expect_json attempt rest
      (after_request io attempt (request_for self method json_payload path)
         (Responds 404 b)).
Proof.
  intros Hlen Ho. rewrite for_path_cons. cbv zeta. rewrite Ho.
  apply Nat.ltb_lt in Hlen.
  unfold bind, try_except, on_response. rewrite Hlen. reflexivity.
Qed.

Lemma for_path_first_request attempt path rest io :
  let rq := request_for self method json_payload path in
  trace_grows
    (trace io ++ [EvRequest attempt rq (http w (requests_made io) rq)])
    method
    (fst (for_path w self method paths_list json_payload expect_json attempt
            (path :: rest) io)).
Proof.
  intros rq. rewrite for_path_cons. cbv zeta. fold rq.
  set (o := http w (requests_made io) rq).
  set (io1 := after_request io attempt rq o).
  assert (H1 : trace_grows (trace io1) method io1) by now apply trace_grows_refl.
  apply (keeps_bind (trace_grows (trace io1) method) any any); auto.
  - apply keeps_try_except; [apply keeps_on_response|].
    intros e. apply keeps_except_path.
  - intros [| |] _; try (now apply keeps_ret). apply keeps_for_path.
Qed.

End ClientRequest.

(** ** The backoff *)

Lemma float_eqb_eq (x y : Float.float) : Float.eqb x y = true -> x = y.
Proof.
  destruct x as [a|a| |a m e], y as [b|b| |b m' e']; simpl; try discriminate.
  - intros H. apply Bool.eqb_prop in H. now subst.
  - intros H. apply Bool.eqb_prop in H. now subst.
  - reflexivity.
  - intros H. apply andb_prop in H as [H He]. apply andb_prop in H as [Ha Hm].
    apply Bool.eqb_prop in Ha. apply Pos.eqb_eq in Hm. apply Z.eqb_eq in He.
    now subst.
Qed.

(** The two literals are the doubles nearest to 12/10 and 4/10. *)
Example backoff_literals :
  DEFAULT_BACKOFF_BASE_S = Float.div (Float.round 12 0) (Float.round 10 0)
  /\ DEFAULT_JITTER_S = Float.div (Float.round 4 0) (Float.round 10 0).
Proof. vm_compute. auto. Qed.

(** The conversion of an [int] overflows exactly where rounding to the
    nearest double would pass the largest one. *)
Example of_int_overflows_like_rounding :
  Float.of_int (2 ^ 1024 - 2 ^ 970) = None
  /\ Float.round (2 ^ 1024 - 2 ^ 970) 0 = S754_infinity false
  /\ Float.of_int (2 ^ 1024 - 2 ^ 970 - 1)
     = Some (S754_finite false 9007199254740991 971).
Proof. vm_compute. auto. Qed.

(** The 1024 products that do not overflow, computed one by one: each is
    exact. *)
Lemma backoff_base_values :
  forallb
    (fun i =>
       match backoff_base (1 + Z.of_nat i) with
       | Some base => Float.eqb base (scaled_base (1 + Z.of_nat i))
       | None => false
       end)
    (seq 0 1024) = true.
Proof. vm_compute. reflexivity. Qed.

Lemma backoff_base_ok attempt :
  1 <= attempt <= 1024 -> backoff_base attempt = Some (scaled_base attempt).
Proof.
  intros Ha.
  pose proof (proj1 (forallb_forall _ _) backoff_base_values
                (Z.to_nat (attempt - 1))) as H.
  cbv beta in H.
  replace (1 + Z.of_nat (Z.to_nat (attempt - 1))) with attempt in H by lia.
  assert (Hin : In (Z.to_nat (attempt - 1)) (seq 0 1024)).
  { apply in_seq. lia. }
  specialize (H Hin).
  destruct (backoff_base attempt) as [base|]; [|discriminate].
  now apply float_eqb_eq in H as ->.
Qed.

Lemma backoff_base_overflow attempt :
  1025 <= attempt -> backoff_base attempt = None.
Proof.
  intros Ha. unfold backoff_base, pow2.
  replace (0 <=? attempt - 1) with true by (symmetry; apply Z.leb_le; lia).
  unfold float_times, Float.of_int.
  assert (Hbig : 2 ^ 1024 <= 2 ^ (attempt - 1))
    by (apply Z.pow_le_mono_r; lia).
  assert (Hpos : 0 < 2 ^ 970) by (apply Z.pow_pos_nonneg; lia).
  set (top := 2 ^ 1024) in *. set (gap := 2 ^ 970) in *.
  set (p := 2 ^ (attempt - 1)) in *.
  replace (Z.abs p <? top - gap) with false; [reflexivity|].
  symmetry. apply Z.ltb_ge. rewrite Z.abs_eq by lia. lia.
Qed.

Lemma _backoff_ok w attempt io :
  1 <= attempt <= 1024 ->
  _backoff w attempt io
  = ({| trace := trace io;
        requests_made := requests_made io;
        randoms_drawn := S (randoms_drawn io);
        clock_reads := clock_reads io |},
     Ok (backoff_seconds attempt (random w (randoms_drawn io)))).
Proof.
  intros Ha. unfold _backoff. rewrite backoff_base_ok by assumption.
  reflexivity.
Qed.

Lemma _backoff_overflow w attempt io :
  1025 <= attempt -> _backoff w attempt io = (io, Raise (Client OverflowError)).
Proof.
  intros Ha. unfold _backoff. now rewrite backoff_base_overflow.
Qed.

Section ClientFailure.
Context (w : World) (self : SecvestApi) (method : string)
        (paths_list : list string) (json_payload : option value)
        (expect_json : bool).

Lemma body_failure_raises b e io :
  body_failure b = Some e ->
  resp_text b io = (io, Raise (Client e)) /\ is_transient e = true.
Proof.
  destruct b as [t p|ce]; simpl; [discriminate|].
  destruct (is_transient ce) eqn:Htr; [|discriminate].
  intros [= <-]. auto.
Qed.

(** A transport failure leaves the [async with] block as a transient
    exception. *)
Lemma on_response_transport_failure url o e io :
  transport_failure (1 <? length paths_list)%nat expect_json o = Some e ->
  on_response paths_list expect_json url o io = (io, Raise (Client e))
  /\ is_transient e = true.
Proof.
  destruct o as [ce|status b]; simpl.
  - destruct (is_transient ce) eqn:Htr; [|discriminate].
    intros [= <-]. auto.
  - destruct ((status =? 404) && (1 <? length paths_list)%nat); [discriminate|].
    destruct ((status =? 401) || (status =? 403)); [discriminate|].
    destruct (status =? 409) eqn:H409.
    + apply Z.eqb_eq in H409. subst status. cbn [Z.leb Z.compare andb].
      simpl. intros Hb. destruct (body_failure_raises b e io Hb) as [Hr Htr].
      unfold bind. rewrite Hr. auto.
    + destruct ((400 <=? status) && (status <=? 499)) eqn:H4.
      * intros Hb. destruct (body_failure_raises b e io Hb) as [Hr Htr].
        unfold bind. rewrite Hr. auto.
      * destruct ((500 <=? status) && (status <=? 599)) eqn:H5.
        -- apply andb_prop in H5 as [Hlo _]. apply Z.leb_le in Hlo.
           replace (400 <=? status) with true by (symmetry; apply Z.leb_le; lia).
           intros [= <-]. auto.
        -- destruct (400 <=? status); [intros [= <-]; auto|].
           destruct expect_json; [|discriminate]. simpl.
           intros Hb. destruct (body_failure_raises b e io Hb) as [Hr Htr].
           unfold _read_json, bind. rewrite Hr. auto.
Qed.

(** A transport failure ends the attempt: request, backoff sleep, break. *)
Lemma for_path_transport_failure attempt path rest io e :
  let rq := request_for self method json_payload path in
  let o := http w (requests_made io) rq in
  1 <= attempt <= 1024 ->
  transport_failure (1 <? length paths_list)%nat expect_json o = Some e ->
  for_path w self method paths_list json_payload expect_json attempt
    (path :: rest) io
  = (after_backoff w (after_request io attempt rq o) attempt, Ok (Broke e)).
Proof.
  intros rq o Ha Hf. rewrite for_path_cons. cbv zeta. fold rq. fold o.
  destruct (on_response_transport_failure (_url self path) o e
              (after_request io attempt rq o) Hf) as [Hr Htr].
  unfold bind at 1. unfold try_except. rewrite Hr.
  unfold except_path. rewrite Htr. unfold bind at 1 2.
  rewrite _backoff_ok by assumption.
  unfold asyncio_sleep, ret, after_backoff. reflexivity.
Qed.

(** From attempt 1025 on the backoff cannot be computed: the failed request
    is followed by an [OverflowError] that no handler catches. *)
Lemma for_path_transport_overflow attempt path rest io e :
  let rq := request_for self method json_payload path in
  let o := http w (requests_made io) rq in
  1025 <= attempt ->
  transport_failure (1 <? length paths_list)%nat expect_json o = Some e ->
  for_path w self method paths_list json_payload expect_json attempt
    (path :: rest) io
  = (after_request io attempt rq o, Raise (Client OverflowError)).
Proof.
  intros rq o Ha Hf. rewrite for_path_cons. cbv zeta. fold rq. fold o.
  destruct (on_response_transport_failure (_url self path) o e
              (after_request io attempt rq o) Hf) as [Hr Htr].
  unfold bind at 1. unfold try_except. rewrite Hr.
  unfold except_path. rewrite Htr. unfold bind at 1 2.
  now rewrite _backoff_overflow.
Qed.

End ClientFailure.

Lemma flat_map_seq_S {A} (f : nat -> list A) (n : nat) :
  flat_map f (seq 0 (S n)) = (f 0%nat ++ flat_map (fun i => f (S i)) (seq 0 n))%list.
Proof.
  cbn [seq flat_map]. f_equal.
  now rewrite <- seq_shift, flat_map_concat_map, map_map, <- flat_map_concat_map.
Qed.

Section FailedAttempts.
Context (w : World) (self : SecvestApi) (method : string)
        (path : string) (rest : list string) (json_payload : option value)
        (expect_json : bool).

(** The first [k] attempts, none later than attempt 1024, each meet a
    transport failure: each is a request and a backoff sleep, and the loop
    goes on with the later attempts. *)
Lemma for_attempt_failures_first (k first : nat) (io : IO)
      (last_exc : option client_exn) (later : list Z) :
  let rq := request_for self method json_payload path in
  let failure n :=
    transport_failure (1 <? length (path :: rest))%nat expect_json
      (http w n rq) in
  (first + k <= 1024)%nat ->
  (forall i, (i < k)%nat -> failure (requests_made io + i)%nat <> None) ->
  for_attempt w self method (path :: rest) json_payload expect_json
    (map (fun i => 1 + Z.of_nat i) (seq first k) ++ later) last_exc io
  = for_attempt w self method (path :: rest) json_payload expect_json later
      match k with
      | O => last_exc
      | S j => failure (requests_made io + j)%nat
      end
      {| trace :=
           trace io
           ++ flat_map
                (fun i =>
                   [EvRequest (1 + Z.of_nat (first + i)) rq
                      (http w (requests_made io + i) rq);
                    EvSleep (backoff_seconds (1 + Z.of_nat (first + i))
                               (random w (randoms_drawn io + i)))])
                (seq 0 k);
         requests_made := requests_made io + k;
         randoms_drawn := randoms_drawn io + k;
         clock_reads := clock_reads io |}.
Proof.
  intros rq failure. revert first io last_exc.
  induction k as [|k IH]; intros first io last_exc Hlast Hfail.
  - simpl. rewrite app_nil_r, !Nat.add_0_r. now destruct io.
  - destruct (failure (requests_made io)) as [e|] eqn:He.
    2:{ exfalso. apply (Hfail 0%nat); [lia|]. now rewrite Nat.add_0_r. }
    rewrite flat_map_seq_S.
    cbn [seq map app for_attempt]. unfold bind at 1.
    rewrite (for_path_transport_failure w self method (path :: rest)
               json_payload expect_json _ path rest io e) by (try lia; exact He).
    rewrite IH.
    2:{ lia. }
    2:{ intros i Hi. cbn [requests_made after_backoff after_sleep after_request].
        rewrite Nat.add_succ_comm. apply Hfail. lia. }
    cbn [trace requests_made randoms_drawn clock_reads after_backoff after_sleep
         after_request].
    fold rq. rewrite !Nat.add_0_r, <- !app_assoc. cbn [app].
    f_equal.
    + destruct k as [|j].
      * now rewrite Nat.add_0_r, He.
      * now rewrite <- Nat.add_succ_comm.
    + f_equal; [|lia|lia].
      do 3 f_equal. apply flat_map_ext. intros i.
      now rewrite <- !Nat.add_succ_comm.
Qed.

End FailedAttempts.

Lemma range_from_one (retries : Z) :
  range 1 (retries + 1) = map (fun i => 1 + Z.of_nat i) (seq 0 (Z.to_nat retries)).
Proof. unfold range. now replace (retries + 1 - 1) with retries by lia. Qed.

Lemma failed_attempts_counts w start rq (l : list nat) :
  length (requests_of (flat_map (failed_attempt w start rq) l)) = length l
  /\ length (sleeps_of (flat_map (failed_attempt w start rq) l)) = length l.
Proof.
  induction l as [|i l [IHr IHs]]; simpl.
  - auto.
  - now rewrite IHr, IHs.
Qed.

(** C4: against a panel whose every exchange is a transport failure (the
    request raises a timeout, connection, disconnect, OS, payload or
    response error, the answer is 5xx, or reading the body fails with such
    an error), attempt [i] of [_request_json] sends one request to the
    first candidate path and then sleeps what [_backoff(i)] returns, the
    double [1.2 * 2 ^ (i - 1)] plus the jitter (the draw of
    [random.random()] times the double [0.4]). With up to 1024 retries there are
    exactly [retries] such attempts, and then [SecvestApiError] is raised
    carrying the last transport error. With more retries the request of
    attempt 1025 is still sent, but [_backoff(1025)] raises
    [OverflowError] inside the handler: there is no sleep and no further
    attempt, and the [OverflowError] leaves [_request_json]. *)
Theorem persistent_failure_uses_every_retry :
  forall (w : World) (self : SecvestApi) (method path : string)
         (rest : list string) (json_payload : option value)
         (expect_json : bool) (io : IO),
    let rq := request_for self method json_payload path in
    let failure n :=
      transport_failure (1 <? length (path :: rest))%nat expect_json
        (http w n rq) in
    (forall n, failure n <> None) ->
    let n := Z.to_nat (_retries self) in
    let out := _request_json w self method (path :: rest) json_payload
                 expect_json io in
    (forall (i : nat) (io' : IO),
        (i < 1024)%nat ->
        snd (_backoff w (1 + Z.of_nat i) io')
        = Ok (backoff_seconds (1 + Z.of_nat i) (random w (randoms_drawn io'))) /\
        backoff_seconds (1 + Z.of_nat i) (random w (randoms_drawn io'))
        = Float.add (S754_finite false 5404319552844595 (Z.of_nat i - 52))
            (Float.mul (random w (randoms_drawn io')) DEFAULT_JITTER_S)) /\
    ((n <= 1024)%nat ->
     let attempts := flat_map (failed_attempt w io rq) (seq 0 n) in
     trace (fst out) = (trace io ++ attempts)%list /\
     length (requests_of attempts) = n /\
     length (sleeps_of attempts) = n /\
     snd out
     = Raise (SecvestApiError
                (RequestFailedAfterRetries
                   match n with
                   | O => None
                   | S k => failure (requests_made io + k)%nat
                   end))) /\
    ((1025 <= n)%nat ->
     let attempts := flat_map (failed_attempt w io rq) (seq 0 1024) in
     trace (fst out)
     = (trace io ++ attempts
        ++ [EvRequest 1025 rq (http w (requests_made io + 1024) rq)])%list /\
     length (requests_of attempts) = 1024%nat /\
     length (sleeps_of attempts) = 1024%nat /\
     snd out = Raise (Client OverflowError)).
Proof.
  intros w self method path rest json_payload expect_json io rq failure Hfail
         n out.
  subst out. unfold _request_json. rewrite range_from_one. fold n.
  split; [|split].
  - intros i io' Hi. split.
    + now rewrite _backoff_ok by lia.
    + unfold backoff_seconds, scaled_base.
      now replace (1 + Z.of_nat i - 53) with (Z.of_nat i - 52) by lia.
  - intros Hn. cbv zeta.
    rewrite <- (app_nil_r (map _ (seq 0 n))).
    rewrite (for_attempt_failures_first w self method path rest json_payload
               expect_json n 0 io None []) by (try lia; intros; apply Hfail).
    cbn [for_attempt raise fst snd trace]. fold rq.
    split; [reflexivity|].
    destruct (failed_attempts_counts w io rq (seq 0 n)) as [Hr Hs].
    rewrite length_seq in Hr, Hs. auto.
  - intros Hn. cbv zeta.
    assert (Hseq : seq 0 n = (seq 0 1024 ++ 1024%nat :: seq 1025 (n - 1025))%list).
    { replace n with (1024 + S (n - 1025))%nat at 1 by lia.
      rewrite seq_app. reflexivity. }
    set (io1 := {| trace := (trace io ++ flat_map (failed_attempt w io rq) (seq 0 1024))%list;
                   requests_made := requests_made io + 1024;
                   randoms_drawn := randoms_drawn io + 1024;
                   clock_reads := clock_reads io |}).
    assert (Hrun :
              for_attempt w self method (path :: rest) json_payload expect_json
                (map (fun i => 1 + Z.of_nat i) (seq 0 n)) None io
              = (after_request io1 1025 rq (http w (requests_made io1) rq),
                 Raise (Client OverflowError))).
    { rewrite Hseq, map_app.
      rewrite (for_attempt_failures_first w self method path rest json_payload
                 expect_json 1024 0 io None _) by (try lia; intros; apply Hfail).
      fold rq. change (flat_map _ (seq 0 1024))
        with (flat_map (failed_attempt w io rq) (seq 0 1024)).
      fold io1. cbn [map for_attempt]. unfold bind at 1.
      destruct (failure (requests_made io1)) as [e|] eqn:He;
        [|now apply Hfail in He].
      now rewrite (for_path_transport_overflow w self method (path :: rest)
                     json_payload expect_json _ path rest io1 e)
        by (try lia; exact He). }
    rewrite Hrun. subst io1.
    cbn [fst snd trace requests_made after_request].
    split; [now rewrite <- app_assoc|].
    destruct (failed_attempts_counts w io rq (seq 0 1024)) as [Hr Hs].
    rewrite length_seq in Hr, Hs. auto.
Qed.

(** Against a panel that always times out: with two retries, two requests
    to the first path, each followed by its backoff, then the
    [SecvestApiError]; with 1025 retries, 1025 requests, 1024 backoff
    sleeps, and the [OverflowError] of the 1025th backoff instead. *)
Lemma persistent_failure_uses_every_retry_witness :
  let few := _request_json (Demo.scripted []) Demo.the_api "GET"
               ["/a"; "/b"] None true io0 in
  let many := _request_json (Demo.scripted []) Cases.many_retries "GET"
                ["/a"; "/b"] None true io0 in
  (snd few = Raise (SecvestApiError (RequestFailedAfterRetries (Some TimeoutError))) /\
   length (requests_of (trace (fst few))) = 2%nat /\
   length (sleeps_of (trace (fst few))) = 2%nat) /\
  (snd many = Raise (Client OverflowError) /\
   length (requests_of (trace (fst many))) = 1025%nat /\
   length (sleeps_of (trace (fst many))) = 1024%nat).
Proof.
  cbv zeta. split.
  - destruct (proj1 (proj2 (persistent_failure_uses_every_retry (Demo.scripted [])
                              Demo.the_api "GET" "/a" ["/b"] None true io0
                              ltac:(intros n; destruct n; discriminate))))
      as (Ht & Hr & Hs & Hout).
    + apply Nat.leb_le. vm_compute. reflexivity.
    + split; [exact Hout|]. rewrite Ht. split; [exact Hr | exact Hs].
  - destruct (proj2 (proj2 (persistent_failure_uses_every_retry (Demo.scripted [])
                              Cases.many_retries "GET" "/a" ["/b"] None true io0
                              ltac:(intros n; destruct n; discriminate))))
      as (Ht & Hr & Hs & Hout).
    + apply Nat.leb_le. vm_compute. reflexivity.
    + split; [exact Hout|]. rewrite Ht.
      unfold requests_of, sleeps_of in *.
      rewrite !filter_app, !length_app, Hr, Hs. split; reflexivity.
Defined.

(** C5: when a candidate path that is not the last one answers 404, the
    next candidate is tried in the same attempt: the loop goes on with the
    remaining candidates under the same attempt number, in a state that
    differs only by the request just made (no backoff drawn, no sleep), and
    the next event of the trace is the request for the next candidate. *)
Theorem not_found_tries_next_path :
  forall (w : World) (self : SecvestApi) (method : string)
         (paths_list : list string) (json_payload : option value)
         (expect_json : bool) (attempt : Z) (tried : list string)
         (path next : string) (rest : list string) (io : IO) (b : body),
    paths_list = (tried ++ path :: next :: rest)%list ->
    let rq := request_for self method json_payload path in
    let rq_next := request_for self method json_payload next in
    http w (requests_made io) rq = Responds 404 b ->
    let io1 := after_request io attempt rq (Responds 404 b) in
    let loop := for_path w self method paths_list json_payload expect_json attempt in
    loop (path :: next :: rest) io = loop (next :: rest) io1 /\
    sleeps_of (trace io1) = sleeps_of (trace io) /\
    randoms_drawn io1 = randoms_drawn io /\
    trace_grows
      (trace io ++ [EvRequest attempt rq (Responds 404 b);
                    EvRequest attempt rq_next (http w (S (requests_made io)) rq_next)])
      method (fst (loop (path :: next :: rest) io)).
Proof.
  intros w self method paths_list json_payload expect_json attempt tried path
         next rest io b Hpaths rq rq_next Ho io1 loop.
  assert (Hlen : (1 < length paths_list)%nat).
  { rewrite Hpaths, length_app. simpl. lia. }
  assert (Hstep : loop (path :: next :: rest) io = loop (next :: rest) io1)
    by now apply for_path_not_found.
  split; [exact Hstep|]. split; [|split].
  - unfold sleeps_of. simpl. rewrite filter_app. simpl. now rewrite app_nil_r.
  - reflexivity.
  - rewrite Hstep.
    pose proof (for_path_first_request w self method paths_list json_payload
                  expect_json attempt next rest io1) as H.
    cbv zeta in H. simpl in H. rewrite <- app_assoc in H. exact H.
Qed.

(** The first of two candidates answers 404: the second is tried in
    attempt 1, from a state in which only that request has happened. *)
Lemma not_found_tries_next_path_witness :
  for_path Demo.first_path_missing Demo.the_api "GET" ["/a"; "/b"] None true 1
    ["/a"; "/b"] io0
  = for_path Demo.first_path_missing Demo.the_api "GET" ["/a"; "/b"] None true 1
      ["/b"]
      (after_request io0 1 (request_for Demo.the_api "GET" None "/a")
         (Responds 404 (Body "" None))).
Proof.
  exact (proj1 (not_found_tries_next_path Demo.first_path_missing Demo.the_api
                  "GET" ["/a"; "/b"] None true 1 [] "/a" "/b" []
                  io0 (Body "" None) eq_refl eq_refl)).
Defined.

(** The whole request on that panel: both requests belong to attempt 1,
    nothing is slept, and the second answer is returned. *)
Example first_path_missing_run :
  _request_json Demo.first_path_missing Demo.the_api "GET" ["/a"; "/b"] None true io0
  = (after_request
       (after_request io0 1 (request_for Demo.the_api "GET" None "/a")
          (Responds 404 (Body "" None)))
       1 (request_for Demo.the_api "GET" None "/b") (Demo.ok_json (VNum 7)),
     Ok (VNum 7)).
Proof. vm_compute. reflexivity. Qed.

(** ** The coordinator, step by step *)

Lemma Qlt_bool_iff (x y : Q) : Qlt_bool x y = true <-> (x < y)%Q.
Proof.
  unfold Qlt_bool. rewrite negb_true_iff. split.
  - intros H. apply Qnot_le_lt. intros Hle. apply Qle_bool_iff in Hle. congruence.
  - intros H. destruct (Qle_bool y x) eqn:Hle; auto.
    apply Qle_bool_iff in Hle. apply Qle_not_lt in Hle. contradiction.
Qed.

Section CoordinatorSteps.
Context (w : World).

Lemma call_api_eq {A} (op : World -> SecvestApi -> M IO exn A) h :
  call_api w op h
  = match op w (api (coordinator h)) (io h) with
    | (io1, Ok a) => (with_io h io1, Ok a)
    | (io1, Raise e) => (with_io h io1, Raise e)
    end.
Proof.
  unfold call_api, bind, self_get, gets, on_io.
  now destruct (op w (api (coordinator h)) (io h)) as [io1 [a|e]].
Qed.

(** The forced refresh, by the outcome of its [get_zones] call. *)
Lemma async_refresh_zones_now_eq h :
  async_refresh_zones_now w h
  = match get_zones w (api (coordinator h)) (io h) with
    | (io1, Ok zones_payload) =>
        let c := coordinator h in
        let zones_dict := build_zones_dict zones_payload (Some (zone_name_map c)) in
        let new_data :=
          match data c with
          | Some d =>
              _compose_data (raw_mode d) (human_mode d) zones_dict true (last_error d)
          | None => _compose_data None None zones_dict true None
          end in
        ({| coordinator :=
              set_data (Some new_data)
                (set_breaker_until 0
                   (set_consecutive_failures 0 (set_last_error None c)));
            io := io1;
            _debounced_refresh := idle |}, Ok tt)
    | (io1, Raise e) => (with_io h io1, Raise e)
    end.
Proof.
  unfold async_refresh_zones_now. unfold bind at 1. rewrite call_api_eq.
  destruct (get_zones w (api (coordinator h)) (io h)) as [io1 [payload|m]];
    reflexivity.
Qed.

(** A poll that raises leaves the coordinator as it was, up to the zones
    tick counter; the clock is not read. *)
Lemma poll_raises h h1 err :
  poll w h = (h1, Raise err) ->
  data (coordinator h1) = data (coordinator h) /\
  _consecutive_failures (coordinator h1) = _consecutive_failures (coordinator h) /\
  _breaker_threshold (coordinator h1) = _breaker_threshold (coordinator h) /\
  _breaker_cooldown (coordinator h1) = _breaker_cooldown (coordinator h).
Proof.
  unfold poll. unfold bind at 1. rewrite call_api_eq.
  destruct (get_mode w (api (coordinator h)) (io h)) as [io1 [raw|m]].
  - unfold bind, self_get, self_set, gets, modify; simpl.
    destruct (_ <=? _).
    + rewrite call_api_eq. simpl.
      destruct (get_zones _ _ _) as [io2 [payload|m]]; simpl.
      * discriminate.
      * intros [= <- <-]. simpl. auto.
    + discriminate.
  - intros [= <- <-]. simpl. auto.
Qed.

Lemma except_timeout_or_api_eq err h :
  except_timeout_or_api w err h
  = (after_failure w err h,
     match data (coordinator h) with
     | Some d => Ok (degraded d (Some (Repr err)))
     | None => Raise (UpdateFailed (Repr err))
     end).
Proof.
  unfold except_timeout_or_api, after_failure, trip_breaker, degraded_or_fail.
  unfold bind, self_get, self_set, gets, modify, on_io, ret, raise; simpl.
  destruct (_ <=? _); simpl; destruct (data (coordinator h)); reflexivity.
Qed.

Lemma except_exception_eq err h :
  except_exception w err h = except_timeout_or_api w err h.
Proof. reflexivity. Qed.

Lemma _async_update_data_eq h :
  _async_update_data w h
  = if Qlt_bool (clock w (clock_reads (io h))) (_breaker_until (coordinator h))
    then
      (tick_start w h,
       match data (coordinator h) with
       | Some d =>
           Ok (degraded d
                 (Some (text_or (_last_error (coordinator h))
                          (Lit "Circuit breaker active"))))
       | None => Raise (UpdateFailed (Lit "Circuit breaker active"))
       end)
    else
      match poll w (tick_start w h) with
      | (h1, Ok d) => (h1, Ok d)
      | (h1, Raise err) =>
          (after_failure w err h1,
           match data (coordinator h1) with
           | Some d => Ok (degraded d (Some (Repr err)))
           | None => Raise (UpdateFailed (Repr err))
           end)
      end.
Proof.
  unfold _async_update_data. unfold bind at 1 2.
  unfold on_io at 1, self_get at 1, gets at 1. cbn [time_time fst snd].
  fold (tick_start w h).
  change (coordinator
            {| coordinator := coordinator h;
               io := {| trace := trace (io h);
                        requests_made := requests_made (io h);
                        randoms_drawn := randoms_drawn (io h);
                        clock_reads := S (clock_reads (io h)) |};
               _debounced_refresh := _debounced_refresh h |})
    with (coordinator h).
  destruct (Qlt_bool _ _).
  - unfold bind, self_get, gets, ret, raise. cbn.
    destruct (data (coordinator h)); reflexivity.
  - unfold try_except.
    change {| coordinator := coordinator h;
              io := {| trace := trace (io h);
                       requests_made := requests_made (io h);
                       randoms_drawn := randoms_drawn (io h);
                       clock_reads := S (clock_reads (io h)) |};
              _debounced_refresh := _debounced_refresh h |}
      with (tick_start w h).
    destruct (poll w (tick_start w h)) as [h1 [d|err]]; [reflexivity|].
    destruct (is_timeout_or_api err);
      [|rewrite except_exception_eq]; apply except_timeout_or_api_eq.
Qed.

Lemma frames_ret {E A} (a : A) : frames (ret (E := E) a).
Proof. intros d h. reflexivity. Qed.

Lemma frames_raise {E A} (e : E) : frames (raise (A := A) e).
Proof. intros d h. reflexivity. Qed.

Lemma frames_bind {E A B} (m : M Hass E A) (k : A -> M Hass E B) :
  frames m -> (forall a, frames (k a)) -> frames (bind m k).
Proof.
  intros Hm Hk d h. unfold bind. rewrite Hm.
  destruct (m h) as [h1 [a|e]]; cbn [fst snd]; [apply Hk | reflexivity].
Qed.

Lemma frames_try_except {E E' A} (m : M Hass E A) (k : E -> M Hass E' A) :
  frames m -> (forall e, frames (k e)) -> frames (try_except m k).
Proof.
  intros Hm Hk d h. unfold try_except. rewrite Hm.
  destruct (m h) as [h1 [a|e]]; cbn [fst snd]; [reflexivity | apply Hk].
Qed.

Lemma frames_on_io {E A} (m : M IO E A) : frames (on_io m).
Proof.
  intros d h. unfold on_io. cbn [io with_debouncer].
  now destruct (m (io h)) as [io1 r].
Qed.

Lemma frames_self_get {E A} (f : SecvestCoordinator -> A) :
  frames (self_get (E := E) f).
Proof. intros d h. reflexivity. Qed.

Lemma frames_self_set {E} (f : SecvestCoordinator -> SecvestCoordinator) :
  frames (self_set (E := E) f).
Proof. intros d h. reflexivity. Qed.

Ltac frame :=
  repeat first
    [ apply frames_ret | apply frames_raise | apply frames_on_io
    | apply frames_self_get | apply frames_self_set
    | apply frames_bind; [|intros ?] | apply frames_try_except; [|intros ?]
    | match goal with
      | |- frames (if ?c then _ else _) => destruct c
      | |- frames (match ?x with _ => _ end) => destruct x
      end ].

Lemma frames_call_api {A} (op : World -> SecvestApi -> M IO exn A) :
  frames (call_api w op).
Proof. unfold call_api. frame. Qed.

Lemma frames_poll : frames (poll w).
Proof. unfold poll. frame; try apply frames_call_api. Qed.

Lemma frames__async_update_data : frames (_async_update_data w).
Proof.
  unfold _async_update_data, except_timeout_or_api, except_exception,
    trip_breaker, degraded_or_fail.
  frame; try apply frames_poll.
Qed.

(** A refresh, by the outcome of [_async_update_data]; the debouncer ends
    up idle. *)
Lemma async_refresh_eq {E} h :
  async_refresh (E := E) w h
  = match _async_update_data w h with
    | (h1, Ok d) =>
        ({| coordinator := set_data (Some d) (coordinator h1); io := io h1;
            _debounced_refresh := idle |}, Ok tt)
    | (h1, Raise _) => (with_debouncer h1 idle, Ok tt)
    end.
Proof.
  unfold async_refresh, debounced_refresh_cancel, debouncer_set, modify.
  unfold bind at 1. fold (with_debouncer h idle).
  unfold try_except, bind. rewrite frames__async_update_data.
  destruct (_async_update_data w h) as [h1 [d|e]]; reflexivity.
Qed.

End CoordinatorSteps.

Lemma after_failure_data w err h :
  data (coordinator (after_failure w err h)) = data (coordinator h).
Proof. unfold after_failure. now destruct (_ <=? _). Qed.

Lemma Qlt_bool_false (x y : Q) : ~ (x < y)%Q -> Qlt_bool x y = false.
Proof.
  intros H. destruct (Qlt_bool x y) eqn:E; auto.
  apply Qlt_bool_iff in E. contradiction.
Qed.

(** C2: a tick (breaker closed) whose poll fails with a timeout or an API
    error returns, when a snapshot exists, the degraded snapshot: the
    last-known mode and zones, [available = false] and the text of the
    error, and that is what gets published; it raises [UpdateFailed] when
    there is no snapshot. A tick never raises while a snapshot exists. *)
Theorem failed_tick_publishes_degraded_snapshot :
  forall (w : World) (h h1 : Hass) (err : exn),
    ~ (clock w (clock_reads (io h)) < _breaker_until (coordinator h))%Q ->
    poll w (tick_start w h) = (h1, Raise err) ->
    is_timeout_or_api err = true ->
    match data (coordinator h) with
    | Some d =>
        let s := degraded d (Some (Repr err)) in
        snd (_async_update_data w h) = Ok s /\
        data (coordinator (run w ScheduledTick h)) = Some s /\
        raw_mode s = raw_mode d /\ human_mode s = human_mode d /\
        zones s = zones d /\ available s = false /\
        last_error s = Some (Repr err)
    | None =>
        snd (_async_update_data w h) = Raise (UpdateFailed (Repr err)) /\
        data (coordinator (run w ScheduledTick h)) = None
    end
    /\ (forall h' e, snd (_async_update_data w h') = Raise e ->
                     data (coordinator h') = None).
Proof.
  intros w h h1 err Hclosed Hpoll Herr.
  destruct (poll_raises w _ _ _ Hpoll) as (Hdata & _).
  change (data (coordinator (tick_start w h))) with (data (coordinator h)) in Hdata.
  split.
  - unfold run. rewrite async_refresh_eq, _async_update_data_eq.
    rewrite (Qlt_bool_false _ _ Hclosed), Hpoll, Hdata.
    destruct (data (coordinator h)) as [d|] eqn:Hd; cbn [fst snd].
    + repeat split; reflexivity.
    + split; [reflexivity|]. cbn [with_debouncer coordinator].
      now rewrite after_failure_data, Hdata.
  - intros h' e. rewrite _async_update_data_eq.
    destruct (Qlt_bool _ _).
    + destruct (data (coordinator h')); [discriminate | reflexivity].
    + destruct (poll w (tick_start w h')) as [h2 [d|err']] eqn:Hp;
        [discriminate|].
      destruct (poll_raises w _ _ _ Hp) as (Hdata' & _).
      change (data (coordinator (tick_start w h')))
        with (data (coordinator h')) in Hdata'.
      rewrite Hdata'. destruct (data (coordinator h')); [discriminate | reflexivity].
Qed.

(** The second tick of the outage: the mode read before is kept, marked
    unavailable, with the error of the failed request. *)
Lemma failed_tick_publishes_degraded_snapshot_witness :
  exists d,
    data (coordinator (run Demo.recovering ScheduledTick Demo.fresh)) = Some d /\
    data (coordinator
            (run Demo.recovering ScheduledTick
               (run Demo.recovering ScheduledTick Demo.fresh)))
    = Some (degraded d
              (Some (Repr (SecvestApiError
                             (RequestFailedAfterRetries (Some TimeoutError)))))).
Proof.
  eexists. split; [vm_compute; reflexivity|].
  pose proof (failed_tick_publishes_degraded_snapshot Demo.recovering
                (run Demo.recovering ScheduledTick Demo.fresh)
                (fst (poll Demo.recovering
                        (tick_start Demo.recovering
                           (run Demo.recovering ScheduledTick Demo.fresh))))
                (SecvestApiError (RequestFailedAfterRetries (Some TimeoutError))))
    as H.
  destruct H as [H _].
  - vm_compute. discriminate.
  - vm_compute. reflexivity.
  - reflexivity.
  - exact (proj1 (proj2 H)).
Defined.



(** C7, as the code has it: a forced refresh always starts with a live
    [get_zones] call, whatever the breaker state. When that call returns,
    the failure counter, the breaker timestamp and the last error are
    cleared and a snapshot with the new zones and [available = true] is
    published; when it raises, the error propagates and the coordinator is
    left as it was. *)
Theorem forced_refresh_bypasses_breaker :
  forall (w : World) (h : Hass),
    io (fst (async_refresh_zones_now w h))
      = fst (get_zones w (api (coordinator h)) (io h)) /\
    (forall io1 zones_payload,
        get_zones w (api (coordinator h)) (io h) = (io1, Ok zones_payload) ->
        let h' := fst (async_refresh_zones_now w h) in
        snd (async_refresh_zones_now w h) = Ok tt /\
        _consecutive_failures (coordinator h') = 0 /\
        _breaker_until (coordinator h') = 0%Q /\
        _last_error (coordinator h') = None /\
        exists d,
          data (coordinator h') = Some d /\
          available d = true /\
          zones d = build_zones_dict zones_payload
                      (Some (zone_name_map (coordinator h))) /\
          raw_mode d = match data (coordinator h) with
                       | Some d0 => raw_mode d0
                       | None => None
                       end) /\
    (forall io1 e,
        get_zones w (api (coordinator h)) (io h) = (io1, Raise e) ->
        async_refresh_zones_now w h = (with_io h io1, Raise e)).
Proof.
  intros w h. rewrite async_refresh_zones_now_eq.
  destruct (get_zones w (api (coordinator h)) (io h)) as [io1 [payload|m]].
  - split; [reflexivity|]. split.
    + intros io1' payload' [= <- <-]. cbn [fst snd coordinator].
      repeat split. eexists. split; [reflexivity|].
      destruct (data (coordinator h)); repeat split.
    + intros io1' m [=].
  - split; [reflexivity|]. split.
    + intros io1' payload' [=].
    + now intros io1' m' [= <- <-].
Qed.

(** With the breaker open, a forced refresh that gets its zones closes it. *)
Lemma forced_refresh_bypasses_breaker_witness :
  _consecutive_failures (coordinator (Demo.tripped Demo.recovering)) = 3 /\
  _consecutive_failures
    (coordinator (run Demo.recovering RefreshZonesNow (Demo.tripped Demo.recovering)))
  = 0.
Proof.
  split; [vm_compute; reflexivity|].
  refine (proj1 (proj2 (proj1 (proj2 (forced_refresh_bypasses_breaker
                                        Demo.recovering
                                        (Demo.tripped Demo.recovering)))
                          _ [Demo.zone "Haus.Tuer" "closed"] _))).
  vm_compute. reflexivity.
Defined.

(** C7 as stated fails: with the breaker open, a forced refresh whose
    [get_zones] call is rejected by the panel raises, clears nothing and
    publishes nothing. *)
Lemma forced_refresh_failure_clears_nothing :
  let h := Demo.tripped Demo.unauthorized in
  let h' := fst (async_refresh_zones_now Demo.unauthorized h) in
  snd (async_refresh_zones_now Demo.unauthorized h)
    = Raise (SecvestApiError
               (AuthFailed 401 "https://panel/system/partitions-1/zones/")) /\
  _consecutive_failures (coordinator h') = 3 /\
  _breaker_until (coordinator h') = 304%Q /\
  data (coordinator h') = data (coordinator h) /\
  ~ (_consecutive_failures (coordinator h') = 0 /\
     _breaker_until (coordinator h') = 0%Q /\
     exists d, data (coordinator h') = Some d /\ available d = true).
Proof.
  cbv zeta.
  split; [vm_compute; reflexivity|].
  split; [vm_compute; reflexivity|].
  split; [vm_compute; reflexivity|].
  split; [vm_compute; reflexivity|].
  intros [H _]. vm_compute in H. discriminate.
Qed.

(** ** The command paths *)

Lemma nonempty_true {A} (l : list A) : l <> [] -> nonempty l = true.
Proof. destruct l; [congruence | reflexivity]. Qed.

Lemma handle_set_mode_refuses w h h1 d m :
  mem m VALID_MODES = true ->
  mem m ["set"; "partset"] = true ->
  async_refresh_zones_now w h = (h1, Ok tt) ->
  data (coordinator h1) = Some d ->
  open_zone_names d <> [] ->
  handle_set_mode w (Some m) h
  = (h1, Raise (HomeAssistantError
                  (Message (string_or (open_zones_spoken d)
                              "Offene Zonen verhindern Aktivierung.")))).
Proof.
  intros Hvalid Harm Hrefresh Hd Hopen.
  unfold handle_set_mode. rewrite Hvalid. cbn [negb].
  unfold bind at 1. unfold map_exn, try_except. rewrite Hrefresh.
  unfold bind, self_get, gets. cbn [fst snd]. rewrite Hd, Harm.
  now rewrite (nonempty_true _ Hopen).
Qed.

Lemma handle_set_mode_refresh_raises w h h1 e m :
  mem m VALID_MODES = true ->
  async_refresh_zones_now w h = (h1, Raise e) ->
  handle_set_mode w (Some m) h = (h1, Raise (Uncaught e)).
Proof.
  intros Hvalid Hrefresh.
  unfold handle_set_mode. rewrite Hvalid. cbn [negb].
  unfold bind at 1. unfold map_exn, try_except. now rewrite Hrefresh.
Qed.

Lemma arm_refuses w h h1 r d mode :
  async_refresh_zones_now w h = (h1, r) ->
  data (coordinator h1) = Some d ->
  open_zone_names d <> [] ->
  _arm_with_live_zone_refresh w mode h
  = (h1, Raise (HomeAssistantError
                  (Message (string_or (open_zones_spoken d)
                              ("Offene Zonen: "
                               ++ Str.join ", " (open_zone_names d)))))).
Proof.
  intros Hrefresh Hd Hopen.
  unfold _arm_with_live_zone_refresh. unfold bind at 1. unfold try_except.
  rewrite Hrefresh.
  assert (Hret : (let (s', r0) := (h1, r) in
                  match r0 with
                  | Ok a => (s', Ok (E := cmd_exn) a)
                  | Raise e => ret tt s'
                  end) = (h1, Ok tt)).
  { destruct r as [[]|e]; reflexivity. }
  cbv zeta in Hret. rewrite Hret.
  unfold bind, self_get, gets. cbn [fst snd]. rewrite Hd.
  now rewrite (nonempty_true _ Hopen).
Qed.

Lemma refresh_io w h :
  io (fst (async_refresh_zones_now w h))
  = fst (get_zones w (api (coordinator h)) (io h)).
Proof.
  rewrite async_refresh_zones_now_eq.
  now destruct (get_zones w (api (coordinator h)) (io h)) as [io1 [payload|m]].
Qed.

(** C1, as the code has it: a command to arm first refreshes the zones
    through one live [get_zones] call. When the snapshot then lists an
    open zone, the service handler (after a refresh that succeeded) and the
    alarm entity (whether or not the refresh succeeded) raise
    [HomeAssistantError] with the spoken list and stop there: the only
    exchanges with the panel are the GET requests of that refresh, and no
    [set_mode] request is made. A refresh that fails makes the service
    handler stop with the error of the refresh. *)
Theorem open_zone_refuses_arming :
  forall (w : World) (h h1 : Hass) (mode : string) (d : SecvestData),
    mode = "set" \/ mode = "partset" ->
    data (coordinator h1) = Some d ->
    open_zone_names d <> [] ->
    (async_refresh_zones_now w h = (h1, Ok tt) ->
     handle_set_mode w (Some mode) h
     = (h1, Raise (HomeAssistantError
                     (Message (string_or (open_zones_spoken d)
                                 "Offene Zonen verhindern Aktivierung."))))) /\
    (forall r,
        async_refresh_zones_now w h = (h1, r) ->
        _arm_with_live_zone_refresh w mode h
        = (h1, Raise (HomeAssistantError
                        (Message (string_or (open_zones_spoken d)
                                    ("Offene Zonen: "
                                     ++ Str.join ", " (open_zone_names d))))))) /\
    (forall r,
        async_refresh_zones_now w h = (h1, r) ->
        io h1 = fst (get_zones w (api (coordinator h)) (io h)) /\
        trace_grows (trace (io h)) "GET" (io h1)) /\
    (forall h2 e,
        async_refresh_zones_now w h = (h2, Raise e) ->
        handle_set_mode w (Some mode) h = (h2, Raise (Uncaught e))).
Proof.
  intros w h h1 mode d Hmode Hd Hopen.
  assert (Hvalid : mem mode VALID_MODES = true) by (destruct Hmode; now subst).
  assert (Harm : mem mode ["set"; "partset"] = true) by (destruct Hmode; now subst).
  split; [|split; [|split]].
  - intros Hrefresh. now apply handle_set_mode_refuses.
  - intros r Hrefresh. eapply arm_refuses; eauto.
  - intros r Hrefresh.
    assert (Hio : io h1 = fst (get_zones w (api (coordinator h)) (io h))).
    { rewrite <- refresh_io. now rewrite Hrefresh. }
    split; [exact Hio|]. rewrite Hio. apply get_zones_trace.
  - intros h2 e Hrefresh. now apply handle_set_mode_refresh_raises.
Qed.

(** The door is reported open: the service refuses to arm after its one
    request for the zones. *)
Lemma open_zone_refuses_arming_witness :
  snd (handle_set_mode Demo.open_door (Some "set") Demo.fresh)
  = Raise (HomeAssistantError
             (Message (make_spoken_zone_list ["Haus Tuer"]))).
Proof.
  pose proof (open_zone_refuses_arming Demo.open_door Demo.fresh
                Demo.door_seen_open "set"
                (_compose_data None None
                   (build_zones_dict [Demo.zone "Haus.Tuer" "open"] None)
                   true None)) as H.
  destruct H as (H & _).
  - now left.
  - vm_compute. reflexivity.
  - vm_compute. discriminate.
  - rewrite H; [|vm_compute; reflexivity]. vm_compute. reflexivity.
Defined.

(** C1 as stated fails: with an open zone in the current snapshot (and in
    the refreshed one), the command to arm does call the Device Client: it
    sends the request for the zones before it refuses. *)
Lemma arming_with_open_zone_calls_the_client :
  let h := Demo.door_seen_open in
  let h' := fst (handle_set_mode Demo.open_door (Some "set") h) in
  (exists d, data (coordinator h) = Some d /\ open_zone_names d = ["Haus Tuer"]) /\
  (exists d, data (coordinator h') = Some d /\ open_zone_names d = ["Haus Tuer"]) /\
  requests_made (io h) = 1%nat /\
  requests_made (io h') = 2%nat /\
  trace (io h')
  = (trace (io h)
     ++ [EvRequest 1
           (request_for Demo.the_api "GET" None "/system/partitions-1/zones/")
           (Demo.ok_json (VList [Demo.zone "Haus.Tuer" "open"]))])%list /\
  trace (io h') <> trace (io h).
Proof.
  cbv zeta.
  split; [eexists; split; vm_compute; reflexivity|].
  split; [eexists; split; vm_compute; reflexivity|].
  split; [vm_compute; reflexivity|].
  split; [vm_compute; reflexivity|].
  split; [vm_compute; reflexivity|].
  vm_compute. discriminate.
Qed.

(** ** Worked examples of the status model *)

Example normalize_name_buero :
  normalize_name ("B" ++ Str.u_uml ++ "ro T" ++ Str.u_uml ++ "r") = "Buero_Tuer".
Proof. vm_compute. reflexivity. Qed.

Example spoken_list_empty : make_spoken_zone_list [] = "".
Proof. reflexivity. Qed.

Example spoken_list_three :
  make_spoken_zone_list ["A"; "B"; "C"]
  = "Ich konnte die Alarmanlage nicht aktivieren, bitte folgende Fenster und T"
      ++ Str.u_uml ++ "ren schlie" ++ Str.eszett ++ "en: A, B und C.".
Proof. vm_compute. reflexivity. Qed.

(** Rebuilding from the output of a list with an invalid row and a
    duplicate key gives the same keys. *)
Lemma build_zones_dict_drops_invalid_and_is_idempotent_witness :
  keys (build_zones_dict
          [Demo.zone "A b" "open"; VNum 3; Demo.zone "A.b" "closed"] None)
  = ["A_b"]
  /\ keys (build_zones_dict
             [Demo.zone "A.b" "closed"] (Some [("A_b", "Front door")]))
     = keys (build_zones_dict
               [Demo.zone "A b" "open"; VNum 3; Demo.zone "A.b" "closed"] None).
Proof.
  split; [vm_compute; reflexivity|].
  refine (proj2 (proj2 (proj2 (proj2
            (build_zones_dict_drops_invalid_and_is_idempotent
               [Demo.zone "A b" "open"; VNum 3; Demo.zone "A.b" "closed"]
               None (Some [("A_b", "Front door")])))))
            [Demo.zone "A.b" "closed"] _).
  vm_compute. reflexivity.
Defined.

(** ** More on the Device Client *)

Lemma range_nonpositive (retries : Z) : retries <= 0 -> range 1 (retries + 1) = [].
Proof.
  intros H. rewrite range_from_one.
  replace (Z.to_nat retries) with 0%nat by lia. reflexivity.
Qed.

Lemma range_positive (retries : Z) :
  0 < retries ->
  range 1 (retries + 1)
  = 1 :: map (fun i => 1 + Z.of_nat i) (seq 1 (Z.to_nat retries - 1)).
Proof.
  intros H. rewrite range_from_one.
  replace (Z.to_nat retries) with (S (Z.to_nat retries - 1)) at 1 by lia.
  reflexivity.
Qed.

(** X1: with a retry budget of zero or less, a request is not sent at all:
    [_request_json] raises at once, wrapping no error, and leaves the outside
    world untouched. *)
Theorem no_retries_no_request :
  forall (w : World) (self : SecvestApi) (method : string)
         (paths_list : list string) (json_payload : option value)
         (expect_json : bool) (io : IO),
    _retries self <= 0 ->
    _request_json w self method paths_list json_payload expect_json io
    = (io, Raise (SecvestApiError (RequestFailedAfterRetries None))).
Proof.
  intros w self method paths_list json_payload expect_json io Hr.
  unfold _request_json. now rewrite range_nonpositive.
Qed.

Lemma no_retries_no_request_witness :
  get_mode Demo.two_zones (SecvestApi_init "https://panel" "1234" 0) io0
  = (io0, Raise (SecvestApiError (RequestFailedAfterRetries None))).
Proof.
  unfold get_mode, bind.
  rewrite (no_retries_no_request Demo.two_zones
             (SecvestApi_init "https://panel" "1234" 0) "GET"); [reflexivity|].
  simpl. lia.
Defined.

(** [s[:n]] counts characters, not bytes: three two-byte letters out of
    four, and the whole of a text of 200 such letters. *)
Example slice_to_counts_characters :
  Str.slice_to 3 (Str.a_uml ++ Str.o_uml ++ Str.u_uml ++ Str.eszett)
  = Str.a_uml ++ Str.o_uml ++ Str.u_uml
  /\ Str.slice_to 300 (String.concat "" (repeat Str.a_uml 200))
     = String.concat "" (repeat Str.a_uml 200)
  /\ Str.slice_to 3 "abcde" = "abc".
Proof. vm_compute. auto. Qed.

(** X2: an HTTP 4xx answer whose body can be read is fatal: one request, no
    sleep, no retry. 401 and 403 raise the authentication error, 409 the
    conflict error with the first 300 characters of the body, any other 4xx
    the HTTP error with the first 300 characters of the body; 404 counts as
    such an error only when there is a single candidate path. *)
Theorem client_error_status_is_fatal :
  forall (w : World) (self : SecvestApi) (method path : string)
         (rest : list string) (json_payload : option value)
         (expect_json : bool) (io : IO) (status : Z) (text : string)
         (parsed : option value),
    0 < _retries self ->
    400 <= status <= 499 ->
    (status = 404 -> rest = []) ->
    let rq := request_for self method json_payload path in
    http w (requests_made io) rq = Responds status (Body text parsed) ->
    _request_json w self method (path :: rest) json_payload expect_json io
    = (after_request io 1 rq (Responds status (Body text parsed)),
       Raise (SecvestApiError
                (if (status =? 401) || (status =? 403)
                 then AuthFailed status (_url self path)
                 else if status =? 409
                      then Conflict409 (Str.slice_to 300 text)
                      else HttpError status (Str.slice_to 300 text)))).
Proof.
  intros w self method path rest json_payload expect_json io status text parsed
         Hr Hs H404 rq Ho.
  unfold _request_json. rewrite range_positive by assumption.
  cbn [for_attempt]. unfold bind at 1. rewrite for_path_cons. cbv zeta.
  fold rq. rewrite Ho.
  unfold bind at 1. unfold try_except, on_response.
  assert (H1 : (status =? 404) && (1 <? length (path :: rest))%nat = false).
  { destruct (Z.eqb_spec status 404) as [E|E]; [|reflexivity].
    rewrite (H404 E). reflexivity. }
  rewrite H1.
  destruct ((status =? 401) || (status =? 403)) eqn:Hauth; [reflexivity|].
  destruct (status =? 409) eqn:H409; [reflexivity|].
  replace (400 <=? status) with true by (symmetry; apply Z.leb_le; lia).
  replace (status <=? 499) with true by (symmetry; apply Z.leb_le; lia).
  reflexivity.
Qed.

Lemma client_error_status_is_fatal_witness :
  snd (get_zones Demo.unauthorized Demo.the_api (io (Demo.tripped Demo.unauthorized)))
  = Raise (SecvestApiError
             (AuthFailed 401 "https://panel/system/partitions-1/zones/")).
Proof.
  unfold get_zones, bind.
  rewrite (client_error_status_is_fatal Demo.unauthorized Demo.the_api "GET"
             "/system/partitions-1/zones/" ["/system/partitions-1/zones"]
             None true (io (Demo.tripped Demo.unauthorized)) 401 "" None).
  - reflexivity.
  - reflexivity.
  - lia.
  - discriminate.
  - vm_compute. reflexivity.
Defined.

Lemma adds_refl io : adds io io [].
Proof.
  unfold adds. simpl. rewrite app_nil_r, !Nat.add_0_r. auto.
Qed.

Lemma requests_of_app evs1 evs2 :
  requests_of (evs1 ++ evs2) = (requests_of evs1 ++ requests_of evs2)%list.
Proof. apply filter_app. Qed.

Lemma sleeps_of_app evs1 evs2 :
  sleeps_of (evs1 ++ evs2) = (sleeps_of evs1 ++ sleeps_of evs2)%list.
Proof. apply filter_app. Qed.

Lemma adds_trans io1 io2 io3 evs1 evs2 :
  adds io1 io2 evs1 -> adds io2 io3 evs2 -> adds io1 io3 (evs1 ++ evs2).
Proof.
  intros (Ht1 & Hr1 & Hd1 & Hc1) (Ht2 & Hr2 & Hd2 & Hc2). unfold adds.
  rewrite requests_of_app, sleeps_of_app, !length_app.
  rewrite Ht2, Ht1, Hr2, Hr1, Hd2, Hd1, Hc2, Hc1, app_assoc.
  repeat split; lia.
Qed.

Lemma adds_request io attempt rq o :
  adds io (after_request io attempt rq o) [EvRequest attempt rq o].
Proof. unfold adds, after_request. simpl. repeat split; lia. Qed.

Lemma adds_sleep io seconds :
  adds io (after_sleep io seconds) [EvSleep seconds].
Proof. unfold adds, after_sleep. simpl. repeat split; lia. Qed.

Section PathStep.
Context (w : World) (self : SecvestApi) (method : string)
        (paths_list : list string) (json_payload : option value)
        (expect_json : bool).

(** The [async with] body and the handlers leave the outside world alone,
    except for the backoff that ends the attempt. *)
Lemma path_step_cases attempt url o io1 :
  let out := try_except (on_response paths_list expect_json url o)
               (except_path w attempt url) io1 in
  (fst out = io1 /\ forall e, snd out <> Ok (NextAttempt e))
  \/ (exists e seconds, out = (after_sleep io1 seconds, Ok (NextAttempt e))).
Proof.
  cbv zeta.
  unfold try_except, on_response, except_path, _backoff, _read_json, resp_text.
  unfold bind, ret, raise, random_random, asyncio_sleep, after_sleep.
  destruct (backoff_base attempt) as [base|];
    (destruct o as [e|status b];
     [ destruct (is_transient e);
       first [ right; do 2 eexists; reflexivity
             | left; split; [reflexivity | discriminate] ]
     | repeat match goal with
              | |- context [if ?c then _ else _] => destruct c
              end;
       try destruct b as [t [v|]|e];
       try destruct (is_transient e);
       cbn;
       first [ right; do 2 eexists; reflexivity
             | left; split; [reflexivity | discriminate] ] ]).
Qed.

Lemma for_path_adds attempt paths io :
  exists evs,
    adds io (fst (for_path w self method paths_list json_payload expect_json
                    attempt paths io)) evs /\
    (length (requests_of evs) <= length paths)%nat /\
    (length (sleeps_of evs) <= 1)%nat /\
    Forall (request_within self method json_payload [attempt] paths) evs.
Proof.
  revert io. induction paths as [|path rest IH]; intros io.
  - exists []. simpl. split; [apply adds_refl|]. repeat split; auto.
  - rewrite for_path_cons. cbv zeta.
    set (rq := request_for self method json_payload path).
    set (o := http w (requests_made io) rq).
    set (io1 := after_request io attempt rq o).
    assert (Hrq : request_within self method json_payload [attempt] (path :: rest)
                    (EvRequest attempt rq o)).
    { split; [now left|]. exists path. split; [now left | reflexivity]. }
    unfold bind at 1.
    destruct (path_step_cases attempt (_url self path) o io1)
      as [[Hio Hne]|(e & seconds & He)].
    + destruct (try_except _ _ io1) as [io2 [r|m]] eqn:Hstep; simpl in Hio, Hne;
        subst io2.
      * destruct r as [|v|e].
        -- destruct (IH io1) as (evs & Hadds & Hlr & Hls & Hall).
           exists (EvRequest attempt rq o :: evs). split.
           { apply (adds_trans io io1 _ [EvRequest attempt rq o] evs); auto.
             apply adds_request. }
           simpl. repeat split; try lia.
           constructor; auto.
           eapply Forall_impl; [|exact Hall].
           intros [a rq' o'|s]; simpl; auto.
           intros (Ha & p & Hp & Hrq'). split; auto. exists p. auto.
        -- exists [EvRequest attempt rq o]. split; [apply adds_request|].
           simpl. repeat split; try lia. constructor; auto.
        -- exfalso. now apply (Hne e).
      * exists [EvRequest attempt rq o]. split; [apply adds_request|].
        simpl. repeat split; try lia. constructor; auto.
    + rewrite He. cbn [fst ret].
      exists [EvRequest attempt rq o; EvSleep seconds].
      split.
      { apply (adds_trans io io1 _ [EvRequest attempt rq o] [_]).
        - apply adds_request.
        - apply adds_sleep. }
      simpl. repeat split; try lia. constructor; auto. constructor; simpl; auto.
Qed.

Lemma request_within_more attempts attempts' paths ev :
  incl attempts attempts' ->
  request_within self method json_payload attempts paths ev ->
  request_within self method json_payload attempts' paths ev.
Proof.
  intros Hincl. destruct ev as [a rq o|s]; simpl; auto.
  intros (Ha & Hp). split; auto.
Qed.

Lemma for_attempt_adds attempts last_exc io :
  exists evs,
    adds io (fst (for_attempt w self method paths_list json_payload expect_json
                    attempts last_exc io)) evs /\
    (length (requests_of evs) <= length attempts * length paths_list)%nat /\
    (length (sleeps_of evs) <= length attempts)%nat /\
    Forall (request_within self method json_payload attempts paths_list) evs.
Proof.
  revert last_exc io.
  induction attempts as [|attempt rest IH]; intros last_exc io.
  - exists []. simpl. split; [apply adds_refl|]. repeat split; auto.
  - cbn [for_attempt]. unfold bind at 1.
    destruct (for_path_adds attempt paths_list io) as (evs1 & H1 & Hr1 & Hs1 & Hall1).
    assert (Hall1' : Forall (request_within self method json_payload
                               (attempt :: rest) paths_list) evs1).
    { eapply Forall_impl; [|exact Hall1]. intros ev.
      apply request_within_more. intros a [<-|[]]. now left. }
    destruct (for_path _ _ _ _ _ _ _ _ io) as [io1 [r|m]]; cbn [fst] in H1.
    + assert (Hnext : forall last,
                 exists evs,
                   adds io (fst (for_attempt w self method paths_list json_payload
                                   expect_json rest last io1)) evs /\
                   (length (requests_of evs)
                    <= length (attempt :: rest) * length paths_list)%nat /\
                   (length (sleeps_of evs) <= length (attempt :: rest))%nat /\
                   Forall (request_within self method json_payload
                             (attempt :: rest) paths_list) evs).
      { intros last. destruct (IH last io1) as (evs2 & H2 & Hr2 & Hs2 & Hall2).
        exists (evs1 ++ evs2)%list. split; [eapply adds_trans; eauto|].
        rewrite requests_of_app, sleeps_of_app, !length_app. simpl.
        repeat split; try lia.
        apply Forall_app. split; auto.
        eapply Forall_impl; [|exact Hall2]. intros ev.
        apply request_within_more. intros a Ha. now right. }
      destruct r as [v|e|].
      * exists evs1. cbn [fst ret]. split; auto. simpl. repeat split; auto; lia.
      * apply Hnext.
      * apply Hnext.
    + exists evs1. cbn [fst]. split; auto. simpl. repeat split; auto; lia.
Qed.

End PathStep.

Lemma in_range_from_one (retries a : Z) :
  In a (range 1 (retries + 1)) <-> 1 <= a <= retries.
Proof.
  rewrite range_from_one, in_map_iff. split.
  - intros (i & <- & Hi). apply in_seq in Hi. lia.
  - intros Ha. exists (Z.to_nat (a - 1)). split; [lia|]. apply in_seq. lia.
Qed.

(** X3: whatever the panel answers, one call of [_request_json] sends at
    most [retries] times the number of candidate paths requests and sleeps
    at most [retries] times; every request carries the method and payload
    of the call, goes to one of the candidate paths and belongs to an
    attempt between 1 and [retries]. *)
Theorem request_stays_within_budget :
  forall (w : World) (self : SecvestApi) (method : string)
         (paths_list : list string) (json_payload : option value)
         (expect_json : bool) (io : IO),
    exists evs,
      adds io (fst (_request_json w self method paths_list json_payload
                      expect_json io)) evs /\
      (length (requests_of evs)
       <= Z.to_nat (_retries self) * length paths_list)%nat /\
      (length (sleeps_of evs) <= Z.to_nat (_retries self))%nat /\
      Forall (fun ev =>
                match ev with
                | EvRequest attempt rq _ =>
                    1 <= attempt <= _retries self /\
                    exists path,
                      In path paths_list /\
                      rq = request_for self method json_payload path
                | EvSleep _ => True
                end) evs.
Proof.
  intros w self method paths_list json_payload expect_json io.
  unfold _request_json.
  destruct (for_attempt_adds w self method paths_list json_payload expect_json
              (range 1 (_retries self + 1)) None io)
    as (evs & Hadds & Hr & Hs & Hall).
  exists evs. split; [exact Hadds|].
  assert (Hlen : length (range 1 (_retries self + 1)) = Z.to_nat (_retries self)).
  { rewrite range_from_one, length_map, length_seq. reflexivity. }
  rewrite Hlen in Hr, Hs. repeat split; auto.
  eapply Forall_impl; [|exact Hall].
  intros [a rq o|s]; simpl; auto.
  intros (Ha & Hp). split; auto. now apply in_range_from_one.
Qed.

Section EveryPathMissing.
Context (w : World) (self : SecvestApi) (method : string)
        (paths_list : list string) (json_payload : option value)
        (expect_json : bool).
Hypothesis several : (1 < length paths_list)%nat.
Hypothesis always_404 : forall n rq, exists b, http w n rq = Responds 404 b.

Lemma for_path_all_missing attempt paths io :
  exists evs,
    for_path w self method paths_list json_payload expect_json attempt paths io
    = ({| trace := trace io ++ evs;
          requests_made := requests_made io + length paths;
          randoms_drawn := randoms_drawn io;
          clock_reads := clock_reads io |}, Ok PathsExhausted)
    /\ length evs = length paths /\ sleeps_of evs = [].
Proof.
  revert io. induction paths as [|path rest IH]; intros io.
  - exists []. simpl. rewrite app_nil_r, Nat.add_0_r. now destruct io.
  - destruct (always_404 (requests_made io)
                (request_for self method json_payload path)) as [b Hb].
    rewrite (for_path_not_found w self method paths_list json_payload
               expect_json attempt path rest io b several Hb).
    destruct (IH (after_request io attempt
                    (request_for self method json_payload path)
                    (Responds 404 b))) as (evs & -> & Hlen & Hsl).
    exists (EvRequest attempt (request_for self method json_payload path)
              (Responds 404 b) :: evs).
    cbn [after_request trace requests_made randoms_drawn clock_reads length].
    rewrite <- app_assoc. cbn [app]. split; [|split].
    + do 2 f_equal. lia.
    + now rewrite Hlen.
    + exact Hsl.
Qed.

Lemma for_attempt_all_missing attempts last_exc io :
  exists evs,
    for_attempt w self method paths_list json_payload expect_json
      attempts last_exc io
    = ({| trace := trace io ++ evs;
          requests_made := requests_made io + length attempts * length paths_list;
          randoms_drawn := randoms_drawn io;
          clock_reads := clock_reads io |},
       Raise (SecvestApiError (RequestFailedAfterRetries last_exc)))
    /\ length evs = (length attempts * length paths_list)%nat
    /\ sleeps_of evs = [].
Proof.
  revert io. induction attempts as [|attempt rest IH]; intros io.
  - exists []. simpl. rewrite app_nil_r, Nat.add_0_r. now destruct io.
  - cbn [for_attempt]. unfold bind at 1.
    destruct (for_path_all_missing attempt paths_list io) as (evs1 & -> & Hl1 & Hs1).
    destruct (IH {| trace := trace io ++ evs1;
                    requests_made := requests_made io + length paths_list;
                    randoms_drawn := randoms_drawn io;
                    clock_reads := clock_reads io |}) as (evs2 & -> & Hl2 & Hs2).
    exists (evs1 ++ evs2)%list.
    cbn [trace requests_made randoms_drawn clock_reads length].
    rewrite <- app_assoc, sleeps_of_app, Hs1, Hs2, length_app, Hl1, Hl2.
    split; [|split; [lia | reflexivity]].
    do 2 f_equal. lia.
Qed.

End EveryPathMissing.

(** X4: when there are several candidate paths and the panel answers 404
    to every request, each attempt asks every candidate once and no attempt
    sleeps: [retries] times the number of paths requests in a row, no
    backoff, and the final error wraps no transport error. *)
Theorem every_path_missing_is_retried_without_backoff :
  forall (w : World) (self : SecvestApi) (method : string)
         (paths_list : list string) (json_payload : option value)
         (expect_json : bool) (io : IO),
    (1 < length paths_list)%nat ->
    (forall n rq, exists b, http w n rq = Responds 404 b) ->
    let out := _request_json w self method paths_list json_payload expect_json io in
    exists evs,
      trace (fst out) = (trace io ++ evs)%list /\
      length evs = (Z.to_nat (_retries self) * length paths_list)%nat /\
      sleeps_of evs = [] /\
      randoms_drawn (fst out) = randoms_drawn io /\
      snd out = Raise (SecvestApiError (RequestFailedAfterRetries None)).
Proof.
  intros w self method paths_list json_payload expect_json io Hlen H404 out.
  subst out. unfold _request_json.
  destruct (for_attempt_all_missing w self method paths_list json_payload
              expect_json Hlen H404 (range 1 (_retries self + 1)) None io)
    as (evs & -> & Hl & Hs).
  exists evs. cbn [fst snd trace randoms_drawn].
  rewrite range_from_one, length_map, length_seq in Hl. auto.
Qed.

Lemma every_path_missing_is_retried_without_backoff_witness :
  requests_made
    (fst (get_mode Cases.nothing_there Demo.the_api io0)) = 4%nat
  /\ snd (get_mode Cases.nothing_there Demo.the_api io0)
     = Raise (SecvestApiError (RequestFailedAfterRetries None)).
Proof.
  destruct (every_path_missing_is_retried_without_backoff Cases.nothing_there
              Demo.the_api "GET"
              ["/system/partitions-1/state"; "/system/partitions-1/state/"]
              None true io0) as (evs & _ & _ & _ & _ & Hout).
  - simpl. lia.
  - intros n rq. eexists. reflexivity.
  - split; [vm_compute; reflexivity|].
    unfold get_mode, bind.
    destruct (_request_json _ _ _ _ _ _ io0) as [io1 r]. cbn [snd] in Hout.
    now rewrite Hout.
Defined.

Section RetryThenAnswer.
Context (w : World) (self : SecvestApi) (method : string)
        (path : string) (rest : list string) (json_payload : option value)
        (expect_json : bool).

Lemma for_attempt_answer attempt later last_exc io status text v :
  let rq := request_for self method json_payload path in
  http w (requests_made io) rq = Responds status (Body text (Some v)) ->
  status < 400 ->
  for_attempt w self method (path :: rest) json_payload expect_json
    (attempt :: later) last_exc io
  = (after_request io attempt rq (Responds status (Body text (Some v))),
     Ok (if expect_json then v else VNone)).
Proof.
  intros rq Ho Hs. cbn [for_attempt]. unfold bind at 1.
  rewrite for_path_cons. cbv zeta. fold rq. rewrite Ho.
  unfold bind at 1. unfold try_except, on_response.
  replace (status =? 404) with false by (symmetry; apply Z.eqb_neq; lia).
  replace (status =? 401) with false by (symmetry; apply Z.eqb_neq; lia).
  replace (status =? 403) with false by (symmetry; apply Z.eqb_neq; lia).
  replace (status =? 409) with false by (symmetry; apply Z.eqb_neq; lia).
  replace (400 <=? status) with false by (symmetry; apply Z.leb_gt; lia).
  replace (500 <=? status) with false by (symmetry; apply Z.leb_gt; lia).
  cbn [andb orb]. destruct expect_json; reflexivity.
Qed.

End RetryThenAnswer.

(** X5: a request rides out transient failures. When the first [k]
    exchanges are transport failures, with [k] below the retry budget and
    at most 1024 (so that every backoff can be computed), and the next one
    is answered below 400 with a JSON body, [_request_json] returns that
    JSON (or [None] when no JSON is expected) after [k] failed attempts,
    each with its backoff, and one more request to the first candidate
    path. *)
Theorem request_recovers_after_transient_failures :
  forall (w : World) (self : SecvestApi) (method path : string)
         (rest : list string) (json_payload : option value)
         (expect_json : bool) (io : IO) (k : nat) (status : Z)
         (text : string) (v : value),
    let rq := request_for self method json_payload path in
    let failure n :=
      transport_failure (1 <? length (path :: rest))%nat expect_json
        (http w n rq) in
    (Z.of_nat k < _retries self) ->
    (k <= 1024)%nat ->
    (forall i, (i < k)%nat -> failure (requests_made io + i)%nat <> None) ->
    http w (requests_made io + k) rq = Responds status (Body text (Some v)) ->
    status < 400 ->
    let out := _request_json w self method (path :: rest) json_payload
                 expect_json io in
    snd out = Ok (if expect_json then v else VNone) /\
    trace (fst out)
    = (trace io ++ flat_map (failed_attempt w io rq) (seq 0 k)
       ++ [EvRequest (1 + Z.of_nat k) rq (Responds status (Body text (Some v)))])%list.
Proof.
  intros w self method path rest json_payload expect_json io k status text v rq
         failure Hk Hlast Hfail Hans Hs out.
  subst out. unfold _request_json. rewrite range_from_one.
  replace (Z.to_nat (_retries self))
    with (k + S (Z.to_nat (_retries self) - S k))%nat by lia.
  rewrite seq_app, map_app. cbn [seq map Nat.add].
  rewrite (for_attempt_failures_first w self method path rest json_payload
             expect_json k 0 io None _ Hlast Hfail).
  erewrite for_attempt_answer; [|exact Hans|exact Hs].
  cbn [fst snd after_request trace]. split; [reflexivity|].
  rewrite <- app_assoc. reflexivity.
Qed.

Lemma request_recovers_after_transient_failures_witness :
  get_zones Cases.slow_start Demo.the_api io0
  = (fst (get_zones Cases.slow_start Demo.the_api io0),
     Ok [Demo.zone "Haus.Tuer" "closed"])
  /\ length (sleeps_of (trace (fst (get_zones Cases.slow_start Demo.the_api io0))))
     = 1%nat.
Proof.
  split; [|vm_compute; reflexivity].
  unfold get_zones, bind.
  pose proof (request_recovers_after_transient_failures Cases.slow_start
                Demo.the_api "GET" "/system/partitions-1/zones/"
                ["/system/partitions-1/zones"] None true io0 1 200 ""
                (VList [Demo.zone "Haus.Tuer" "closed"])) as H.
  cbv zeta in H.
  destruct H as [H _].
  - reflexivity.
  - lia.
  - intros i Hi. assert (i = 0)%nat as -> by lia. vm_compute. discriminate.
  - vm_compute. reflexivity.
  - lia.
  - destruct (_request_json _ _ _ _ _ _ io0) as [io1 r]. cbn [snd] in H.
    now rewrite H.
Defined.

(** X6: the backoff doubles exactly until it overflows. For an attempt
    from 1 to 1024, [_backoff] draws one random number [r] and returns the
    sum of two doubles: [1.2 * 2 ** (attempt - 1)], which is computed
    without rounding (the digits of the double [1.2] with the exponent
    [attempt - 53]), and the jitter [r * 0.4]. From attempt 1025 on,
    [2 ** (attempt - 1)] is too large to convert to a float: [_backoff]
    raises [OverflowError] and draws nothing. *)
Theorem backoff_doubles_until_it_overflows :
  forall (w : World) (attempt : Z) (io : IO),
    (1 <= attempt <= 1024 ->
     backoff_base attempt
     = Some (S754_finite false 5404319552844595 (attempt - 53)) /\
     _backoff w attempt io
     = ({| trace := trace io;
           requests_made := requests_made io;
           randoms_drawn := S (randoms_drawn io);
           clock_reads := clock_reads io |},
        Ok (Float.add (S754_finite false 5404319552844595 (attempt - 53))
              (Float.mul (random w (randoms_drawn io)) DEFAULT_JITTER_S)))) /\
    (1025 <= attempt ->
     backoff_base attempt = None /\
     _backoff w attempt io = (io, Raise (Client OverflowError))).
Proof.
  intros w attempt io. split; intros Ha.
  - split; [now apply backoff_base_ok|]. now apply _backoff_ok.
  - split; [now apply backoff_base_overflow|]. now apply _backoff_overflow.
Qed.

(** The third backoff with a draw of 0.25: 4.8 + 0.1 seconds, as doubles. *)
Lemma backoff_doubles_until_it_overflows_witness :
  snd (_backoff (Demo.scripted []) 3 io0)
  = Ok (Float.add (S754_finite false 5404319552844595 (-50))
          (Float.mul (Float.round 1 (-2)) DEFAULT_JITTER_S))
  /\ snd (_backoff (Demo.scripted []) 1025 io0) = Raise (Client OverflowError).
Proof.
  destruct (backoff_doubles_until_it_overflows (Demo.scripted []) 3 io0)
    as [Hlow _].
  destruct (backoff_doubles_until_it_overflows (Demo.scripted []) 1025 io0)
    as [_ Hhigh].
  destruct Hlow as [_ Hrun]; [lia|]. destruct Hhigh as [_ Hraise]; [lia|].
  rewrite Hrun, Hraise. split; reflexivity.
Defined.

Lemma requests_within_method self method json_payload attempts paths evs :
  Forall (request_within self method json_payload attempts paths) evs ->
  Forall (fun ev =>
            match ev with
            | EvRequest _ rq _ =>
                rq_method rq = method /\ rq_json rq = json_payload /\
                exists path, In path paths /\ rq_url rq = _url self path
            | EvSleep _ => True
            end) evs.
Proof.
  apply Forall_impl. intros [a rq o|s]; auto.
  intros (_ & path & Hp & ->). simpl. eauto.
Qed.

(** X7: the three operations only talk to their own resource. [get_mode]
    and [get_zones] send GET requests without a body to the state and the
    zones path; [set_mode] sends PUT requests to the partition path, each
    with the new state and the user code as payload. None of them reads the
    clock. *)
Theorem operations_use_their_own_resource :
  forall (w : World) (self : SecvestApi) (io : IO) (new_state : string),
    (exists evs,
        adds io (fst (get_mode w self io)) evs /\
        Forall (fun ev =>
                  match ev with
                  | EvRequest _ rq _ =>
                      rq_method rq = "GET" /\ rq_json rq = None /\
                      (rq_url rq = _url self "/system/partitions-1/state" \/
                       rq_url rq = _url self "/system/partitions-1/state/")
                  | EvSleep _ => True
                  end) evs) /\
    (exists evs,
        adds io (fst (get_zones w self io)) evs /\
        Forall (fun ev =>
                  match ev with
                  | EvRequest _ rq _ =>
                      rq_method rq = "GET" /\ rq_json rq = None /\
                      (rq_url rq = _url self "/system/partitions-1/zones/" \/
                       rq_url rq = _url self "/system/partitions-1/zones")
                  | EvSleep _ => True
                  end) evs) /\
    (exists evs,
        adds io (fst (set_mode w self new_state io)) evs /\
        Forall (fun ev =>
                  match ev with
                  | EvRequest _ rq _ =>
                      rq_method rq = "PUT" /\
                      rq_json rq
                      = Some (VDict [("state", VStr new_state);
                                     ("code", VStr (_user_code self))]) /\
                      (rq_url rq = _url self "/system/partitions-1/" \/
                       rq_url rq = _url self "/system/partitions-1")
                  | EvSleep _ => True
                  end) evs).
Proof.
  intros w self io new_state.
  assert (Hgen : forall method paths json_payload expect_json,
             exists evs,
               adds io (fst (_request_json w self method paths json_payload
                               expect_json io)) evs /\
               Forall (fun ev =>
                         match ev with
                         | EvRequest _ rq _ =>
                             rq_method rq = method /\ rq_json rq = json_payload /\
                             exists path, In path paths /\ rq_url rq = _url self path
                         | EvSleep _ => True
                         end) evs).
  { intros method paths json_payload expect_json. unfold _request_json.
    destruct (for_attempt_adds w self method paths json_payload expect_json
                (range 1 (_retries self + 1)) None io)
      as (evs & Hadds & _ & _ & Hall).
    exists evs. split; [exact Hadds|].
    eapply requests_within_method; eauto. }
  split; [|split].
  - destruct (Hgen "GET" ["/system/partitions-1/state"; "/system/partitions-1/state/"]
                None true) as (evs & Hadds & Hall).
    exists evs. split.
    + unfold get_mode, bind.
      destruct (_request_json _ _ _ _ _ _ io) as [io1 [data|m]]; cbn [fst] in *; auto.
      destruct data as [| | | | |d]; auto.
      destruct (get "state" d) as [[| | |s| |]|]; auto.
    + eapply Forall_impl; [|exact Hall]. intros [a rq o|s]; auto.
      intros (Hm & Hj & path & [<-|[<-|[]]] & Hu); auto.
  - destruct (Hgen "GET" ["/system/partitions-1/zones/"; "/system/partitions-1/zones"]
                None true) as (evs & Hadds & Hall).
    exists evs. split.
    + unfold get_zones, bind.
      destruct (_request_json _ _ _ _ _ _ io) as [io1 [data|m]]; cbn [fst] in *; auto.
      destruct data; auto.
    + eapply Forall_impl; [|exact Hall]. intros [a rq o|s]; auto.
      intros (Hm & Hj & path & [<-|[<-|[]]] & Hu); auto.
  - destruct (Hgen "PUT" ["/system/partitions-1/"; "/system/partitions-1"]
                (Some (VDict [("state", VStr new_state);
                              ("code", VStr (_user_code self))])) false)
      as (evs & Hadds & Hall).
    exists evs. split.
    + unfold set_mode, bind.
      destruct (_request_json _ _ _ _ _ _ io) as [io1 [data|m]]; cbn [fst] in *; auto.
    + eapply Forall_impl; [|exact Hall]. intros [a rq o|s]; auto.
      intros (Hm & Hj & path & [<-|[<-|[]]] & Hu); auto.
Qed.

(** ** More on the coordinator *)

Section Polling.
Context (w : World).

(** The [try] block of a tick, by the outcome of its API calls. *)
Lemma poll_eq h :
  poll w h
  = let c := coordinator h in
    match get_mode w (api c) (io h) with
    | (io1, Raise e) => (with_io h io1, Raise e)
    | (io1, Ok raw) =>
        if _zones_interval c <=? advanced_tick c then
          match get_zones w (api c) io1 with
          | (io2, Raise e) =>
              ({| coordinator := set_zones_tick 0 c; io := io2;
                  _debounced_refresh := _debounced_refresh h |}, Raise e)
          | (io2, Ok zones_payload) =>
              ({| coordinator := healthy (set_zones_tick 0 c); io := io2;
                  _debounced_refresh := _debounced_refresh h |},
               Ok (_compose_data (Some raw) (Some (translation raw))
                     (build_zones_dict zones_payload (Some (zone_name_map c)))
                     true None))
          end
        else
          ({| coordinator := healthy (set_zones_tick (advanced_tick c) c);
              io := io1;
              _debounced_refresh := _debounced_refresh h |},
           Ok (_compose_data (Some raw) (Some (translation raw))
                 (carried_zones_of c) true None))
    end.
Proof.
  cbv zeta. unfold poll. unfold bind at 1. rewrite call_api_eq.
  destruct (get_mode w (api (coordinator h)) (io h)) as [io1 [raw|m]];
    [|reflexivity].
  unfold bind, self_get, self_set, gets, modify, ret. simpl.
  unfold advanced_tick.
  destruct (_ <=? _).
  - rewrite call_api_eq. simpl.
    destruct (get_zones w (api (coordinator h)) io1) as [io2 [payload|m]];
      reflexivity.
  - unfold carried_zones_of. destruct (data (coordinator h)) as [d|]; [|reflexivity].
    now rewrite carried_zones.
Qed.

End Polling.

Lemma tick_eq {E} w h :
  ~ (clock w (clock_reads (io h)) < _breaker_until (coordinator h))%Q ->
  async_refresh (E := E) w h
  = match poll w (tick_start w h) with
    | (h1, Ok d) =>
        ({| coordinator := set_data (Some d) (coordinator h1); io := io h1;
            _debounced_refresh := idle |}, Ok tt)
    | (h1, Raise err) =>
        match data (coordinator h1) with
        | Some d =>
            ({| coordinator :=
                  set_data (Some (degraded d (Some (Repr err))))
                    (coordinator (after_failure w err h1));
                io := io (after_failure w err h1);
                _debounced_refresh := idle |}, Ok tt)
        | None => (with_debouncer (after_failure w err h1) idle, Ok tt)
        end
    end.
Proof.
  intros Hclosed. rewrite async_refresh_eq, _async_update_data_eq.
  rewrite (Qlt_bool_false _ _ Hclosed).
  destruct (poll w (tick_start w h)) as [h1 [d|err]]; [reflexivity|].
  destruct (data (coordinator h1)); reflexivity.
Qed.

Lemma after_failure_fields w err h :
  let c := coordinator h in
  let c' := coordinator (after_failure w err h) in
  _zones_tick c' = _zones_tick c /\
  _consecutive_failures c' = _consecutive_failures c + 1 /\
  _last_error c' = Some (Repr err) /\
  _breaker_threshold c' = _breaker_threshold c /\
  (_breaker_threshold c <= _consecutive_failures c + 1 ->
   _breaker_until c'
   = (clock w (clock_reads (io h)) + inject_Z (_breaker_cooldown c))%Q) /\
  (_consecutive_failures c + 1 < _breaker_threshold c ->
   _breaker_until c' = _breaker_until c /\ io (after_failure w err h) = io h).
Proof.
  cbv zeta. unfold after_failure.
  destruct (Z.leb_spec (_breaker_threshold (coordinator h))
              (_consecutive_failures (coordinator h) + 1));
    cbn; repeat split; intros; try reflexivity; lia.
Qed.

(** X8: a tick that is not yet due for zones asks the panel for the mode
    only. After the mode is read, the snapshot published holds that mode
    with its translation, the zones of the previous snapshot, [available =
    true] and no error; the zones counter has advanced by the poll interval
    and the failure counter, breaker and last error are reset. *)
Theorem tick_carries_zones_until_due :
  forall (w : World) (h : Hass) (io1 : IO) (raw : string),
    let c := coordinator h in
    ~ (clock w (clock_reads (io h)) < _breaker_until c)%Q ->
    get_mode w (api c) (io (tick_start w h)) = (io1, Ok raw) ->
    advanced_tick c < _zones_interval c ->
    let h' := run w ScheduledTick h in
    io h' = io1 /\
    data (coordinator h')
    = Some (_compose_data (Some raw) (Some (translation raw))
              (carried_zones_of c) true None) /\
    _zones_tick (coordinator h') = advanced_tick c /\
    _consecutive_failures (coordinator h') = 0 /\
    _breaker_until (coordinator h') = 0%Q /\
    _last_error (coordinator h') = None.
Proof.
  intros w h io1 raw c Hclosed Hmode Hdue h'. subst h'. unfold run.
  rewrite (tick_eq w h Hclosed), poll_eq. cbv zeta.
  change (coordinator (tick_start w h)) with c. rewrite Hmode.
  apply Z.leb_gt in Hdue. rewrite Hdue. cbn. repeat split.
Qed.

Lemma tick_carries_zones_until_due_witness :
  _zones_tick (coordinator (run Demo.recovering ScheduledTick Demo.fresh)) = 30
  /\ requests_made (io (run Demo.recovering ScheduledTick Demo.fresh)) = 1%nat.
Proof.
  pose proof (tick_carries_zones_until_due Demo.recovering Demo.fresh
                (fst (get_mode Demo.recovering Demo.the_api
                        (io (tick_start Demo.recovering Demo.fresh))))
                "unset") as H.
  cbv zeta in H. destruct H as (Hio & _ & Htick & _).
  - vm_compute. discriminate.
  - vm_compute. reflexivity.
  - vm_compute. reflexivity.
  - split; [exact Htick|]. rewrite Hio. vm_compute. reflexivity.
Defined.

(** X9: a tick that is due for zones asks for the mode and then for the
    zones. When both answer, the snapshot published holds the new mode and
    the zones built from the new payload, and the zones counter restarts
    from 0. *)
Theorem due_tick_fetches_zones :
  forall (w : World) (h : Hass) (io1 io2 : IO) (raw : string)
         (zones_payload : list value),
    let c := coordinator h in
    ~ (clock w (clock_reads (io h)) < _breaker_until c)%Q ->
    get_mode w (api c) (io (tick_start w h)) = (io1, Ok raw) ->
    _zones_interval c <= advanced_tick c ->
    get_zones w (api c) io1 = (io2, Ok zones_payload) ->
    let h' := run w ScheduledTick h in
    io h' = io2 /\
    data (coordinator h')
    = Some (_compose_data (Some raw) (Some (translation raw))
              (build_zones_dict zones_payload (Some (zone_name_map c)))
              true None) /\
    _zones_tick (coordinator h') = 0 /\
    _consecutive_failures (coordinator h') = 0 /\
    _breaker_until (coordinator h') = 0%Q /\
    _last_error (coordinator h') = None.
Proof.
  intros w h io1 io2 raw zones_payload c Hclosed Hmode Hdue Hzones h'.
  subst h'. unfold run.
  rewrite (tick_eq w h Hclosed), poll_eq. cbv zeta.
  change (coordinator (tick_start w h)) with c. rewrite Hmode.
  apply Z.leb_le in Hdue. rewrite Hdue, Hzones. cbn. repeat split.
Qed.

Lemma due_tick_fetches_zones_witness :
  exists d,
    data (coordinator (run Cases.mode_then_zones ScheduledTick Cases.zones_due))
    = Some d
    /\ keys (zones d) = ["Haus_Tuer"]
    /\ _zones_tick (coordinator (run Cases.mode_then_zones ScheduledTick Cases.zones_due))
       = 0.
Proof.
  pose proof (due_tick_fetches_zones Cases.mode_then_zones Cases.zones_due
                (fst (get_mode Cases.mode_then_zones Demo.the_api
                        (io (tick_start Cases.mode_then_zones Cases.zones_due))))
                (fst (get_zones Cases.mode_then_zones Demo.the_api
                        (fst (get_mode Cases.mode_then_zones Demo.the_api
                                (io (tick_start Cases.mode_then_zones
                                       Cases.zones_due))))))
                "set" [Demo.zone "Haus.Tuer" "open"]) as H.
  cbv zeta in H. destruct H as (_ & Hd & Htick & _).
  - vm_compute. discriminate.
  - vm_compute. reflexivity.
  - vm_compute. discriminate.
  - vm_compute. reflexivity.
  - eexists. split; [exact Hd|]. split; [vm_compute; reflexivity | exact Htick].
Defined.

(** X10: when a due tick reads the mode but the zones request fails, the
    mode just read is not published: the tick counts as failed, the old
    snapshot comes back marked unavailable with the error, and the zones
    counter has already restarted from 0, so the zones are next asked for a
    full zones interval later. *)
Theorem failed_zones_fetch_restarts_the_interval :
  forall (w : World) (h : Hass) (io1 io2 : IO) (raw : string) (e : exn),
    let c := coordinator h in
    ~ (clock w (clock_reads (io h)) < _breaker_until c)%Q ->
    get_mode w (api c) (io (tick_start w h)) = (io1, Ok raw) ->
    _zones_interval c <= advanced_tick c ->
    get_zones w (api c) io1 = (io2, Raise e) ->
    let h' := run w ScheduledTick h in
    _zones_tick (coordinator h') = 0 /\
    _consecutive_failures (coordinator h') = _consecutive_failures c + 1 /\
    _last_error (coordinator h') = Some (Repr e) /\
    data (coordinator h')
    = match data c with
      | Some d => Some (degraded d (Some (Repr e)))
      | None => None
      end.
Proof.
  intros w h io1 io2 raw e c Hclosed Hmode Hdue Hzones h'.
  subst h'. unfold run.
  rewrite (tick_eq w h Hclosed), poll_eq. cbv zeta.
  change (coordinator (tick_start w h)) with c. rewrite Hmode.
  apply Z.leb_le in Hdue. rewrite Hdue, Hzones.
  set (h1 := {| coordinator := set_zones_tick 0 c; io := io2 |}).
  destruct (after_failure_fields w e h1)
    as (Ht & Hf & He & _).
  pose proof (after_failure_data w e h1) as Hd.
  change (data (coordinator h1)) with (data c) in *.
  destruct (data c) as [d|]; cbn [fst coordinator]; auto.
Qed.

Lemma failed_zones_fetch_restarts_the_interval_witness :
  _zones_tick (coordinator (run Cases.mode_only ScheduledTick Cases.zones_due)) = 0
  /\ raw_mode_of (coordinator (run Cases.mode_only ScheduledTick Cases.zones_due))
     = Some "unset".
Proof.
  pose proof (failed_zones_fetch_restarts_the_interval Cases.mode_only
                Cases.zones_due
                (fst (get_mode Cases.mode_only Demo.the_api
                        (io (tick_start Cases.mode_only Cases.zones_due))))
                (fst (get_zones Cases.mode_only Demo.the_api
                        (fst (get_mode Cases.mode_only Demo.the_api
                                (io (tick_start Cases.mode_only Cases.zones_due))))))
                "set"
                (SecvestApiError (RequestFailedAfterRetries (Some TimeoutError))))
    as H.
  cbv zeta in H. destruct H as (Htick & _ & _ & Hd).
  - vm_compute. discriminate.
  - vm_compute. reflexivity.
  - vm_compute. discriminate.
  - vm_compute. reflexivity.
  - split; [exact Htick|]. unfold raw_mode_of. rewrite Hd. reflexivity.
Defined.

Lemma poll_raises_health w h h1 err :
  poll w h = (h1, Raise err) ->
  _breaker_until (coordinator h1) = _breaker_until (coordinator h) /\
  _consecutive_failures (coordinator h1) = _consecutive_failures (coordinator h) /\
  _breaker_threshold (coordinator h1) = _breaker_threshold (coordinator h) /\
  data (coordinator h1) = data (coordinator h) /\
  zone_name_map (coordinator h1) = zone_name_map (coordinator h).
Proof.
  rewrite poll_eq. cbv zeta.
  destruct (get_mode w (api (coordinator h)) (io h)) as [io1 [raw|m]].
  - destruct (_ <=? _).
    + destruct (get_zones w (api (coordinator h)) io1) as [io2 [payload|m]].
      * discriminate.
      * intros [= <- <-]. cbn. auto.
    + discriminate.
  - intros [= <- <-]. cbn. auto.
Qed.

(** X11: a failed tick that leaves the failure count below the threshold
    counts the failure and keeps its error, and does nothing else: the
    breaker timestamp stays as it was and the clock is not read again. *)
Theorem failure_below_threshold_leaves_breaker :
  forall (w : World) (h h1 : Hass) (err : exn),
    let c := coordinator h in
    ~ (clock w (clock_reads (io h)) < _breaker_until c)%Q ->
    poll w (tick_start w h) = (h1, Raise err) ->
    _consecutive_failures c + 1 < _breaker_threshold c ->
    let h2 := fst (_async_update_data w h) in
    _consecutive_failures (coordinator h2) = _consecutive_failures c + 1 /\
    _last_error (coordinator h2) = Some (Repr err) /\
    _breaker_until (coordinator h2) = _breaker_until c /\
    io h2 = io h1.
Proof.
  intros w h h1 err c Hclosed Hpoll Hbelow h2. subst h2 c.
  destruct (poll_raises_health w _ _ _ Hpoll) as (Hb & Hf & Ht & _).
  change (coordinator (tick_start w h)) with (coordinator h) in Hb, Hf, Ht.
  rewrite _async_update_data_eq, (Qlt_bool_false _ _ Hclosed), Hpoll.
  cbn [fst].
  destruct (after_failure_fields w err h1) as (_ & Hf' & He & _ & _ & Hlow).
  rewrite Hf, Ht in Hlow. destruct (Hlow Hbelow) as [Hb' Hio].
  rewrite Hf', He, Hb', Hio, Hf, Hb. auto.
Qed.

Lemma failure_below_threshold_leaves_breaker_witness :
  _consecutive_failures
    (coordinator
       (fst (_async_update_data Demo.recovering
               (run Demo.recovering ScheduledTick Demo.fresh)))) = 1
  /\ _breaker_until
       (coordinator
          (fst (_async_update_data Demo.recovering
                  (run Demo.recovering ScheduledTick Demo.fresh)))) = 0%Q.
Proof.
  pose proof (failure_below_threshold_leaves_breaker Demo.recovering
                (run Demo.recovering ScheduledTick Demo.fresh)
                (fst (poll Demo.recovering
                        (tick_start Demo.recovering
                           (run Demo.recovering ScheduledTick Demo.fresh))))
                (SecvestApiError (RequestFailedAfterRetries (Some TimeoutError))))
    as H.
  cbv zeta in H. destruct H as (Hf & _ & Hb & _).
  - vm_compute. discriminate.
  - vm_compute. reflexivity.
  - vm_compute. reflexivity.
  - split; [exact Hf | exact Hb].
Defined.

(** ** Invariants through the commands *)

Section CommandsKeep.
Context (w : World) (I : SecvestCoordinator -> Prop).
Hypothesis forced_refresh_keeps :
  forall h, I (coordinator h) ->
            I (coordinator (fst (async_refresh_zones_now w h))).
Hypothesis tick_keeps :
  forall h, I (coordinator h) ->
            I (coordinator (fst (async_refresh (E := exn) w h))).

Lemma async_refresh_any_exn {E E'} h :
  fst (async_refresh (E := E) w h) = fst (async_refresh (E := E') w h).
Proof.
  rewrite !async_refresh_eq.
  now destruct (_async_update_data w h) as [h1 [d|e]].
Qed.

Lemma kept_forced_refresh : keeps (holds I) any (async_refresh_zones_now w).
Proof.
  intros h Hh. split; [now apply forced_refresh_keeps | exact (fun _ _ => Logic.I)].
Qed.

Lemma kept_tick {E} : keeps (holds I) any (async_refresh (E := E) w).
Proof.
  intros h Hh. split; [|exact (fun _ _ => Logic.I)].
  unfold holds. rewrite (async_refresh_any_exn (E' := exn)).
  now apply tick_keeps.
Qed.

Lemma kept_request_refresh {E} :
  keeps (holds I) any (async_request_refresh (E := E) w).
Proof.
  unfold async_request_refresh.
  eapply keeps_bind with (Q := any); [now apply keeps_gets|].
  intros d _. destruct (_timer_task d); [apply keeps_debouncer_set|].
  eapply keeps_bind; [apply kept_tick|].
  intros _ _. apply keeps_debouncer_set.
Qed.

Lemma kept_timer {E} :
  keeps (holds I) any (debouncer_timer_finish (E := E) w).
Proof.
  unfold debouncer_timer_finish.
  eapply keeps_bind with (Q := any); [now apply keeps_gets|].
  intros d _. destruct (_timer_task d); [|now apply keeps_ret].
  destruct (_execute_at_end_of_timer d); [|apply keeps_debouncer_set].
  eapply keeps_bind; [apply keeps_debouncer_set|]. intros _ _.
  eapply keeps_bind; [apply kept_tick|].
  intros _ _. apply keeps_debouncer_set.
Qed.

Lemma kept__set_mode mode : keeps (holds I) any (_set_mode w mode).
Proof.
  unfold _set_mode. apply keeps_try_except.
  - eapply keeps_bind; [apply keeps_call_api | intros ? _].
    apply kept_request_refresh.
  - intros [[]|]; apply keeps_raise.
Qed.

Lemma kept__arm mode : keeps (holds I) any (_arm_with_live_zone_refresh w mode).
Proof.
  unfold _arm_with_live_zone_refresh.
  eapply keeps_bind.
  { apply keeps_try_except; [apply kept_forced_refresh|].
    intros e. now apply keeps_ret. }
  intros _ _.
  eapply keeps_bind; [apply keeps_self_get_any | intros d _].
  destruct d as [d|].
  - destruct (nonempty _); [apply keeps_raise | apply kept__set_mode].
  - apply kept__set_mode.
Qed.

Lemma kept_handle_set_mode mode : keeps (holds I) any (handle_set_mode w mode).
Proof.
  unfold handle_set_mode. destruct mode as [m|]; [|apply keeps_raise].
  destruct (negb _); [apply keeps_raise|].
  eapply keeps_bind.
  { apply keeps_map_exn. apply kept_forced_refresh. }
  intros _ _.
  eapply keeps_bind; [apply keeps_self_get_any | intros d _].
  destruct d as [d|]; [|apply keeps_raise].
  destruct (_ && _); [apply keeps_raise|].
  eapply keeps_bind.
  { apply keeps_try_except; [apply keeps_call_api|].
    intros [[]|]; apply keeps_raise. }
  intros _ _. apply kept_request_refresh.
Qed.

Lemma kept_run op h : holds I h -> holds I (run w op h).
Proof.
  intros Hh. destruct op; simpl.
  - now apply tick_keeps.
  - now apply (kept_request_refresh (E := exn)).
  - now apply forced_refresh_keeps.
  - now apply kept_handle_set_mode.
  - now apply kept__arm.
  - now apply kept__arm.
  - now apply kept__set_mode.
  - now apply (kept_timer (E := exn)).
Qed.

End CommandsKeep.

Lemma breaker_justified_after_failure w err h :
  breaker_justified (coordinator h) ->
  breaker_justified (coordinator (after_failure w err h)).
Proof.
  intros [H0 Hb].
  destruct (after_failure_fields w err h) as (_ & Hf & _ & Ht & _ & Hlow).
  unfold breaker_justified. rewrite Hf, Ht. split; [lia|].
  intros Hne.
  destruct (Z.leb_spec (_breaker_threshold (coordinator h))
              (_consecutive_failures (coordinator h) + 1)) as [Hle|Hlt]; auto.
  destruct (Hlow Hlt) as [Hsame _]. rewrite Hsame in Hne.
  specialize (Hb Hne). lia.
Qed.

Lemma built_entry_keyed m kv : built_entry m kv -> keyed_entry kv.
Proof. intros (raw & state & Hk & Hv). red. eauto. Qed.

Lemma build_zones_dict_well_keyed payload name_map :
  well_keyed (build_zones_dict payload name_map).
Proof.
  destruct (build_zones_dict_built payload name_map) as [Hb Hnd].
  split; auto. eapply Forall_impl; [|exact Hb]. intros kv. apply built_entry_keyed.
Qed.

Lemma well_keyed_empty : well_keyed [].
Proof. split; constructor. Qed.

Lemma sound_publish c d :
  breaker_justified c -> mode_labelled d -> well_keyed (zones d) ->
  coordinator_sound (set_data (Some d) c).
Proof.
  intros Hb Hm Hz. split; [exact Hb|]. intros d' [= <-]. auto.
Qed.

Lemma sound_carried c :
  coordinator_sound c -> well_keyed (carried_zones_of c).
Proof.
  intros [_ Hd]. unfold carried_zones_of.
  destruct (data c) as [d|]; [now apply Hd | apply well_keyed_empty].
Qed.

Lemma breaker_justified_healthy c :
  breaker_justified (healthy c).
Proof. split; simpl; [lia | congruence]. Qed.

Lemma sound_after_failure w err h :
  coordinator_sound (coordinator h) ->
  coordinator_sound (coordinator (after_failure w err h)).
Proof.
  intros [Hb Hd]. split; [now apply breaker_justified_after_failure|].
  rewrite after_failure_data. exact Hd.
Qed.

Lemma sound_forced_refresh w h :
  coordinator_sound (coordinator h) ->
  coordinator_sound (coordinator (fst (async_refresh_zones_now w h))).
Proof.
  intros Hs. rewrite async_refresh_zones_now_eq.
  destruct (get_zones w (api (coordinator h)) (io h)) as [io1 [payload|m]];
    [|exact Hs].
  cbn [fst coordinator]. apply sound_publish.
  - split; simpl; [lia | congruence].
  - destruct Hs as [_ Hd].
    destruct (data (coordinator h)) as [d|]; [|left; split; reflexivity].
    exact (proj1 (Hd d eq_refl)).
  - destruct (data (coordinator h)); apply build_zones_dict_well_keyed.
Qed.

Lemma sound_tick w h :
  coordinator_sound (coordinator h) ->
  coordinator_sound (coordinator (fst (async_refresh (E := exn) w h))).
Proof.
  intros Hs. rewrite async_refresh_eq, _async_update_data_eq.
  destruct (Qlt_bool _ _).
  - destruct (data (coordinator h)) as [d|] eqn:Hd; cbn [fst coordinator]; auto.
    destruct Hs as [Hb Hdata]. destruct (Hdata d Hd) as [Hm Hz].
    apply sound_publish; auto.
  - rewrite poll_eq. cbv zeta.
    change (coordinator (tick_start w h)) with (coordinator h).
    assert (Hfail : forall h1 err,
               coordinator_sound (coordinator h1) ->
               coordinator_sound
                 (coordinator
                    (fst (let '(h2, r) :=
                            (after_failure w err h1,
                             match data (coordinator h1) with
                             | Some d => Ok (degraded d (Some (Repr err)))
                             | None => Raise (UpdateFailed (Repr err))
                             end) in
                          match r with
                          | Ok d =>
                              ({| coordinator := set_data (Some d) (coordinator h2);
                                  io := io h2;
                                  _debounced_refresh := idle |}, Ok (E := exn) tt)
                          | Raise _ => (with_debouncer h2 idle, Ok tt)
                          end)))).
    { intros h1 err Hs1. pose proof (sound_after_failure w err h1 Hs1) as Hs2.
      destruct (data (coordinator h1)) as [d|] eqn:Hd; cbn [fst coordinator]; auto.
      destruct Hs1 as [_ Hdata]. destruct (Hdata d Hd) as [Hm Hz].
      apply sound_publish; auto. apply Hs2. }
    destruct (get_mode w (api (coordinator h)) (io (tick_start w h)))
      as [io1 [raw|m]].
    + destruct (_ <=? _).
      * destruct (get_zones w (api (coordinator h)) io1) as [io2 [payload|m]].
        -- cbn [fst coordinator]. apply sound_publish.
           ++ apply breaker_justified_healthy.
           ++ right. exists raw. split; reflexivity.
           ++ apply build_zones_dict_well_keyed.
        -- apply (Hfail {| coordinator := set_zones_tick 0 (coordinator h);
                           io := io2;
                           _debounced_refresh :=
                             _debounced_refresh (tick_start w h) |}).
           exact Hs.
      * cbn [fst coordinator]. apply sound_publish.
        -- apply breaker_justified_healthy.
        -- right. exists raw. split; reflexivity.
        -- now apply sound_carried.
    + apply (Hfail (with_io (tick_start w h) io1)). exact Hs.
Qed.

Lemma sound_run w op h :
  holds coordinator_sound h -> holds coordinator_sound (run w op h).
Proof.
  apply kept_run.
  - intros h0. apply sound_forced_refresh.
  - intros h0. apply sound_tick.
Qed.

Lemma reachable_sound w h : reachable w h -> coordinator_sound (coordinator h).
Proof.
  induction 1 as [|op h _ IH].
  - split; [split; simpl; [lia | congruence] | intros d [=]].
  - now apply sound_run.
Qed.

(** X12: in every reachable state the failure counter is not negative, and
    the breaker timestamp is set only while the counter is at or above the
    threshold: the breaker never opens before [breaker_threshold]
    consecutive failures, and whatever resets the counter closes it. *)
Theorem breaker_is_set_only_at_threshold :
  forall (w : World) (h : Hass),
    reachable w h ->
    0 <= _consecutive_failures (coordinator h) /\
    (_breaker_until (coordinator h) <> 0%Q ->
     _breaker_threshold (coordinator h) <= _consecutive_failures (coordinator h)).
Proof. intros w h Hr. exact (proj1 (reachable_sound w h Hr)). Qed.

Lemma breaker_is_set_only_at_threshold_witness :
  _breaker_threshold (coordinator (Demo.tripped Demo.recovering))
  <= _consecutive_failures (coordinator (Demo.tripped Demo.recovering)).
Proof.
  refine (proj2 (breaker_is_set_only_at_threshold Demo.recovering
                   (Demo.tripped Demo.recovering) _) _).
  - unfold Demo.tripped. repeat apply reachable_step. apply reachable_init.
  - vm_compute. discriminate.
Defined.

(** X13: in every snapshot a reachable coordinator holds, the zone keys are
    pairwise distinct and every zone is a record with string name, friendly
    name and state, stored under the normalized form of its own name. *)
Theorem zones_are_keyed_by_normalized_name :
  forall (w : World) (h : Hass) (d : SecvestData),
    reachable w h ->
    data (coordinator h) = Some d ->
    NoDup (keys (zones d)) /\
    forall k z,
      In (k, z) (zones d) ->
      exists raw_name friendly state,
        z = zone_record raw_name friendly state /\ k = normalize_name raw_name.
Proof.
  intros w h d Hr Hd.
  destruct (proj2 (reachable_sound w h Hr) d Hd) as [_ [Hnd Hall]].
  split; [exact Hnd|]. intros k z Hin.
  rewrite Forall_forall in Hall.
  destruct (Hall (k, z) Hin) as (raw & friendly & state & Hk & Hz).
  exists raw, friendly, state. auto.
Qed.

Lemma zones_are_keyed_by_normalized_name_witness :
  NoDup (keys (zones Demo.two_zones_snapshot)).
Proof.
  refine (proj1 (zones_are_keyed_by_normalized_name Demo.two_zones
                   (run Demo.two_zones RefreshZonesNow Demo.fresh)
                   Demo.two_zones_snapshot _ _)).
  - apply reachable_step. apply reachable_init.
  - vm_compute. reflexivity.
Defined.

Lemma state_follows_translation raw :
  (if String.eqb raw "unset" then Some DISARMED
   else if String.eqb raw "partset" then Some ARMED_HOME
   else if String.eqb raw "set" then Some ARMED_AWAY
   else None)
  = state_of_label (Some (translation raw)).
Proof.
  unfold translation, STATE_TRANSLATIONS. cbn [get].
  rewrite (String.eqb_sym "set" raw), (String.eqb_sym "partset" raw),
    (String.eqb_sym "unset" raw).
  destruct (String.eqb_spec raw "set") as [->|Hs]; [reflexivity|].
  destruct (String.eqb_spec raw "partset") as [->|Hp]; [reflexivity|].
  destruct (String.eqb_spec raw "unset") as [->|Hu]; reflexivity.
Qed.

(** X14: the alarm entity and the German mode label always agree. In every
    reachable state the entity reports disarmed, armed home or armed away
    exactly when the label of the snapshot is "Unscharf", "Teilscharf" or
    "Scharf", and reports no state when there is no snapshot, no label, or
    the label is "Unbekannt". *)
Theorem alarm_state_agrees_with_label :
  forall (w : World) (h : Hass),
    reachable w h ->
    SecvestAlarm_state (coordinator h)
    = match data (coordinator h) with
      | Some d => state_of_label (human_mode d)
      | None => None
      end.
Proof.
  intros w h Hr. unfold SecvestAlarm_state.
  destruct (data (coordinator h)) as [d|] eqn:Hd; [|reflexivity].
  destruct (proj1 (proj2 (reachable_sound w h Hr) d Hd))
    as [[-> ->]|(raw & -> & ->)]; [reflexivity|].
  apply state_follows_translation.
Qed.

Lemma alarm_state_agrees_with_label_witness :
  SecvestAlarm_state (coordinator (run Cases.mode_then_zones ScheduledTick Demo.fresh))
  = Some ARMED_AWAY.
Proof.
  rewrite (alarm_state_agrees_with_label Cases.mode_then_zones).
  - vm_compute. reflexivity.
  - apply reachable_step. apply reachable_init.
Defined.

(** ** The entities *)

Lemma get_in {V} k (v : V) d : get k d = Some v -> In (k, v) d.
Proof.
  induction d as [|[k0 v0] d IH]; simpl; [discriminate|].
  destruct (String.eqb_spec k0 k) as [->|Hne].
  - intros [= ->]. now left.
  - intros H. right. auto.
Qed.

Lemma zone_sensor_of_record c d k raw_name friendly state :
  data c = Some d ->
  get k (zones d) = Some (zone_record raw_name friendly state) ->
  SecvestZoneBinarySensor_is_on k c = Ok (Some (String.eqb state "open")).
Proof.
  intros Hd Hk. unfold SecvestZoneBinarySensor_is_on. now rewrite Hd, Hk.
Qed.

Lemma length_open_names (zs : dict value) :
  Forall keyed_entry zs ->
  length (filter_map open_friendly_name (values zs))
  = length (filter (fun kv => state_is_open (snd kv)) zs).
Proof.
  induction 1 as [|[k z] zs (raw & friendly & state & _ & Hz) _ IH]; simpl.
  - reflexivity.
  - simpl in Hz. subst z. rewrite zone_record_open. simpl.
    destruct (String.eqb state "open"); simpl; now rewrite IH.
Qed.

(** X15: the zone sensors, the any-zone-open sensor and the open-zones
    count always tell the same story. In every reachable state no zone
    sensor fails, the any-zone-open sensor is on exactly when the sensor of
    some zone is on, and the count is the number of zone keys whose sensor
    is on. *)
Theorem zone_sensors_agree :
  forall (w : World) (h : Hass),
    reachable w h ->
    let c := coordinator h in
    (forall k, SecvestZoneBinarySensor_is_on k c <> Raise AttributeError) /\
    (SecvestAnyZoneOpenBinarySensor_is_on c = true <->
     exists k, SecvestZoneBinarySensor_is_on k c = Ok (Some true)) /\
    open_zones_count c
    = Z.of_nat (length (filter (zone_sensor_on c)
                          (match data c with
                           | Some d => keys (zones d)
                           | None => []
                           end))).
Proof.
  intros w h Hr c.
  pose proof (reachable_sound w h Hr) as [_ Hsound].
  pose proof (reachable_composed w h Hr) as Hcomposed.
  fold c in Hsound, Hcomposed.
  unfold SecvestAnyZoneOpenBinarySensor_is_on, open_zones_count.
  destruct (data c) as [d|] eqn:Hd.
  2:{ split; [|split].
      - intros k. unfold SecvestZoneBinarySensor_is_on. rewrite Hd. discriminate.
      - split; [discriminate|].
        intros [k Hk]. unfold SecvestZoneBinarySensor_is_on in Hk.
        rewrite Hd in Hk. discriminate.
      - reflexivity. }
  destruct (Hsound d eq_refl) as [_ [Hnd Hkeyed]].
  destruct (Hcomposed d Hd) as [_ Hcomp].
  assert (Hnames : open_zone_names d = filter_map open_friendly_name (values (zones d))).
  { rewrite Hcomp. reflexivity. }
  assert (Hsensor : forall k z,
             In (k, z) (zones d) ->
             SecvestZoneBinarySensor_is_on k c = Ok (Some (state_is_open z))).
  { intros k z Hin. rewrite Forall_forall in Hkeyed.
    destruct (Hkeyed (k, z) Hin) as (raw & friendly & state & _ & Hz).
    simpl in Hz. subst z.
    apply (zone_sensor_of_record c d k raw friendly state Hd).
    now apply in_get. }
  assert (Hcount : length (open_zone_names d)
                   = length (filter (zone_sensor_on c) (keys (zones d)))).
  { rewrite Hnames, (length_open_names _ Hkeyed).
    unfold keys.
    rewrite <- (length_map fst (filter (fun kv => state_is_open (snd kv)) (zones d))).
    f_equal.
    assert (Hext : filter (fun kv => state_is_open (snd kv)) (zones d)
                   = filter (fun kv => zone_sensor_on c (fst kv)) (zones d)).
    { apply filter_ext_in. intros [k z] Hin. simpl.
      unfold zone_sensor_on. rewrite (Hsensor k z Hin).
      now destruct (state_is_open z). }
    rewrite Hext. clear.
    induction (zones d) as [|[k z] zs IH]; simpl; [reflexivity|].
    destruct (zone_sensor_on c k); simpl; now rewrite IH. }
  split; [|split].
  - intros k. unfold SecvestZoneBinarySensor_is_on. rewrite Hd.
    destruct (get k (zones d)) as [z|] eqn:Hk; [|discriminate].
    apply get_in in Hk. rewrite Forall_forall in Hkeyed.
    destruct (Hkeyed (k, z) Hk) as (raw & friendly & state & _ & Hz).
    simpl in Hz. subst z. discriminate.
  - split.
    + intros Hany.
      assert (Hpos : (0 < length (filter (zone_sensor_on c) (keys (zones d))))%nat).
      { rewrite <- Hcount. destruct (open_zone_names d); [discriminate | simpl; lia]. }
      destruct (filter (zone_sensor_on c) (keys (zones d))) as [|k l] eqn:Hf;
        [simpl in Hpos; lia|].
      assert (Hin : In k (filter (zone_sensor_on c) (keys (zones d))))
        by (rewrite Hf; now left).
      apply filter_In in Hin. destruct Hin as [_ Hon].
      exists k. unfold zone_sensor_on in Hon.
      destruct (SecvestZoneBinarySensor_is_on k c) as [[[|]|]|]; try discriminate.
      reflexivity.
    + intros [k Hk].
      assert (Hin : In k (filter (zone_sensor_on c) (keys (zones d)))).
      { apply filter_In. split.
        - unfold SecvestZoneBinarySensor_is_on in Hk. rewrite Hd in Hk.
          destruct (get k (zones d)) as [z|] eqn:Hg; [|discriminate].
          apply get_in in Hg. change k with (fst (k, z)). now apply in_map.
        - unfold zone_sensor_on. now rewrite Hk. }
      destruct (open_zone_names d) as [|n ns]; [|reflexivity].
      simpl in Hcount. destruct (filter _ _); [contradiction | discriminate].
  - destruct (open_zone_names d) as [|n ns] eqn:Hn.
    + simpl in *. now rewrite <- Hcount.
    + cbn [nonempty]. now rewrite <- Hcount.
Qed.

Lemma zone_sensors_agree_witness :
  SecvestAnyZoneOpenBinarySensor_is_on
    (coordinator (run Demo.two_zones RefreshZonesNow Demo.fresh)) = true
  <-> exists k,
      SecvestZoneBinarySensor_is_on k
        (coordinator (run Demo.two_zones RefreshZonesNow Demo.fresh))
      = Ok (Some true).
Proof.
  refine (proj1 (proj2 (zone_sensors_agree Demo.two_zones
                          (run Demo.two_zones RefreshZonesNow Demo.fresh) _))).
  apply reachable_step. apply reachable_init.
Defined.

(** X16: after a scheduled tick the availability sensor is on exactly when
    the breaker was closed and the poll succeeded: a tick short-circuited by
    the breaker and a failed poll both turn it off, also when no snapshot
    exists yet. *)
Theorem available_exactly_after_a_good_poll :
  forall (w : World) (h : Hass),
    SecvestAvailableBinarySensor_is_on (coordinator (run w ScheduledTick h)) = true
    <->
    (~ (clock w (clock_reads (io h)) < _breaker_until (coordinator h))%Q /\
     exists d, snd (poll w (tick_start w h)) = Ok d).
Proof.
  intros w h. unfold run, SecvestAvailableBinarySensor_is_on.
  rewrite async_refresh_eq, _async_update_data_eq.
  destruct (Qlt_bool _ _) eqn:Hq.
  - apply Qlt_bool_iff in Hq. split.
    + destruct (data (coordinator h)) as [d|] eqn:Hd;
        cbn [fst coordinator with_debouncer].
      * cbn. discriminate.
      * change (data (coordinator (tick_start w h))) with (data (coordinator h)).
        rewrite Hd. discriminate.
    + intros [Hn _]. contradiction.
  - assert (Hclosed : ~ (clock w (clock_reads (io h))
                         < _breaker_until (coordinator h))%Q).
    { intros Hlt. apply Qlt_bool_iff in Hlt. congruence. }
    destruct (poll w (tick_start w h)) as [h1 [d|err]] eqn:Hp.
    + cbn [fst snd coordinator]. cbn [data set_data].
      rewrite poll_eq in Hp. cbv zeta in Hp.
      destruct (get_mode _ _ _) as [io1 [raw|m]]; [|discriminate].
      destruct (_ <=? _).
      * destruct (get_zones _ _ _) as [io2 [payload|m]]; [|discriminate].
        injection Hp as <- <-. cbn. split; eauto.
      * injection Hp as <- <-. cbn. split; eauto.
    + cbn [snd]. split.
      * destruct (data (coordinator h1)) as [d|] eqn:Hd;
          cbn [fst coordinator with_debouncer].
        -- cbn. discriminate.
        -- rewrite after_failure_data, Hd. discriminate.
      * intros [_ [d [=]]].
Qed.

(** ** Zone discovery *)

Lemma mem_In k l : mem k l = true <-> In k l.
Proof.
  unfold mem. rewrite existsb_exists. split.
  - intros (x & Hx & He). apply String.eqb_eq in He. now subst.
  - intros H. exists k. split; [exact H | apply String.eqb_refl].
Qed.

Lemma set_add_In k x l : In x (set_add k l) <-> x = k \/ In x l.
Proof.
  unfold set_add. destruct (mem k l) eqn:Hm.
  - apply mem_In in Hm. split; [now right | intros [->|H]; auto].
  - rewrite in_app_iff. simpl. split; intros H; intuition congruence.
Qed.

(** What the discovery loop keeps true: the new entities are pairwise
    distinct, all known, and none of them was known before the loop. *)
Lemma discover_fold zone_keys existing new_entities before :
  NoDup new_entities ->
  incl before existing ->
  (forall k, In k new_entities -> In k existing /\ ~ In k before) ->
  (forall k, In k existing -> In k before \/ In k new_entities) ->
  let (existing', new') := fold_left discover_zone zone_keys (existing, new_entities) in
  NoDup new' /\
  incl before existing' /\
  (forall k, In k new' -> In k existing' /\ ~ In k before) /\
  (forall k, In k existing' -> In k before \/ In k new') /\
  (forall k, In k existing' <-> In k existing \/ In k zone_keys).
Proof.
  revert existing new_entities.
  induction zone_keys as [|k ks IH]; intros existing new_entities Hnd Hincl Hnew Hex.
  - simpl. split; [|split; [|split; [|split]]]; auto. intros x. tauto.
  - cbn [fold_left]. unfold discover_zone at 2.
    destruct (mem k existing) eqn:Hm.
    + specialize (IH existing new_entities Hnd Hincl Hnew Hex).
      destruct (fold_left discover_zone ks (existing, new_entities)) as [e' n'].
      destruct IH as (H1 & H2 & H3 & H4 & H5).
      split; [|split; [|split; [|split]]]; auto.
      intros x. rewrite H5. apply mem_In in Hm. simpl.
      split; [tauto|]. intros [H|[<-|H]]; auto.
    + assert (Hnin : ~ In k existing).
      { intros Hin. apply mem_In in Hin. congruence. }
      specialize (IH (set_add k existing) (new_entities ++ [k])%list).
      destruct (fold_left discover_zone ks
                  (set_add k existing, (new_entities ++ [k])%list)) as [e' n'].
      destruct IH as (H1 & H2 & H3 & H4 & H5).
      * apply NoDup_app; auto.
        -- repeat constructor. simpl. tauto.
        -- intros x Hx [<-|[]]. apply Hnin. now apply Hnew.
      * intros x Hx. apply set_add_In. right. auto.
      * intros x Hx. apply in_app_iff in Hx. rewrite set_add_In.
        destruct Hx as [Hx|[<-|[]]].
        -- destruct (Hnew x Hx). auto.
        -- split; [now left|]. intros Hb. apply Hnin. auto.
      * intros x Hx. apply set_add_In in Hx. rewrite in_app_iff. simpl.
        destruct Hx as [->|Hx]; auto. destruct (Hex x Hx); auto.
      * split; [|split; [|split; [|split]]]; auto.
        intros x. rewrite H5, set_add_In. simpl.
        split; [intros [[->|H]|H]; auto | intros [H|[<-|H]]; auto].
Qed.

Lemma discover_known zone_keys existing new_entities :
  (forall k, In k zone_keys -> In k existing) ->
  fold_left discover_zone zone_keys (existing, new_entities)
  = (existing, new_entities).
Proof.
  induction zone_keys as [|k ks IH]; intros Hknown; [reflexivity|].
  cbn [fold_left]. unfold discover_zone at 2.
  assert (Hm : mem k existing = true) by (apply mem_In, Hknown; now left).
  rewrite Hm. apply IH. intros x Hx. apply Hknown. now right.
Qed.

Lemma setup_fold zone_keys p0 :
  let p := fold_left
             (fun p zone_key =>
                {| existing_zone_keys := set_add zone_key (existing_zone_keys p);
                   zone_entities := (zone_entities p ++ [zone_key])%list |})
             zone_keys p0 in
  zone_entities p = (zone_entities p0 ++ zone_keys)%list /\
  forall k, In k (existing_zone_keys p)
            <-> In k (existing_zone_keys p0) \/ In k zone_keys.
Proof.
  revert p0. induction zone_keys as [|k ks IH]; intros p0; cbn [fold_left].
  - rewrite app_nil_r. split; [reflexivity | intros; simpl; tauto].
  - destruct (IH {| existing_zone_keys := set_add k (existing_zone_keys p0);
                    zone_entities := (zone_entities p0 ++ [k])%list |})
      as [He Hk].
    cbv zeta in He, Hk. cbv zeta. rewrite He. cbn [zone_entities existing_zone_keys] in *.
    split; [now rewrite <- app_assoc|].
    intros x. rewrite Hk, set_add_In. simpl. intuition.
Qed.

(** X17: zone entities are created once per zone key. Set up from a
    reachable coordinator, the platform has one entity per zone of the
    snapshot, in the order of the mapping. Every later run of the listener
    only appends entities, for keys that had none; afterwards every zone of
    the current snapshot has its entity, the entities are still pairwise
    distinct, and running the listener again changes nothing. *)
Theorem zone_entities_are_created_once :
  (forall (w : World) (h : Hass),
      reachable w h ->
      platform_ok (zone_platform_setup (coordinator h)) /\
      zone_entities (zone_platform_setup (coordinator h))
      = match data (coordinator h) with
        | Some d => keys (zones d)
        | None => []
        end) /\
  (forall (c : SecvestCoordinator) (p : ZonePlatform),
      platform_ok p ->
      let p' := _maybe_add_new_zone_entities c p in
      platform_ok p' /\
      (exists new_entities,
          zone_entities p' = (zone_entities p ++ new_entities)%list /\
          forall k, In k new_entities -> ~ In k (zone_entities p)) /\
      (forall d k, data c = Some d -> In k (keys (zones d)) ->
                   In k (zone_entities p')) /\
      _maybe_add_new_zone_entities c p' = p').
Proof.
  split.
  - intros w h Hr. unfold zone_platform_setup.
    set (zone_keys := match data (coordinator h) with
                      | Some d => keys (zones d)
                      | None => []
                      end).
    assert (Hnd : NoDup zone_keys).
    { subst zone_keys. destruct (data (coordinator h)) as [d|] eqn:Hd;
        [|constructor].
      exact (proj1 (proj2 (proj2 (reachable_sound w h Hr) d Hd))). }
    destruct (setup_fold zone_keys {| existing_zone_keys := []; zone_entities := [] |})
      as [He Hk].
    cbv zeta in He, Hk. cbn [zone_entities existing_zone_keys app] in He, Hk.
    split; [|exact He]. split.
    + now rewrite He.
    + intros k. rewrite He, Hk. simpl. tauto.
  - intros c p [Hnd Hsame] p'. subst p'. unfold _maybe_add_new_zone_entities.
    assert (Hnop : platform_ok p /\
                   (exists new_entities,
                       zone_entities p = (zone_entities p ++ new_entities)%list /\
                       forall k, In k new_entities -> ~ In k (zone_entities p))).
    { split; [split; assumption|]. exists []. now rewrite app_nil_r. }
    destruct (data c) as [d|] eqn:Hd.
    2:{ destruct Hnop as [Hok Hex]. repeat split; try apply Hok; auto.
        intros d k [=]. }
    destruct (zones d) as [|kv zs] eqn:Hz.
    { destruct Hnop as [Hok Hex]. repeat split; try apply Hok; auto.
      - intros d' k [= <-]. rewrite Hz. intros []. }
    rewrite <- Hz. clear Hnop.
    pose proof (discover_fold (keys (zones d)) (existing_zone_keys p) []
                  (existing_zone_keys p)) as Hfold.
    destruct (fold_left discover_zone (keys (zones d)) (existing_zone_keys p, []))
      as [existing' new'] eqn:Hrun.
    destruct Hfold as (Hn1 & Hn2 & Hn3 & Hn4 & Hn5).
    { constructor. }
    { intros x Hx. exact Hx. }
    { intros k []. }
    { intros k Hk. now left. }
    assert (Hok' : platform_ok {| existing_zone_keys := existing';
                                  zone_entities := (zone_entities p ++ new')%list |}).
    { split; cbn [zone_entities existing_zone_keys].
      - apply NoDup_app; auto.
        intros x Hx Hx'. destruct (Hn3 x Hx') as [_ Hnb]. apply Hnb.
        now apply Hsame.
      - intros k. rewrite in_app_iff. split.
        + intros [Hk|Hk]; [apply Hn2; now apply Hsame | now apply Hn3].
        + intros Hk. destruct (Hn4 k Hk) as [Hb|Hb]; [left; now apply Hsame | now right]. }
    split; [exact Hok'|]. split; [|split].
    + exists new'. split; [reflexivity|].
      intros k Hk Hin. destruct (Hn3 k Hk) as [_ Hnb]. apply Hnb. now apply Hsame.
    + intros d' k [= <-] Hk. cbn [zone_entities].
      apply (proj2 Hok'). cbn [existing_zone_keys]. apply Hn5. now right.
    + cbn [zone_entities existing_zone_keys]. rewrite Hz, <- Hz.
      rewrite discover_known.
      * now rewrite app_nil_r.
      * intros k Hk. apply Hn5. now right.
Qed.

Lemma zone_entities_are_created_once_witness :
  zone_entities
    (_maybe_add_new_zone_entities
       (coordinator (run Demo.two_zones RefreshZonesNow Demo.fresh))
       (zone_platform_setup (coordinator Demo.fresh)))
  = ["Haus_Tuer"; "Fenster_1"]
  /\ platform_ok
       (_maybe_add_new_zone_entities
          (coordinator (run Demo.two_zones RefreshZonesNow Demo.fresh))
          (zone_platform_setup (coordinator Demo.fresh))).
Proof.
  split; [vm_compute; reflexivity|].
  refine (proj1 (proj2 zone_entities_are_created_once
                   (coordinator (run Demo.two_zones RefreshZonesNow Demo.fresh))
                   (zone_platform_setup (coordinator Demo.fresh)) _)).
  refine (proj1 (proj1 zone_entities_are_created_once Demo.two_zones Demo.fresh _)).
  apply reachable_init.
Defined.

(** ** The TCP reachability test *)

Lemma tcp_attempts_failures_first net (k first : nat) (s : TcpIO)
      (last_exc : option connect_exn) (later : list Z) :
  (forall i, (i < k)%nat -> net (connects_made s + i)%nat <> None) ->
  tcp_attempts net (map (fun i => 1 + Z.of_nat i) (seq first k) ++ later) last_exc s
  = tcp_attempts net later
      match k with
      | O => last_exc
      | S j => net (connects_made s + j)%nat
      end
      {| connects_made := connects_made s + k;
         tcp_sleeps := tcp_sleeps s ++ repeat 1%Q k |}.
Proof.
  revert first s last_exc. induction k as [|k IH]; intros first s last_exc Hfail.
  - simpl. rewrite app_nil_r, Nat.add_0_r. now destruct s.
  - cbn [seq map app tcp_attempts]. unfold connect_blocking.
    destruct (net (connects_made s)) as [e|] eqn:He.
    2:{ exfalso. apply (Hfail 0%nat); [lia|]. now rewrite Nat.add_0_r. }
    unfold bind, tcp_sleep. rewrite IH.
    2:{ intros i Hi. cbn [connects_made]. rewrite Nat.add_succ_comm.
        apply Hfail. lia. }
    cbn [connects_made tcp_sleeps]. f_equal.
    + destruct k as [|j].
      * now rewrite Nat.add_0_r.
      * now rewrite <- Nat.add_succ_comm.
    + f_equal; [lia|]. rewrite <- app_assoc. reflexivity.
Qed.

(** X18: the TCP test of the config flow tries to connect up to [retries]
    times and sleeps one second after every failed try. It returns at the
    first connection that succeeds, after as many sleeps as tries failed
    before it; when all [retries] tries fail it raises the exception of the
    last one (a timeout error when [retries] is not positive, without
    trying). *)
Theorem tcp_test_returns_at_first_connection :
  forall (net : Network) (retries : Z) (s : TcpIO),
    (forall k,
        Z.of_nat k < retries ->
        (forall i, (i < k)%nat -> net (connects_made s + i)%nat <> None) ->
        net (connects_made s + k)%nat = None ->
        _async_test_tcp_socket net retries s
        = ({| connects_made := connects_made s + S k;
              tcp_sleeps := tcp_sleeps s ++ repeat 1%Q k |}, Ok tt)) /\
    ((forall i, (i < Z.to_nat retries)%nat ->
                net (connects_made s + i)%nat <> None) ->
     _async_test_tcp_socket net retries s
     = ({| connects_made := connects_made s + Z.to_nat retries;
           tcp_sleeps := tcp_sleeps s ++ repeat 1%Q (Z.to_nat retries) |},
        Raise match Z.to_nat retries with
              | O => TcpTimeoutError "TCP connect failed"
              | S j =>
                  match net (connects_made s + j)%nat with
                  | Some e => e
                  | None => TcpTimeoutError "TCP connect failed"
                  end
              end)).
Proof.
  intros net retries s. unfold _async_test_tcp_socket. rewrite range_from_one.
  split.
  - intros k Hk Hfail Hconn.
    replace (Z.to_nat retries) with (k + S (Z.to_nat retries - S k))%nat by lia.
    rewrite seq_app, map_app. cbn [seq map Nat.add].
    rewrite tcp_attempts_failures_first by assumption.
    cbn [tcp_attempts]. unfold connect_blocking. cbn [connects_made tcp_sleeps].
    rewrite Hconn. do 2 f_equal. lia.
  - intros Hfail.
    rewrite <- (app_nil_r (map _ _)).
    rewrite tcp_attempts_failures_first by assumption.
    cbn [tcp_attempts].
    destruct (Z.to_nat retries) as [|j] eqn:Hn; [reflexivity|].
    destruct (net (connects_made s + j)%nat) as [e|] eqn:He; [reflexivity|].
    exfalso. apply (Hfail j); [lia | exact He].
Qed.

Lemma tcp_test_returns_at_first_connection_witness :
  _async_test_tcp_socket Cases.second_try_connects 3
    {| connects_made := 0; tcp_sleeps := [] |}
  = ({| connects_made := 2; tcp_sleeps := [1%Q] |}, Ok tt).
Proof.
  refine (proj1 (tcp_test_returns_at_first_connection Cases.second_try_connects 3
                   {| connects_made := 0; tcp_sleeps := [] |}) 1%nat _ _ _).
  - lia.
  - intros i Hi. assert (i = 0)%nat as -> by lia. discriminate.
  - reflexivity.
Defined.

(** ** What the Device Client raises *)

Lemma raises_ret {S E A} (P : E -> Prop) (a : A) : raises P (ret (S := S) a).
Proof. intros s s' e [=]. Qed.

Lemma raises_raise {S E A} (P : E -> Prop) (e : E) :
  P e -> raises P (raise (S := S) (A := A) e).
Proof. intros He s s' e' [= <- <-]. exact He. Qed.

Lemma raises_bind {S E A B} (P : E -> Prop) (m : M S E A) (k : A -> M S E B) :
  raises P m -> (forall a, raises P (k a)) -> raises P (bind m k).
Proof.
  intros Hm Hk s s' e. unfold bind.
  destruct (m s) as [s1 [a|e1]] eqn:Hs.
  - apply Hk.
  - intros [= <- <-]. eapply Hm, Hs.
Qed.

Lemma raises_try_except {S E E' A} (P : E' -> Prop) (m : M S E A)
      (k : E -> M S E' A) :
  (forall e, raises P (k e)) -> raises P (try_except m k).
Proof.
  intros Hk s s' e. unfold try_except.
  destruct (m s) as [s1 [a|e1]]; [discriminate | apply Hk].
Qed.

Lemma backoff_base_none attempt :
  1 <= attempt -> backoff_base attempt = None -> 1025 <= attempt.
Proof.
  intros Ha Hnone. destruct (Z.le_gt_cases 1025 attempt) as [H|H]; [exact H|].
  rewrite backoff_base_ok in Hnone by lia. discriminate.
Qed.

Section ClientRaises.
Context (w : World) (self : SecvestApi) (method : string)
        (paths_list : list string) (json_payload : option value)
        (expect_json : bool).

Lemma api_error_is_client_error m : client_error self (SecvestApiError m).
Proof. left. eauto. Qed.

Lemma except_path_raises attempt url e :
  1 <= attempt <= _retries self ->
  raises (client_error self) (except_path w attempt url e).
Proof.
  intros Ha. unfold except_path.
  destruct e as [ce|m]; [|apply raises_raise, api_error_is_client_error].
  destruct (is_transient ce); [|apply raises_raise, api_error_is_client_error].
  apply raises_bind.
  - unfold _backoff. destruct (backoff_base attempt) as [base|] eqn:Hb.
    + apply raises_bind; [intros s s' e [=]|]. intros r. apply raises_ret.
    + apply raises_raise. right. split; [reflexivity|].
      apply backoff_base_none in Hb; lia.
  - intros seconds. apply raises_bind; [intros s s' e [=]|].
    intros _. apply raises_ret.
Qed.

Lemma for_path_raises attempt paths :
  1 <= attempt <= _retries self ->
  raises (client_error self)
    (for_path w self method paths_list json_payload expect_json attempt paths).
Proof.
  intros Ha. induction paths as [|path rest IH]; cbn [for_path].
  - apply raises_ret.
  - apply raises_bind.
    + apply raises_try_except. intros e. now apply except_path_raises.
    + intros [|v|e]; [exact IH | apply raises_ret | apply raises_ret].
Qed.

Lemma for_attempt_raises attempts last_exc :
  (forall a, In a attempts -> 1 <= a <= _retries self) ->
  raises (client_error self)
    (for_attempt w self method paths_list json_payload expect_json
       attempts last_exc).
Proof.
  revert last_exc.
  induction attempts as [|attempt rest IH]; intros last_exc Hin; cbn [for_attempt].
  - apply raises_raise, api_error_is_client_error.
  - apply raises_bind.
    + apply for_path_raises, Hin. now left.
    + intros [v|e|]; [apply raises_ret | |];
        apply IH; intros a Ha; apply Hin; now right.
Qed.

Lemma _request_json_raises :
  raises (client_error self)
    (_request_json w self method paths_list json_payload expect_json).
Proof.
  unfold _request_json. apply for_attempt_raises.
  intros a Ha. now apply in_range_from_one.
Qed.

End ClientRaises.

Lemma get_mode_raises w self : raises (client_error self) (get_mode w self).
Proof.
  unfold get_mode. apply raises_bind; [apply _request_json_raises|].
  intros data. destruct data as [| | | | |d];
    try apply raises_raise, api_error_is_client_error.
  destruct (get "state" d) as [[| | |state| |]|];
    first [apply raises_ret | apply raises_raise, api_error_is_client_error].
Qed.

Lemma get_zones_raises w self : raises (client_error self) (get_zones w self).
Proof.
  unfold get_zones. apply raises_bind; [apply _request_json_raises|].
  intros data. destruct data;
    first [apply raises_ret | apply raises_raise, api_error_is_client_error].
Qed.

Lemma set_mode_raises w self new_state :
  raises (client_error self) (set_mode w self new_state).
Proof.
  unfold set_mode. apply raises_bind; [apply _request_json_raises|].
  intros _. apply raises_ret.
Qed.

(** ** More on the command paths *)

(** X19: a mode other than "set", "partset" or "unset" (or no mode at all)
    is rejected before anything else happens: the service raises the
    invalid-mode error and neither the coordinator nor the panel is
    touched. *)
Theorem unknown_mode_is_rejected_first :
  forall (w : World) (mode : option string) (h : Hass),
    (forall m, mode = Some m -> mem m VALID_MODES = false) ->
    handle_set_mode w mode h
    = (h, Raise (HomeAssistantError (InvalidMode mode))).
Proof.
  intros w [m|] h Hm; [|reflexivity].
  unfold handle_set_mode. now rewrite (Hm m eq_refl).
Qed.

Lemma unknown_mode_is_rejected_first_witness :
  handle_set_mode Demo.open_door (Some "arm") Demo.fresh
  = (Demo.fresh, Raise (HomeAssistantError (InvalidMode (Some "arm")))).
Proof.
  apply unknown_mode_is_rejected_first.
  intros m [= <-]. reflexivity.
Defined.

(** A refresh request, by the state of the debouncer. *)
Lemma async_request_refresh_eq {E} w h :
  async_request_refresh (E := E) w h
  = (if _timer_task (_debounced_refresh h)
     then with_debouncer h
            {| _timer_task := true; _execute_at_end_of_timer := true |}
     else with_debouncer (run w ScheduledTick h)
            {| _timer_task := true; _execute_at_end_of_timer := false |},
     Ok tt).
Proof.
  unfold async_request_refresh. unfold bind at 1. unfold gets at 1.
  destruct (_timer_task (_debounced_refresh h)); [reflexivity|].
  unfold bind, run.
  rewrite (async_refresh_eq (E := E) w h), (async_refresh_eq (E := exn) w h).
  destruct (_async_update_data w h) as [h1 [d|e]]; reflexivity.
Qed.

Lemma request_refresh_run {E} w h :
  async_request_refresh (E := E) w h = (run w RequestRefresh h, Ok tt).
Proof.
  unfold run. now rewrite !async_request_refresh_eq.
Qed.

Lemma _set_mode_eq w mode h :
  _set_mode w mode h
  = match set_mode w (api (coordinator h)) mode (io h) with
    | (io2, Ok tt) => (run w RequestRefresh (with_io h io2), Ok tt)
    | (io2, Raise (SecvestApiError msg)) =>
        (with_io h io2, Raise (HomeAssistantError (ApiFehler msg)))
    | (io2, Raise (Client _)) =>
        (with_io h io2,
         Raise (HomeAssistantError (UnbekannterFehler (Client OverflowError))))
    end.
Proof.
  unfold _set_mode, try_except. unfold bind at 1. rewrite call_api_eq.
  destruct (set_mode w (api (coordinator h)) mode (io h)) as [io2 [[]|e]] eqn:Hset.
  - now rewrite request_refresh_run.
  - destruct (set_mode_raises _ _ _ _ _ _ Hset) as [[m ->]|[-> _]]; reflexivity.
Qed.

(** X20: the outcome of the entity's [_set_mode], which is all that
    disarming does. The PUT goes out without any look at the zones. When it
    fails, the command raises [HomeAssistantError], with the API error or
    with the [OverflowError] of the client's backoff as an unknown error,
    and no refresh is asked for, so the coordinator is left as it was. When
    it succeeds, a refresh is requested and the command returns; the
    request goes through the host's debouncer: while the cooldown timer of
    an earlier request is running, nothing is asked of the panel and the
    refresh is left for the end of the timer; otherwise the refresh runs at
    once, as a scheduled tick would, and the timer is started. *)
Theorem entity_set_mode_outcome :
  forall (w : World) (mode : string) (h : Hass),
    _set_mode w mode h
    = match set_mode w (api (coordinator h)) mode (io h) with
      | (io2, Ok tt) => (run w RequestRefresh (with_io h io2), Ok tt)
      | (io2, Raise (SecvestApiError msg)) =>
          (with_io h io2, Raise (HomeAssistantError (ApiFehler msg)))
      | (io2, Raise (Client _)) =>
          (with_io h io2,
           Raise (HomeAssistantError (UnbekannterFehler (Client OverflowError))))
      end
    /\ async_disarm w h = _set_mode w "unset" h
    /\ (_timer_task (_debounced_refresh h) = true ->
        run w RequestRefresh h
        = with_debouncer h
            {| _timer_task := true; _execute_at_end_of_timer := true |})
    /\ (_timer_task (_debounced_refresh h) = false ->
        run w RequestRefresh h
        = with_debouncer (run w ScheduledTick h)
            {| _timer_task := true; _execute_at_end_of_timer := false |}).
Proof.
  intros w mode h. split; [apply _set_mode_eq|]. split; [reflexivity|].
  split; intros Ht; unfold run at 1; rewrite async_request_refresh_eq, Ht;
    reflexivity.
Qed.

(** Disarming twice in a row: the first command sends the PUT and, the
    debouncer being idle, the mode request of the refresh; the second sends
    its PUT only, the refresh being left to the end of the cooldown. *)
Lemma entity_set_mode_outcome_witness :
  let h1 := run Cases.disarm_twice Disarm Demo.fresh in
  let h2 := run Cases.disarm_twice Disarm h1 in
  run Cases.disarm_twice RequestRefresh h1
  = with_debouncer h1
      {| _timer_task := true; _execute_at_end_of_timer := true |}
  /\ requests_made (io h1) = 2%nat
  /\ requests_made (io h2) = 3%nat
  /\ _debounced_refresh h2
     = {| _timer_task := true; _execute_at_end_of_timer := true |}.
Proof.
  cbv zeta. split.
  - apply (entity_set_mode_outcome Cases.disarm_twice "unset"
             (run Cases.disarm_twice Disarm Demo.fresh)).
    vm_compute. reflexivity.
  - split; [vm_compute; reflexivity|].
    split; vm_compute; reflexivity.
Defined.

(** X21: after the forced refresh the service handler goes on to the panel
    whenever the command is to disarm, or the refreshed snapshot lists no
    open zone: it sends [set_mode]; on success it requests a refresh and
    returns, on an API error it raises [HomeAssistantError] with it, and the
    [OverflowError] of the client's backoff is not caught; in both cases
    the coordinator is left as the zone refresh left it. Open zones do not
    stop a disarm. The forced refresh has left the debouncer idle. *)
Theorem accepted_command_sets_mode :
  forall (w : World) (h h1 : Hass) (d : SecvestData) (m : string),
    mem m VALID_MODES = true ->
    async_refresh_zones_now w h = (h1, Ok tt) ->
    data (coordinator h1) = Some d ->
    m = "unset" \/ open_zone_names d = [] ->
    handle_set_mode w (Some m) h
    = match set_mode w (api (coordinator h1)) m (io h1) with
      | (io2, Ok tt) => (run w RequestRefresh (with_io h1 io2), Ok tt)
      | (io2, Raise (SecvestApiError msg)) =>
          (with_io h1 io2, Raise (HomeAssistantError (ApiFehler msg)))
      | (io2, Raise (Client _)) =>
          (with_io h1 io2, Raise (Uncaught (Client OverflowError)))
      end
    /\ _debounced_refresh h1 = idle.
Proof.
  intros w h h1 d m Hvalid Hrefresh Hd Hgo. split.
  - unfold handle_set_mode. rewrite Hvalid. cbn [negb].
    unfold bind at 1. unfold map_exn at 1, try_except at 1. rewrite Hrefresh.
    unfold bind at 1. unfold self_get at 1, gets at 1. cbn [fst snd]. rewrite Hd.
    assert (Hgate : mem m ["set"; "partset"] && nonempty (open_zone_names d) = false).
    { destruct Hgo as [->| ->]; [reflexivity | apply andb_false_r]. }
    rewrite Hgate.
    unfold bind at 1. unfold try_except. rewrite call_api_eq.
    destruct (set_mode w (api (coordinator h1)) m (io h1)) as [io2 [[]|e]] eqn:Hset.
    + now rewrite request_refresh_run.
    + destruct (set_mode_raises _ _ _ _ _ _ Hset) as [[msg ->]|[-> _]]; reflexivity.
  - rewrite async_refresh_zones_now_eq in Hrefresh.
    destruct (get_zones w (api (coordinator h)) (io h)) as [io1 [payload|e]];
      [|discriminate].
    now injection Hrefresh as <-.
Qed.

Lemma accepted_command_sets_mode_witness :
  snd (handle_set_mode Cases.disarm_with_open_door (Some "unset") Demo.fresh) = Ok tt
  /\ requests_made
       (io (fst (handle_set_mode Cases.disarm_with_open_door (Some "unset")
                   Demo.fresh))) = 3%nat.
Proof.
  destruct (accepted_command_sets_mode Cases.disarm_with_open_door Demo.fresh
              (fst (async_refresh_zones_now Cases.disarm_with_open_door Demo.fresh))
              (_compose_data None None
                 (build_zones_dict [Demo.zone "Haus.Tuer" "open"] None) true None)
              "unset") as [H _].
  - reflexivity.
  - vm_compute. reflexivity.
  - vm_compute. reflexivity.
  - now left.
  - rewrite H. split; vm_compute; reflexivity.
Defined.

(** X22: the alarm entity arms unless the snapshot lists an open zone.
    Whether or not its zone refresh succeeded, with no snapshot at all or
    with one that lists no open zone it goes on to [_set_mode]; in
    particular, when the refresh failed and nothing was ever read from the
    panel, it arms without knowing the zones. *)
Theorem entity_arms_unless_a_zone_is_open :
  forall (w : World) (h h1 : Hass) (r : result exn unit) (mode : string),
    async_refresh_zones_now w h = (h1, r) ->
    data (coordinator h1) = None \/
    (exists d, data (coordinator h1) = Some d /\ open_zone_names d = []) ->
    _arm_with_live_zone_refresh w mode h = _set_mode w mode h1.
Proof.
  intros w h h1 r mode Hrefresh Hgo.
  unfold _arm_with_live_zone_refresh. unfold bind at 1. unfold try_except at 1.
  rewrite Hrefresh.
  assert (Hret : (let (s', r0) := (h1, r) in
                  match r0 with
                  | Ok a => (s', Ok (E := cmd_exn) a)
                  | Raise e => ret tt s'
                  end) = (h1, Ok tt)).
  { destruct r as [[]|e]; reflexivity. }
  cbv zeta in Hret. rewrite Hret.
  unfold bind at 1. unfold self_get at 1, gets at 1. cbn [fst snd].
  destruct Hgo as [->|(d & -> & ->)]; reflexivity.
Qed.

Lemma entity_arms_unless_a_zone_is_open_witness :
  _arm_with_live_zone_refresh (Demo.scripted []) "set" Demo.fresh
  = _set_mode (Demo.scripted []) "set"
      (fst (async_refresh_zones_now (Demo.scripted []) Demo.fresh))
  /\ snd (async_refresh_zones_now (Demo.scripted []) Demo.fresh)
     = Raise (SecvestApiError (RequestFailedAfterRetries (Some TimeoutError))).
Proof.
  split; [|vm_compute; reflexivity].
  apply (entity_arms_unless_a_zone_is_open (Demo.scripted []) Demo.fresh
           (fst (async_refresh_zones_now (Demo.scripted []) Demo.fresh))
           (snd (async_refresh_zones_now (Demo.scripted []) Demo.fresh))).
  - now destruct (async_refresh_zones_now (Demo.scripted []) Demo.fresh).
  - left. vm_compute. reflexivity.
Defined.

(** X23: what the commands can raise. The entity's commands only ever
    raise [HomeAssistantError]. The service handler lets an exception
    through in two cases only: the one its forced zone refresh raised, and
    the [OverflowError] that [set_mode] raises when the client's backoff
    cannot be computed, which takes a client configured with more than 1024
    retries. *)
Theorem commands_raise_home_assistant_errors :
  forall (w : World) (h : Hass),
    (forall mode e, snd (_set_mode w mode h) <> Raise (Uncaught e)) /\
    (forall mode e, snd (_arm_with_live_zone_refresh w mode h) <> Raise (Uncaught e)) /\
    (forall mode e,
        snd (handle_set_mode w mode h) = Raise (Uncaught e) ->
        snd (async_refresh_zones_now w h) = Raise e \/
        (e = Client OverflowError /\ 1025 <= _retries (api (coordinator h)))).
Proof.
  intros w h.
  assert (Hset : forall mode h0 e, snd (_set_mode w mode h0) <> Raise (Uncaught e)).
  { intros mode h0 e. rewrite _set_mode_eq.
    destruct (set_mode w (api (coordinator h0)) mode (io h0))
      as [io2 [[]|[ce|msg]]]; discriminate. }
  split; [intros mode e; apply Hset|]. split.
  - intros mode e. unfold _arm_with_live_zone_refresh.
    unfold bind at 1. unfold try_except at 1.
    destruct (async_refresh_zones_now w h) as [h1 r].
    assert (Hret : (match r with
                    | Ok a => (h1, Ok (E := cmd_exn) a)
                    | Raise e => ret tt h1
                    end) = (h1, Ok tt)).
    { destruct r as [[]|e']; reflexivity. }
    rewrite Hret. unfold bind at 1. unfold self_get at 1, gets at 1. cbn [fst snd].
    destruct (data (coordinator h1)) as [d|]; [|apply Hset].
    destruct (nonempty _); [discriminate | apply Hset].
  - intros mode e. unfold handle_set_mode.
    destruct mode as [m|]; [|discriminate].
    destruct (negb _); [discriminate|].
    unfold bind at 1. unfold map_exn at 1, try_except at 1.
    destruct (async_refresh_zones_now w h) as [h1 [[]|e']] eqn:Hrefresh.
    + assert (Hapi : api (coordinator h1) = api (coordinator h)).
      { rewrite async_refresh_zones_now_eq in Hrefresh.
        destruct (get_zones w (api (coordinator h)) (io h)) as [io1 [payload|e1]];
          [|discriminate].
        now injection Hrefresh as <-. }
      unfold bind at 1. unfold self_get at 1, gets at 1. cbn [fst snd].
      destruct (data (coordinator h1)) as [d|]; [|discriminate].
      destruct (_ && _); [discriminate|].
      unfold bind at 1. unfold try_except. rewrite call_api_eq.
      destruct (set_mode w (api (coordinator h1)) m (io h1))
        as [io2 [[]|e1]] eqn:Hset1.
      * rewrite request_refresh_run. discriminate.
      * destruct (set_mode_raises _ _ _ _ _ _ Hset1) as [[msg ->]|[-> Hmany]].
        -- discriminate.
        -- cbn. intros [= <-]. right. split; [reflexivity|]. now rewrite <- Hapi.
    + cbn. intros [= ->]. now left.
Qed.

(** A forced refresh that is answered with something other than a list of
    zones raises, and the service handler lets exactly that error through:
    the client has two retries, so it is not an [OverflowError]. *)
Lemma commands_raise_home_assistant_errors_witness :
  snd (async_refresh_zones_now Demo.unauthorized Demo.fresh)
  = Raise (SecvestApiError
             (InvalidZonesPayload (VDict [("state", VStr "unset")]))).
Proof.
  destruct (proj2 (proj2 (commands_raise_home_assistant_errors
                            Demo.unauthorized Demo.fresh)) (Some "set")
              (SecvestApiError
                 (InvalidZonesPayload (VDict [("state", VStr "unset")]))))
    as [H|[H _]].
  - vm_compute. reflexivity.
  - exact H.
  - discriminate H.
Defined.

(** ** More on the zone model *)

Lemma chars_app (s t : string) :
  list_ascii_of_string (s ++ t)
  = (list_ascii_of_string s ++ list_ascii_of_string t)%list.
Proof. induction s as [|c s IH]; simpl; [reflexivity | now rewrite IH]. Qed.

(** Replacing only brings in characters of the replacement. *)
Lemma replace_from_chars skip old new s c :
  In c (list_ascii_of_string (Str.replace_from skip old new s)) ->
  In c (list_ascii_of_string s) \/ In c (list_ascii_of_string new).
Proof.
  revert skip. induction s as [|a s IH]; intros skip; simpl; [tauto|].
  destruct skip as [|n].
  - destruct (Str.starts_with old (String a s)).
    + rewrite chars_app, in_app_iff. intros [H|H]; [now right|].
      destruct (IH _ H); auto.
    + simpl. intros [H|H]; [auto|]. destruct (IH _ H); auto.
  - intros H. destruct (IH _ H); auto.
Qed.

Lemma replace_keeps_absent old new s c :
  ~ In c (list_ascii_of_string s) ->
  ~ In c (list_ascii_of_string new) ->
  ~ In c (list_ascii_of_string (Str.replace old new s)).
Proof.
  intros Hs Hn H. unfold Str.replace in H.
  destruct (replace_from_chars _ _ _ _ _ H); auto.
Qed.

(** Replacing a single character removes it. *)
Lemma replace_char_removes a new s :
  ~ In a (list_ascii_of_string new) ->
  ~ In a (list_ascii_of_string (Str.replace (String a EmptyString) new s)).
Proof.
  intros Hn. unfold Str.replace.
  induction s as [|c s IH]; simpl; [tauto|].
  destruct (Ascii.eqb_spec a c) as [->|Hne]; simpl.
  - rewrite chars_app, in_app_iff. tauto.
  - intros [H|H]; [congruence | tauto].
Qed.

(** A pattern whose first character does not occur is never found. *)
Lemma replace_absent_first a old new s :
  ~ In a (list_ascii_of_string s) ->
  Str.replace (String a old) new s = s.
Proof.
  unfold Str.replace. induction s as [|c s IH]; simpl; [reflexivity|].
  intros Hnin. destruct (Ascii.eqb_spec a c) as [->|Hne]; [tauto|].
  simpl. f_equal. apply IH. tauto.
Qed.

Ltac not_in_literal :=
  simpl; intuition discriminate.


Lemma normalize_name_no_separator name c :
  In c ["."; " "; "-"; "/"]%char ->
  ~ In c (list_ascii_of_string (normalize_name name)).
Proof.
  intros Hc. unfold normalize_name.
  assert (Hsep : ~ In c (list_ascii_of_string
                           (Str.replace "/" "_"
                              (Str.replace "-" "_"
                                 (Str.replace " " "_"
                                    (Str.replace "." "_" name)))))).
  { simpl in Hc. destruct Hc as [<-|[<-|[<-|[<-|[]]]]].
    - do 3 (apply replace_keeps_absent; [|not_in_literal]).
      apply replace_char_removes. not_in_literal.
    - do 2 (apply replace_keeps_absent; [|not_in_literal]).
      apply replace_char_removes. not_in_literal.
    - apply replace_keeps_absent; [|not_in_literal].
      apply replace_char_removes. not_in_literal.
    - apply replace_char_removes. not_in_literal. }
  do 7 (apply replace_keeps_absent;
          [|simpl in Hc; destruct Hc as [<-|[<-|[<-|[<-|[]]]]]; not_in_literal]).
  exact Hsep.
Qed.

(** A pattern that does not occur is not replaced. *)
Lemma replace_no_occurrence old new s :
  occurs old s = false -> Str.replace old new s = s.
Proof.
  unfold Str.replace. induction s as [|c s IH]; [reflexivity|].
  cbn [occurs Str.replace_from]. intros H.
  apply orb_false_iff in H. destruct H as [H1 H2].
  rewrite H1. f_equal. now apply IH.
Qed.

(** An occurrence cannot start inside a text without its first character. *)
Lemma occurs_skip_prefix a r new t :
  ~ In a (list_ascii_of_string new) ->
  occurs (String a r) (new ++ t) = occurs (String a r) t.
Proof.
  induction new as [|c new IH]; intros Hn; [reflexivity|].
  cbn [append occurs Str.starts_with].
  simpl in Hn. destruct (Ascii.eqb_spec a c) as [->|Hne]; [tauto|].
  simpl. apply IH. tauto.
Qed.

(** If the output of a replacement starts with [b], which the replacement
    text does not contain, then so did the input. *)
Lemma head_kept b old new s :
  ~ In b (list_ascii_of_string new) -> new <> EmptyString ->
  Str.starts_with (String b EmptyString) (Str.replace_from 0 old new s) = true ->
  Str.starts_with (String b EmptyString) s = true.
Proof.
  intros Hb Hne. destruct s as [|c s]; [trivial|].
  cbn [Str.replace_from].
  destruct (Str.starts_with old (String c s)); [|trivial].
  destruct new as [|n new]; [congruence|].
  cbn [append Str.starts_with]. simpl in Hb.
  destruct (Ascii.eqb_spec b n) as [->|_]; [tauto | discriminate].
Qed.

Lemma starts_with_pair a b c s :
  Str.starts_with (String a (String b EmptyString)) (String c s)
  = Ascii.eqb a c && Str.starts_with (String b EmptyString) s.
Proof. reflexivity. Qed.

(** Replacing a two-character pattern leaves no occurrence of it. *)
Lemma replace_pair_removes a b new s :
  ~ In a (list_ascii_of_string new) ->
  ~ In b (list_ascii_of_string new) -> new <> EmptyString ->
  occurs (String a (String b EmptyString))
    (Str.replace (String a (String b EmptyString)) new s) = false.
Proof.
  intros Ha Hb Hne. unfold Str.replace.
  set (old := String a (String b EmptyString)).
  enough (H : occurs old (Str.replace_from 0 old new s) = false
              /\ occurs old (Str.replace_from 1%nat old new s) = false)
    by apply H.
  induction s as [|c s [IH0 IH1]]; [split; reflexivity|].
  split; [|exact IH0].
  cbn [Str.replace_from].
  destruct (Str.starts_with old (String c s)) eqn:Hm.
  - change (String.length old - 1)%nat with 1%nat.
    unfold old at 1. rewrite occurs_skip_prefix by assumption. exact IH1.
  - cbn [occurs]. rewrite IH0, orb_false_r.
    unfold old in *. rewrite starts_with_pair in *.
    destruct (Ascii.eqb a c); [|reflexivity].
    rewrite andb_true_l in *.
    destruct (Str.starts_with (String b EmptyString)
                (Str.replace_from 0 (String a (String b EmptyString)) new s))
      eqn:E; [|reflexivity].
    apply head_kept in E; auto. congruence.
Qed.

(** A replacement whose text has neither [a] nor [b] does not bring the
    pair [ab] together. *)
Lemma replace_keeps_pair_absent a b old new s :
  ~ In a (list_ascii_of_string new) ->
  ~ In b (list_ascii_of_string new) -> new <> EmptyString ->
  occurs (String a (String b EmptyString)) s = false ->
  occurs (String a (String b EmptyString)) (Str.replace old new s) = false.
Proof.
  intros Ha Hb Hne. unfold Str.replace. generalize 0%nat as skip.
  induction s as [|c s IH]; intros skip H; [destruct skip; exact H|].
  cbn [occurs] in H. rewrite starts_with_pair in H.
  apply orb_false_iff in H. destruct H as [H1 H2].
  cbn [Str.replace_from]. destruct skip as [|n]; [|now apply IH].
  destruct (Str.starts_with old (String c s)).
  - rewrite occurs_skip_prefix by assumption. now apply IH.
  - cbn [occurs]. rewrite starts_with_pair, (IH 0%nat H2), orb_false_r.
    destruct (Ascii.eqb a c); [|reflexivity].
    rewrite andb_true_l in *.
    destruct (Str.starts_with (String b EmptyString)
                (Str.replace_from 0 old new s)) eqn:E; [|reflexivity].
    apply head_kept in E; auto. congruence.
Qed.

Ltac new_text_ok := first [discriminate | cbv; intuition discriminate].

Lemma normalize_name_no_umlaut name p :
  In p [Str.a_uml; Str.A_uml; Str.o_uml; Str.O_uml; Str.u_uml; Str.U_uml;
        Str.eszett] ->
  occurs p (normalize_name name) = false.
Proof.
  unfold normalize_name, Str.a_uml, Str.A_uml, Str.o_uml, Str.O_uml,
    Str.u_uml, Str.U_uml, Str.eszett, Str.utf8.
  intros [<-|[<-|[<-|[<-|[<-|[<-|[<-|[]]]]]]]].
  - do 6 (apply replace_keeps_pair_absent; [new_text_ok..|]).
    apply replace_pair_removes; new_text_ok.
  - do 5 (apply replace_keeps_pair_absent; [new_text_ok..|]).
    apply replace_pair_removes; new_text_ok.
  - do 4 (apply replace_keeps_pair_absent; [new_text_ok..|]).
    apply replace_pair_removes; new_text_ok.
  - do 3 (apply replace_keeps_pair_absent; [new_text_ok..|]).
    apply replace_pair_removes; new_text_ok.
  - do 2 (apply replace_keeps_pair_absent; [new_text_ok..|]).
    apply replace_pair_removes; new_text_ok.
  - apply replace_keeps_pair_absent; [new_text_ok..|].
    apply replace_pair_removes; new_text_ok.
  - apply replace_pair_removes; new_text_ok.
Qed.

(** X24: normalizing is idempotent: a key is its own key, so normalizing an
    already normalized name changes nothing. *)
Theorem normalize_name_is_idempotent :
  forall (name : string),
    normalize_name (normalize_name name) = normalize_name name.
Proof.
  intros name.
  pose proof (normalize_name_no_separator name) as Hsep.
  pose proof (normalize_name_no_umlaut name) as Huml.
  generalize dependent (normalize_name name). intros n Hsep Huml.
  unfold normalize_name.
  rewrite (replace_absent_first "." "" "_" n) by (apply Hsep; simpl; tauto).
  rewrite (replace_absent_first " " "" "_" n) by (apply Hsep; simpl; tauto).
  rewrite (replace_absent_first "-" "" "_" n) by (apply Hsep; simpl; tauto).
  rewrite (replace_absent_first "/" "" "_" n) by (apply Hsep; simpl; tauto).
  rewrite (replace_no_occurrence Str.a_uml) by (apply Huml; simpl; tauto).
  rewrite (replace_no_occurrence Str.A_uml) by (apply Huml; simpl; tauto).
  rewrite (replace_no_occurrence Str.o_uml) by (apply Huml; simpl; tauto).
  rewrite (replace_no_occurrence Str.O_uml) by (apply Huml; simpl; tauto).
  rewrite (replace_no_occurrence Str.u_uml) by (apply Huml; simpl; tauto).
  rewrite (replace_no_occurrence Str.U_uml) by (apply Huml; simpl; tauto).
  rewrite (replace_no_occurrence Str.eszett) by (apply Huml; simpl; tauto).
  reflexivity.
Qed.
(** X25: a normalized name contains no separator: no dot, space, hyphen or
    slash is left in [normalize_name(name)], whatever the name. *)
Theorem normalized_name_has_no_separator :
  forall (name : string) (c : ascii),
    In c ["."; " "; "-"; "/"]%char ->
    ~ In c (list_ascii_of_string (normalize_name name)).
Proof. intros name c. apply normalize_name_no_separator. Qed.

Lemma normalized_name_has_no_separator_witness :
  ~ In " "%char (list_ascii_of_string (normalize_name "Fenster 1")).
Proof.
  apply normalized_name_has_no_separator. simpl. tauto.
Defined.

(** X26: a name without separators and without the lead byte of a
    two-byte UTF-8 letter in the "C3" block (where the German umlauts and
    the sharp s live) is its own key: [normalize_name] leaves it unchanged. *)
Theorem plain_name_is_its_own_key :
  forall (name : string),
    (forall c, In c ["."; " "; "-"; "/"; ascii_of_nat 195]%char ->
               ~ In c (list_ascii_of_string name)) ->
    normalize_name name = name.
Proof.
  intros name Hplain. unfold normalize_name.
  assert (H1 : Str.replace "." "_" name = name).
  { apply replace_absent_first, Hplain. simpl. tauto. }
  assert (H2 : Str.replace " " "_" name = name).
  { apply replace_absent_first, Hplain. simpl. tauto. }
  assert (H3 : Str.replace "-" "_" name = name).
  { apply replace_absent_first, Hplain. simpl. tauto. }
  assert (H4 : Str.replace "/" "_" name = name).
  { apply replace_absent_first, Hplain. simpl. tauto. }
  assert (H5 : forall b new,
             Str.replace (Str.utf8 195 b) new name = name).
  { intros b new. unfold Str.utf8. apply replace_absent_first, Hplain.
    simpl. tauto. }
  rewrite H1, H2, H3, H4.
  unfold Str.a_uml, Str.A_uml, Str.o_uml, Str.O_uml, Str.u_uml, Str.U_uml,
    Str.eszett.
  now rewrite !H5.
Qed.

Lemma plain_name_is_its_own_key_witness :
  normalize_name "Garage_2" = "Garage_2".
Proof.
  apply plain_name_is_its_own_key.
  intros c Hc Hin. simpl in Hc, Hin.
  destruct Hc as [<-|[<-|[<-|[<-|[<-|[]]]]]];
    repeat (destruct Hin as [Hin|Hin]; [discriminate Hin|]); exact Hin.
Defined.

Lemma fold_appends_keys m more acc :
  exists added,
    keys (fold_left (build_zones_step m) more acc) = (keys acc ++ added)%list
    /\ forall k, In k added <->
                 ~ In k (keys acc) /\ exists z, In z more /\ row_key z = Some k.
Proof.
  revert acc. induction more as [|z more IH]; intros acc.
  - exists []. rewrite app_nil_r. split; [reflexivity|].
    intros k. split; [intros [] | intros (_ & z & [] & _)].
  - cbn [fold_left].
    destruct (IH (build_zones_step m acc z)) as (added & Hkeys & Hadded).
    destruct (row_key z) as [kz|] eqn:Hz.
    + destruct (step_valid m acc z kz Hz) as (v & _ & Hstep).
      rewrite Hstep in *. rewrite keys_set in *.
      destruct (in_dec string_dec kz (keys acc)) as [Hin|Hnin].
      * exists added. split; [exact Hkeys|]. intros k. rewrite Hadded.
        split.
        -- intros (Hk & z' & Hz' & Hkey). split; [exact Hk|].
           exists z'. split; [now right | exact Hkey].
        -- intros (Hk & z' & [<-|Hz'] & Hkey).
           ++ congruence.
           ++ split; [exact Hk|]. now exists z'.
      * exists (kz :: added). split.
        { rewrite Hkeys, <- app_assoc. reflexivity. }
        intros k. cbn [In]. rewrite Hadded, in_app_iff. cbn [In]. split.
        -- intros [<-|(Hk & z' & Hz' & Hkey)].
           ++ split; [exact Hnin|]. exists z. split; [now left | exact Hz].
           ++ split; [tauto|]. exists z'. split; [now right | exact Hkey].
        -- intros (Hk & z' & [<-|Hz'] & Hkey).
           ++ left. congruence.
           ++ destruct (string_dec kz k) as [->|Hne]; [now left|].
              right. split; [intuition congruence|]. now exists z'.
    + assert (Hskip : build_zones_step m acc z = acc).
      { apply step_invalid. destruct (valid_row z) eqn:Hv; auto.
        apply row_key_valid in Hv. destruct Hv. congruence. }
      rewrite Hskip in *.
      exists added. split; [exact Hkeys|]. intros k. rewrite Hadded.
      split.
      * intros (Hk & z' & Hz' & Hkey). split; [exact Hk|].
        exists z'. split; [now right | exact Hkey].
      * intros (Hk & z' & [<-|Hz'] & Hkey); [congruence|].
        split; [exact Hk|]. now exists z'.
Qed.

(** X27: zone keys keep the order in which the panel first reported them:
    rows that come later in the payload never move or remove an earlier
    key, they only append the keys not seen before. *)
Theorem later_rows_only_append_keys :
  forall (payload more : list value) (name_map : option (dict string)),
    exists added,
      keys (build_zones_dict (payload ++ more) name_map)
      = (keys (build_zones_dict payload name_map) ++ added)%list
      /\ forall k,
           In k added <->
           ~ In k (keys (build_zones_dict payload name_map))
           /\ exists z, In z more /\ row_key z = Some k.
Proof.
  intros payload more name_map. unfold build_zones_dict.
  rewrite fold_left_app. apply fold_appends_keys.
Qed.

Lemma replace_char_empty a new s :
  new <> EmptyString ->
  Str.replace (String a EmptyString) new s = EmptyString -> s = EmptyString.
Proof.
  intros Hne. destruct s as [|c s]; [reflexivity|].
  unfold Str.replace. cbn [Str.replace_from].
  destruct (Str.starts_with (String a EmptyString) (String c s)).
  - destruct new; [congruence | discriminate].
  - discriminate.
Qed.

Lemma friendly_name_of_empty m raw_name :
  friendly_name_of m raw_name = EmptyString ->
  normalize_name raw_name = EmptyString.
Proof.
  unfold friendly_name_of.
  destruct (str_or _ _) as [friendly|].
  - destruct friendly as [|c friendly]; simpl.
    + apply replace_char_empty. discriminate.
    + discriminate.
  - apply replace_char_empty. discriminate.
Qed.

(** X28: every zone that [build_zones_dict] stores has a friendly name, and
    the name is empty only for the zone whose key is the empty string; when
    no name map is given, it is the key with its underscores turned into
    spaces. *)
Theorem built_zone_has_a_friendly_name :
  forall (payload : list value) (name_map : option (dict string))
         (k : string) (z : value),
    In (k, z) (build_zones_dict payload name_map) ->
    exists raw_name friendly state,
      z = zone_record raw_name friendly state /\
      k = normalize_name raw_name /\
      (friendly = EmptyString -> k = EmptyString) /\
      (name_map = None -> friendly = Str.replace "_" " " k).
Proof.
  intros payload name_map k z Hin.
  destruct (build_zones_dict_built payload name_map) as [Hb _].
  rewrite Forall_forall in Hb.
  destruct (Hb (k, z) Hin) as (raw_name & state & Hk & Hz). simpl in Hk, Hz.
  exists raw_name, (friendly_name_of
                      (match name_map with Some m => m | None => [] end)
                      raw_name), state.
  split; [exact Hz|]. split; [exact Hk|]. split.
  - intros H. rewrite Hk. eapply friendly_name_of_empty, H.
  - intros ->. rewrite Hk. reflexivity.
Qed.

Lemma built_zone_has_a_friendly_name_witness :
  exists raw_name friendly state,
    zone_record "Haus.Tuer" "Haus Tuer" "open"
    = zone_record raw_name friendly state /\
    "Haus_Tuer" = normalize_name raw_name /\
    (friendly = EmptyString -> "Haus_Tuer" = EmptyString) /\
    (@None (dict string) = None -> friendly = Str.replace "_" " " "Haus_Tuer").
Proof.
  apply (built_zone_has_a_friendly_name
           [Demo.zone "Haus.Tuer" "open"] None).
  vm_compute. left. reflexivity.
Defined.

Lemma make_spoken_zone_list_truthy zones :
  zones <> [] -> Str.truthy (make_spoken_zone_list zones) = true.
Proof.
  destruct zones as [|z [|z2 rest]]; [congruence | reflexivity | reflexivity].
Qed.

(** X29: in every snapshot a reachable coordinator holds, the spoken text
    is empty exactly when no zone is open; so when a command is refused for
    open zones, the refusal text is the spoken list of those zones and the
    fixed fallback text is never used. *)
Theorem refusal_text_is_the_spoken_list :
  forall (w : World) (h : Hass) (d : SecvestData),
    reachable w h ->
    data (coordinator h) = Some d ->
    (open_zones_spoken d = EmptyString <-> open_zone_names d = []) /\
    (nonempty (open_zone_names d) = true ->
     forall fallback,
       string_or (open_zones_spoken d) fallback
       = make_spoken_zone_list (open_zone_names d)).
Proof.
  intros w h d Hr Hd.
  pose proof (reachable_composed w h Hr d Hd) as Hc.
  destruct (composed_consistent d Hc) as (_ & _ & Hspoken).
  rewrite Hspoken. split.
  - split.
    + intros He. destruct (open_zone_names d) as [|z zs]; [reflexivity|].
      assert (Ht : Str.truthy (make_spoken_zone_list (z :: zs)) = true)
        by (apply make_spoken_zone_list_truthy; discriminate).
      rewrite He in Ht. discriminate.
    + intros ->. reflexivity.
  - intros Hne fallback. unfold string_or.
    rewrite make_spoken_zone_list_truthy; [reflexivity|].
    intros He. rewrite He in Hne. discriminate.
Qed.

Lemma refusal_text_is_the_spoken_list_witness :
  open_zones_spoken Demo.two_zones_snapshot = EmptyString
  <-> open_zone_names Demo.two_zones_snapshot = [].
Proof.
  refine (proj1 (refusal_text_is_the_spoken_list Demo.two_zones
                   (run Demo.two_zones RefreshZonesNow Demo.fresh)
                   Demo.two_zones_snapshot _ _)).
  - apply reachable_step. apply reachable_init.
  - vm_compute. reflexivity.
Defined.

Lemma rstrip_slash_slashes n : Str.rstrip_slash (slashes n) = EmptyString.
Proof. induction n as [|n IH]; simpl; [reflexivity | now rewrite IH]. Qed.

Lemma rstrip_slash_app_slashes s n :
  Str.rstrip_slash (s ++ slashes n) = Str.rstrip_slash s.
Proof.
  induction s as [|c s IH]; simpl.
  - apply rstrip_slash_slashes.
  - now rewrite IH.
Qed.

Lemma rstrip_slash_splits s :
  exists n, s = Str.rstrip_slash s ++ slashes n.
Proof.
  induction s as [|c s [n IH]]; [now exists 0%nat|].
  cbn [Str.rstrip_slash].
  destruct (Str.rstrip_slash s) as [|c' t] eqn:Hr.
  - simpl in IH. destruct (Ascii.eqb_spec c "/"%char) as [->|_].
    + exists (S n). simpl. now rewrite <- IH.
    + exists n. simpl. now rewrite <- IH.
  - exists n. simpl in IH |- *. now f_equal.
Qed.

Lemma rstrip_slash_no_trailing_slash s t :
  Str.rstrip_slash s <> t ++ "/".
Proof.
  revert t. induction s as [|c s IH]; intros t.
  - destruct t; discriminate.
  - cbn [Str.rstrip_slash].
    destruct (Str.rstrip_slash s) as [|c' r] eqn:Hr.
    + destruct (Ascii.eqb_spec c "/"%char) as [->|Hne].
      * destruct t; discriminate.
      * destruct t as [|c2 t]; simpl.
        -- intros [= ->]. congruence.
        -- destruct t; discriminate.
    + destruct t as [|c2 t]; simpl.
      * discriminate.
      * intros [= -> H]. exact (IH t H).
Qed.

(** X30: trailing slashes of the configured host are ignored: the client
    keeps the host up to its last character that is not a slash, so a host
    given with extra slashes at its end is requested under the same URLs,
    and the URL of a path is the kept host followed by the path. *)
Theorem trailing_slashes_of_host_are_ignored :
  forall (host user_code : string) (retries : Z) (path : string) (n : nat),
    let self := SecvestApi_init host user_code retries in
    _url (SecvestApi_init (host ++ slashes n) user_code retries) path
    = _url self path /\
    (exists k, host = _host self ++ slashes k) /\
    (forall t, _host self <> t ++ "/") /\
    _url self path = _host self ++ path.
Proof.
  intros host user_code retries path n self. unfold self, _url. simpl.
  rewrite rstrip_slash_app_slashes.
  split; [reflexivity|]. split; [apply rstrip_slash_splits|].
  split; [apply rstrip_slash_no_trailing_slash | reflexivity].
Qed.
